(** * Resilience runtime of the link-in-bio application

    A shallow embedding of the circuit breaker, the rate limiter, the
    in-memory cache, the account lockout tracker and the shutdown manager,
    followed by the properties established about them.

    Conventions of the embedding.
    - Numbers are integers ([Z]); timestamps and durations are milliseconds.
      Where [Infinity] and [NaN] change what the code does, in the eviction
      of the cache, the module [InMemoryCacheJs] has them as well.
    - Every synchronous stretch of code sees one clock value: the reading of
      [Date.now()] (or [new Date()]) is the argument [now] of the function.
      Awaiting a promise that settles after [d] milliseconds moves the clock
      to [now + d]. Where a result depends on the time that passes while the
      user table is awaited, in the message of a login that locks the
      account, each reading of the clock is an argument of its own
      ([Auth.authorizeAt]).
    - A call of [execute] that is under way shares the breaker with the calls
      that arrive meanwhile: [BreakerUse.step] has the two synchronous
      stretches of a call as separate events.
    - An operation passed to the runtime is a function on an abstract world
      [W]: calling it may change the world and yields a promise. A function
      that is not called leaves the world as it was.
    - Console and logger output is not part of the state. *)

From stdpp Require Import gmap strings list pretty.
From Stdlib Require Import ZArith Lia.

Local Open Scope Z_scope.

(** ** JavaScript values shared by the components *)

Module Js.

Record Error := mkError { name : string; message : string }.

Inductive Outcome (T : Type) :=
| Fulfilled (v : T)
| Thrown (e : Error).
Arguments Fulfilled {T} v.
Arguments Thrown {T} e.

(** A promise either settles some milliseconds after it was created, or
    stays pending for ever. *)
Inductive Promise (T : Type) :=
| SettlesAfter (delay : Z) (o : Outcome T)
| NeverSettles.
Arguments SettlesAfter {T} delay o.
Arguments NeverSettles {T}.

(** [setTimeout(cb, ms)]: Node uses 1 when [ms] is below 1 or above
    2147483647. *)
Definition timerDelay (ms : Z) : Z :=
  if (ms <? 1) || (2147483647 <? ms) then 1 else ms.

(** [await Promise.race([p, new Promise((_, reject) =>
    setTimeout(() => reject(new Error(msg)), ms))])]:
    the elapsed time and the outcome. The timer always fires, so the race
    always settles; when both settle at the same instant the promise listed
    first wins. *)
Definition raceTimeout {T} (p : Promise T) (ms : Z) (msg : string)
  : Z * Outcome T :=
  match p with
  | SettlesAfter d o =>
      if d <=? timerDelay ms then (d, o)
      else (timerDelay ms, Thrown (mkError "Error" msg))
  | NeverSettles => (timerDelay ms, Thrown (mkError "Error" msg))
  end.

(** [x || d] on numbers: [0] is falsy. *)
Definition orNum (x d : Z) : Z := if x =? 0 then d else x.

(** [x || d] where [x] may be [undefined] or [null]. *)
Definition orNumOpt (x : option Z) (d : Z) : Z :=
  match x with
  | Some v => orNum v d
  | None => d
  end.

(** An operation handed to the runtime. *)
Definition Op (W T : Type) : Type := W -> Promise T * W.

End Js.

(** ** Circuit breaker *)

Module CircuitBreaker.
Import Js.

Inductive CircuitState := CLOSED | OPEN | HALF_OPEN.

Definition CircuitState_eqb (a b : CircuitState) : bool :=
  match a, b with
  | CLOSED, CLOSED | OPEN, OPEN | HALF_OPEN, HALF_OPEN => true
  | _, _ => false
  end.

Record CircuitBreakerConfig := mkConfig {
  failureThreshold : Z;
  resetTimeout : Z;
  successThreshold : Z;
  requestTimeout : Z;
  monitoringEnabled : bool
}.

(** [Partial<CircuitBreakerConfig>]: every field may be missing. *)
Record PartialConfig := mkPartial {
  p_failureThreshold : option Z;
  p_resetTimeout : option Z;
  p_successThreshold : option Z;
  p_requestTimeout : option Z;
  p_monitoringEnabled : option bool
}.

Module Stats.
Record CircuitBreakerStats := mk {
  state : CircuitState;
  failureCount : Z;
  successCount : Z;
  lastFailureTime : option Z;
  lastSuccessTime : option Z;
  totalRequests : Z;
  totalFailures : Z;
  totalSuccesses : Z
}.
End Stats.
Abbreviation CircuitBreakerStats := Stats.CircuitBreakerStats.

Record t := mk {
  state : CircuitState;
  failureCount : Z;
  successCount : Z;
  lastFailureTime : option Z;
  lastSuccessTime : option Z;
  nextAttemptTime : option Z;
  stats : CircuitBreakerStats;
  config : CircuitBreakerConfig
}.

Definition CircuitBreakerOpenError (message : string) : Error :=
  mkError "CircuitBreakerOpenError" message.

(** The constructor. *)
Definition new (c : PartialConfig) : t :=
  {| state := CLOSED;
     failureCount := 0;
     successCount := 0;
     lastFailureTime := None;
     lastSuccessTime := None;
     nextAttemptTime := None;
     config :=
       {| failureThreshold := orNumOpt (p_failureThreshold c) 5;
          resetTimeout := orNumOpt (p_resetTimeout c) 60000;
          successThreshold := orNumOpt (p_successThreshold c) 2;
          requestTimeout := orNumOpt (p_requestTimeout c) 30000;
          monitoringEnabled := default true (p_monitoringEnabled c) |};
     stats :=
       {| Stats.state := CLOSED;
          Stats.failureCount := 0;
          Stats.successCount := 0;
          Stats.lastFailureTime := None;
          Stats.lastSuccessTime := None;
          Stats.totalRequests := 0;
          Stats.totalFailures := 0;
          Stats.totalSuccesses := 0 |} |}.

Definition transitionToOpen (now : Z) (cb : t) : t :=
  {| state := OPEN;
     failureCount := failureCount cb;
     successCount := 0;
     lastFailureTime := lastFailureTime cb;
     lastSuccessTime := lastSuccessTime cb;
     nextAttemptTime := Some (now + resetTimeout (config cb));
     stats := stats cb;
     config := config cb |}.

Definition transitionToClosed (cb : t) : t :=
  {| state := CLOSED;
     failureCount := 0;
     successCount := 0;
     lastFailureTime := lastFailureTime cb;
     lastSuccessTime := lastSuccessTime cb;
     nextAttemptTime := None;
     stats := stats cb;
     config := config cb |}.

Definition transitionToHalfOpen (cb : t) : t :=
  {| state := HALF_OPEN;
     failureCount := failureCount cb;
     successCount := 0;
     lastFailureTime := lastFailureTime cb;
     lastSuccessTime := lastSuccessTime cb;
     nextAttemptTime := nextAttemptTime cb;
     stats := stats cb;
     config := config cb |}.

Definition updateStats (cb : t) : t :=
  {| state := state cb;
     failureCount := failureCount cb;
     successCount := successCount cb;
     lastFailureTime := lastFailureTime cb;
     lastSuccessTime := lastSuccessTime cb;
     nextAttemptTime := nextAttemptTime cb;
     stats :=
       {| Stats.state := state cb;
          Stats.failureCount := failureCount cb;
          Stats.successCount := successCount cb;
          Stats.lastFailureTime := lastFailureTime cb;
          Stats.lastSuccessTime := lastSuccessTime cb;
          Stats.totalRequests := Stats.totalRequests (stats cb);
          Stats.totalFailures := Stats.totalFailures (stats cb);
          Stats.totalSuccesses := Stats.totalSuccesses (stats cb) |};
     config := config cb |}.

(** The three in-place increments of the cumulative counters. *)
Definition bumpRequests (s : CircuitBreakerStats) : CircuitBreakerStats :=
  Stats.mk (Stats.state s) (Stats.failureCount s) (Stats.successCount s)
    (Stats.lastFailureTime s) (Stats.lastSuccessTime s)
    (Stats.totalRequests s + 1) (Stats.totalFailures s)
    (Stats.totalSuccesses s).

Definition bumpFailures (s : CircuitBreakerStats) : CircuitBreakerStats :=
  Stats.mk (Stats.state s) (Stats.failureCount s) (Stats.successCount s)
    (Stats.lastFailureTime s) (Stats.lastSuccessTime s)
    (Stats.totalRequests s) (Stats.totalFailures s + 1)
    (Stats.totalSuccesses s).

Definition bumpSuccesses (s : CircuitBreakerStats) : CircuitBreakerStats :=
  Stats.mk (Stats.state s) (Stats.failureCount s) (Stats.successCount s)
    (Stats.lastFailureTime s) (Stats.lastSuccessTime s)
    (Stats.totalRequests s) (Stats.totalFailures s)
    (Stats.totalSuccesses s + 1).

Definition onSuccess (now : Z) (cb : t) : t :=
  let cb1 :=
    {| state := state cb;
       failureCount := 0;
       successCount := successCount cb + 1;
       lastFailureTime := lastFailureTime cb;
       lastSuccessTime := Some now;
       nextAttemptTime := nextAttemptTime cb;
       stats := bumpSuccesses (stats cb);
       config := config cb |} in
  let cb2 :=
    match state cb1 with
    | HALF_OPEN =>
        if successThreshold (config cb1) <=? successCount cb1
        then transitionToClosed cb1 else cb1
    | _ => cb1
    end in
  updateStats cb2.

Definition onFailure (now : Z) (cb : t) : t :=
  let cb1 :=
    {| state := state cb;
       failureCount := failureCount cb + 1;
       successCount := successCount cb;
       lastFailureTime := Some now;
       lastSuccessTime := lastSuccessTime cb;
       nextAttemptTime := nextAttemptTime cb;
       stats := bumpFailures (stats cb);
       config := config cb |} in
  let cb2 :=
    match state cb1 with
    | CLOSED =>
        if failureThreshold (config cb1) <=? failureCount cb1
        then transitionToOpen now cb1 else cb1
    | HALF_OPEN => transitionToOpen now cb1
    | OPEN => cb1
    end in
  updateStats cb2.

Definition withStats (s : CircuitBreakerStats) (cb : t) : t :=
  mk (state cb) (failureCount cb) (successCount cb) (lastFailureTime cb)
    (lastSuccessTime cb) (nextAttemptTime cb) s (config cb).

(** What a call of [execute] leaves behind. [invoked] records whether the
    operation was called. *)
Record Execution (W T : Type) := mkExecution {
  outcome : Outcome T;
  breaker : t;
  world : W;
  finishedAt : Z;
  invoked : bool
}.
Arguments mkExecution {W T}.
Arguments outcome {W T}.
Arguments breaker {W T}.
Arguments world {W T}.
Arguments finishedAt {W T}.
Arguments invoked {W T}.

(** The part of [execute] after the gate: count the request, run the
    operation against the request timeout, record the outcome. *)
Definition attempt {W T} (fn : Op W T) (now : Z) (cb : t) (w : W)
  : Execution W T :=
  let cb1 := withStats (bumpRequests (stats cb)) cb in
  let '(p, w') := fn w in
  let '(d, o) := raceTimeout p (requestTimeout (config cb1)) "Request timeout" in
  match o with
  | Fulfilled v =>
      mkExecution (Fulfilled v) (onSuccess (now + d) cb1) w' (now + d) true
  | Thrown e =>
      mkExecution (Thrown e) (onFailure (now + d) cb1) w' (now + d) true
  end.

Definition execute {W T} (fn : Op W T) (now : Z) (cb : t) (w : W)
  : Execution W T :=
  match state cb with
  | OPEN =>
      if now <? orNumOpt (nextAttemptTime cb) 0
      then mkExecution
             (Thrown (CircuitBreakerOpenError "Circuit breaker is OPEN"))
             cb w now false
      else attempt fn now (transitionToHalfOpen cb) w
  | _ => attempt fn now cb w
  end.

Definition reset (cb : t) : t := transitionToClosed cb.
Definition open (now : Z) (cb : t) : t := transitionToOpen now cb.
Definition getStats (cb : t) : CircuitBreakerStats := stats cb.
Definition getState (cb : t) : CircuitState := state cb.

(** A sequence of calls, each at its own time, one after the other. *)
Fixpoint executeAll {W T} (calls : list (Z * Op W T)) (cb : t) (w : W)
  : t * W :=
  match calls with
  | [] => (cb, w)
  | (now, fn) :: rest =>
      let r := execute fn now cb w in
      executeAll rest (breaker r) (world r)
  end.

(** How the race of [withTimeout] ends for an operation called in [w]. *)
Definition settle {W T} (cb : t) (fn : Op W T) (w : W) : Z * Outcome T :=
  raceTimeout (fn w).1 (requestTimeout (config cb)) "Request timeout".

(** An operation that, under the request timeout of [cb], always ends in a
    failure (it rejects, or the timer wins), respectively in a success. *)
Definition failing {W T} (cb : t) (fn : Op W T) : Prop :=
  ∀ w, ∃ d e, settle cb fn w = (d, Thrown e).


End CircuitBreaker.

(** ** Rate limiter *)

Module RateLimiter.

Record RateLimitEntry := mkEntry { count : Z; resetTime : Z }.

Module Result.
Record t := mk { success : bool; remaining : Z; resetTime : Z }.
End Result.

(** [private store: Map<string, RateLimitEntry>]. *)
Abbreviation Store := (gmap string RateLimitEntry).

Definition new : Store := ∅.

(** [check]. In the source the stored entry object is incremented in place
    and put back under the same key; the store then holds the incremented
    entry, which is what the insertion below leaves. *)
Definition check (identifier : string) (maxRequests windowMs now : Z)
    (store : Store) : Result.t * Store :=
  let fresh :=
    let newEntry := {| count := 1; resetTime := now + windowMs |} in
    (Result.mk true (maxRequests - 1) (resetTime newEntry),
     <[identifier := newEntry]> store) in
  match store !! identifier with
  | None => fresh
  | Some entry =>
      if resetTime entry <? now then fresh
      else
        let entry' := {| count := count entry + 1;
                         resetTime := resetTime entry |} in
        (Result.mk (count entry' <=? maxRequests)
           (Z.max 0 (maxRequests - count entry'))
           (resetTime entry'),
         <[identifier := entry']> store)
  end.

Definition cleanup (now : Z) (store : Store) : Store :=
  filter (fun kv => ¬ (resetTime kv.2 < now)) store.

Definition reset (identifier : string) (store : Store) : Store :=
  delete identifier store.

Definition getStatus (identifier : string) (store : Store)
  : option RateLimitEntry :=
  store !! identifier.

(** Calls for one identifier with one policy, at the given times. *)
Fixpoint checkAll (identifier : string) (maxRequests windowMs : Z)
    (times : list Z) (store : Store) : list Result.t * Store :=
  match times with
  | [] => ([], store)
  | now :: rest =>
      let '(r, store1) := check identifier maxRequests windowMs now store in
      let '(rs, store2) := checkAll identifier maxRequests windowMs rest store1 in
      (r :: rs, store2)
  end.

End RateLimiter.

(** ** In-memory cache *)

Module InMemoryCache.

Record CacheEntry (V : Type) := mkEntry { value : V; expiresAt : Z }.
Arguments mkEntry {V}.
Arguments value {V}.
Arguments expiresAt {V}.

Record CacheStats := mkStats { hits : Z; misses : Z; size : Z }.

(** A JavaScript [Map] keeps its keys in the order in which they were first
    inserted; writing to a key that is present keeps its place. The map is
    a list of bindings with distinct keys, oldest insertion first. *)
Section JsMap.
Context {V : Type}.

Fixpoint mapGet (k : string) (m : list (string * V)) : option V :=
  match m with
  | [] => None
  | (k', v) :: rest => if String.eqb k k' then Some v else mapGet k rest
  end.

Definition mapHas (k : string) (m : list (string * V)) : bool :=
  match mapGet k m with Some _ => true | None => false end.

Fixpoint mapSet (k : string) (v : V) (m : list (string * V))
  : list (string * V) :=
  match m with
  | [] => [(k, v)]
  | (k', v') :: rest =>
      if String.eqb k k' then (k, v) :: rest
      else (k', v') :: mapSet k v rest
  end.

Fixpoint mapDelete (k : string) (m : list (string * V))
  : list (string * V) :=
  match m with
  | [] => []
  | (k', v') :: rest =>
      if String.eqb k k' then rest else (k', v') :: mapDelete k rest
  end.

Definition mapSize (m : list (string * V)) : Z := Z.of_nat (length m).
End JsMap.

Record t (V : Type) := mk {
  cache : list (string * CacheEntry V);
  stats : CacheStats;
  defaultTTL : Z;
  maxSize : Z
}.
Arguments mk {V}.
Arguments cache {V}.
Arguments stats {V}.
Arguments defaultTTL {V}.
Arguments maxSize {V}.

Section Cache.
Context {V : Type}.

(** The constructor takes the default TTL in seconds. *)
Definition new (defaultTTL maxSize : Z) : t V :=
  {| cache := [];
     stats := mkStats 0 0 0;
     defaultTTL := defaultTTL * 1000;
     maxSize := maxSize |}.

Definition get (key : string) (now : Z) (c : t V) : option V * t V :=
  match mapGet key (cache c) with
  | None =>
      (None,
       mk (cache c)
         (mkStats (hits (stats c)) (misses (stats c) + 1) (size (stats c)))
         (defaultTTL c) (maxSize c))
  | Some entry =>
      if expiresAt entry <? now then
        let cache' := mapDelete key (cache c) in
        (None,
         mk cache'
           (mkStats (hits (stats c)) (misses (stats c) + 1) (mapSize cache'))
           (defaultTTL c) (maxSize c))
      else
        (Some (value entry),
         mk (cache c)
           (mkStats (hits (stats c) + 1) (misses (stats c)) (size (stats c)))
           (defaultTTL c) (maxSize c))
  end.

(** The loop of [evictOldest]: [oldestTime = None] is [Infinity]. *)
Fixpoint findOldest (entries : list (string * CacheEntry V))
    (oldestKey : option string) (oldestTime : option Z) : option string :=
  match entries with
  | [] => oldestKey
  | (key, entry) :: rest =>
      let smaller :=
        match oldestTime with
        | None => true
        | Some t0 => expiresAt entry <? t0
        end in
      if smaller then findOldest rest (Some key) (Some (expiresAt entry))
      else findOldest rest oldestKey oldestTime
  end.

(** [if (oldestKey)] is a truthiness test: [null] and the empty string
    both fail it. *)
Definition evictOldest (m : list (string * CacheEntry V))
  : list (string * CacheEntry V) :=
  match findOldest m None None with
  | Some k => if String.eqb k "" then m else mapDelete k m
  | None => m
  end.

Definition set (key : string) (v : V) (ttl : option Z) (now : Z) (c : t V)
  : t V :=
  let expiresAt := now + Js.orNumOpt ttl (defaultTTL c) in
  let cache1 :=
    if (maxSize c <=? mapSize (cache c)) && negb (mapHas key (cache c))
    then evictOldest (cache c) else cache c in
  let cache2 := mapSet key (mkEntry v expiresAt) cache1 in
  mk cache2
    (mkStats (hits (stats c)) (misses (stats c)) (mapSize cache2))
    (defaultTTL c) (maxSize c).

Definition delete (key : string) (c : t V) : bool * t V :=
  let cache' := mapDelete key (cache c) in
  (mapHas key (cache c),
   mk cache'
     (mkStats (hits (stats c)) (misses (stats c)) (mapSize cache'))
     (defaultTTL c) (maxSize c)).

Definition has (key : string) (now : Z) (c : t V) : bool * t V :=
  match mapGet key (cache c) with
  | None => (false, c)
  | Some entry =>
      if expiresAt entry <? now then
        let cache' := mapDelete key (cache c) in
        (false,
         mk cache'
           (mkStats (hits (stats c)) (misses (stats c)) (mapSize cache'))
           (defaultTTL c) (maxSize c))
      else (true, c)
  end.

Definition clear (c : t V) : t V :=
  mk [] (mkStats (hits (stats c)) (misses (stats c)) 0)
    (defaultTTL c) (maxSize c).

Definition getStats (c : t V) : CacheStats := stats c.

(** The periodic sweep started by the constructor. *)
Definition sweep (now : Z) (c : t V) : t V :=
  let cache' :=
    List.filter (fun kv => negb (expiresAt (snd kv) <? now)) (cache c) in
  mk cache'
    (mkStats (hits (stats c)) (misses (stats c)) (mapSize cache'))
    (defaultTTL c) (maxSize c).

(** [set] without a TTL for each key in turn, at the given times. *)
Fixpoint setAll (items : list (string * V * Z)) (c : t V) : t V :=
  match items with
  | [] => c
  | (key, v, now) :: rest => setAll rest (set key v None now c)
  end.
End Cache.

End InMemoryCache.

(** ** Account lockout *)

Module AccountLockout.
Import Js.

Module Config.
Record t := mk {
  maxAttempts : Z;
  lockoutDuration : Z;
  incrementDuration : Z
}.
End Config.

Definition ACCOUNT_LOCKOUT_CONFIG : Config.t :=
  {| Config.maxAttempts := 5;
     Config.lockoutDuration := 30 * 60 * 1000;
     Config.incrementDuration := 5 * 60 * 1000 |}.

(** The columns of the [User] table that the tracker reads and writes. *)
Module User.
Record t := mk {
  id : string;
  failedLoginAttempts : Z;
  lockoutUntil : option Z
}.
End User.

(** The table, keyed by email. *)
Abbreviation Db := (gmap string User.t).

Record LockoutStatus := mkStatus {
  isLocked : bool;
  remainingAttempts : Z;
  lockoutUntil : option Z;
  lockoutDuration : Z
}.

Definition findUnique (email : string) (db : Db) : option User.t :=
  db !! email.

(** [prisma.user.update]: rejects when no row has this email. *)
Definition update (email : string) (failedLoginAttempts : Z)
    (lockoutUntil : option Z) (db : Db) : Outcome unit * Db :=
  match db !! email with
  | Some u =>
      (Fulfilled tt,
       <[email := User.mk (User.id u) failedLoginAttempts lockoutUntil]> db)
  | None =>
      (Thrown (mkError "PrismaClientKnownRequestError"
                 "Record to update not found."), db)
  end.

(** [d > now] for a nullable date; a [Date] object is always truthy. *)
Definition after (d : option Z) (now : Z) : bool :=
  match d with Some t => now <? t | None => false end.

Definition notAfter (d : option Z) (now : Z) : bool :=
  match d with Some t => t <=? now | None => false end.

Definition checkAccountLockout (email : string) (now : Z) (db : Db)
  : Outcome LockoutStatus * Db :=
  match findUnique email db with
  | None =>
      (Fulfilled
         (mkStatus false (Config.maxAttempts ACCOUNT_LOCKOUT_CONFIG) None 0),
       db)
  | Some user =>
      if after (User.lockoutUntil user) now then
        (Fulfilled
           (mkStatus true 0 (User.lockoutUntil user)
              (Config.lockoutDuration ACCOUNT_LOCKOUT_CONFIG)),
         db)
      else
        let '(written, db1) :=
          if notAfter (User.lockoutUntil user) now
          then update email 0 None db
          else (Fulfilled tt, db) in
        match written with
        | Thrown e => (Thrown e, db1)
        | Fulfilled _ =>
            let remainingAttempts :=
              Config.maxAttempts ACCOUNT_LOCKOUT_CONFIG
              - orNum (User.failedLoginAttempts user) 0 in
            (Fulfilled (mkStatus false (Z.max 0 remainingAttempts) None 0),
             db1)
        end
  end.

Definition recordFailedLoginAttempt (email : string) (now : Z) (db : Db)
  : Outcome LockoutStatus * Db :=
  match findUnique email db with
  | None =>
      (Fulfilled
         (mkStatus false (Config.maxAttempts ACCOUNT_LOCKOUT_CONFIG - 1)
            None 0),
       db)
  | Some user =>
      let currentAttempts := orNum (User.failedLoginAttempts user) 0 + 1 in
      let shouldLock :=
        Config.maxAttempts ACCOUNT_LOCKOUT_CONFIG <=? currentAttempts in
      let '(lockoutUntil, lockoutDuration) :=
        if shouldLock then
          let excessAttempts :=
            currentAttempts - Config.maxAttempts ACCOUNT_LOCKOUT_CONFIG in
          let lockoutDuration :=
            Config.lockoutDuration ACCOUNT_LOCKOUT_CONFIG
            + excessAttempts * Config.incrementDuration ACCOUNT_LOCKOUT_CONFIG in
          (Some (now + lockoutDuration), lockoutDuration)
        else (None, 0) in
      let '(written, db1) := update email currentAttempts lockoutUntil db in
      match written with
      | Thrown e => (Thrown e, db1)
      | Fulfilled _ =>
          (Fulfilled
             (mkStatus shouldLock
                (Z.max 0 (Config.maxAttempts ACCOUNT_LOCKOUT_CONFIG
                          - currentAttempts))
                lockoutUntil lockoutDuration),
           db1)
      end
  end.

Definition resetFailedLoginAttempts (email : string) (db : Db)
  : Outcome unit * Db :=
  update email 0 None db.

(** Failed logins recorded one after the other, at the given times; the
    status returned for each, most recent last. A call that rejects ends
    the run. *)
Fixpoint recordFailures (email : string) (times : list Z) (db : Db)
  : list LockoutStatus * Db :=
  match times with
  | [] => ([], db)
  | now :: rest =>
      match recordFailedLoginAttempt email now db with
      | (Fulfilled s, db1) =>
          let '(ss, db2) := recordFailures email rest db1 in (s :: ss, db2)
      | (Thrown _, db1) => ([], db1)
      end
  end.

End AccountLockout.

(** ** Shutdown manager *)

Module ShutdownManager.
Import Js.

Record ShutdownHandler (W : Type) := mkHandler {
  name : string;
  handler : string -> Op W unit;
  timeout : option Z
}.
Arguments mkHandler {W}.
Arguments name {W}.
Arguments handler {W}.
Arguments timeout {W}.

(** An element of the [results] array of [executeHandlers]. *)
Module Result.
Record t := mk {
  name : string;
  success : bool;
  duration : Z;
  error : option string
}.
End Result.

Record t (W : Type) := mk {
  handlers : list (ShutdownHandler W);
  isShuttingDown : bool;
  defaultTimeout : Z
}.
Arguments mk {W}.
Arguments handlers {W}.
Arguments isShuttingDown {W}.
Arguments defaultTimeout {W}.

Section Manager.
Context {W : Type}.

Definition new : t W :=
  {| handlers := []; isShuttingDown := false; defaultTimeout := 30000 |}.

Definition register (h : ShutdownHandler W) (m : t W) : t W :=
  mk (handlers m ++ [h]) (isShuttingDown m) (defaultTimeout m).

Definition unregister (n : string) (m : t W) : t W :=
  mk (List.filter (fun h => negb (String.eqb (name h) n)) (handlers m))
    (isShuttingDown m) (defaultTimeout m).

(** One turn of the loop of [executeHandlers]: the entry pushed onto
    [results], the clock after the [await], the world after the call. *)
Definition runHandler (defaultTimeout : Z) (signal : string)
    (h : ShutdownHandler W) (now : Z) (w : W) : Result.t * Z * W :=
  let start := now in
  let timeout := orNumOpt (timeout h) defaultTimeout in
  let '(p, w') := handler h signal w in
  let '(d, o) := raceTimeout p timeout "Timeout" in
  let duration := (start + d) - start in
  match o with
  | Fulfilled _ => (Result.mk (name h) true duration None, start + d, w')
  | Thrown e =>
      (Result.mk (name h) false duration (Some (message e)), start + d, w')
  end.

Fixpoint runHandlers (defaultTimeout : Z) (signal : string)
    (hs : list (ShutdownHandler W)) (results : list Result.t)
    (now : Z) (w : W) : list Result.t * Z * W :=
  match hs with
  | [] => (results, now, w)
  | h :: rest =>
      let '(r, now', w') := runHandler defaultTimeout signal h now w in
      runHandlers defaultTimeout signal rest (results ++ [r]) now' w'
  end.

(** The summary that is logged once the loop is over. *)
Record Summary := mkSummary {
  total : Z;
  successful : Z;
  failed : Z;
  totalDuration : Z;
  details : list Result.t
}.

Definition summary (results : list Result.t) : Summary :=
  {| total := Z.of_nat (length results);
     successful := Z.of_nat (length (List.filter Result.success results));
     failed :=
       Z.of_nat
         (length (List.filter (fun r => negb (Result.success r)) results));
     totalDuration :=
       fold_left (fun sum r => sum + Result.duration r) results 0;
     details := results |}.

Definition executeHandlers (signal : string) (now : Z) (w : W) (m : t W)
  : Summary * Z * W :=
  let '(results, now', w') :=
    runHandlers (defaultTimeout m) signal (handlers m) [] now w in
  (summary results, now', w').
(** The manager after [register] was called for each handler in turn. *)
Definition registerAll (hs : list (ShutdownHandler W)) (m : t W) : t W :=
  fold_left (fun m h => register h m) hs m.

(** The world after each handler in turn was called with the signal. *)
Definition worldAfter (signal : string) (hs : list (ShutdownHandler W))
    (w : W) : W :=
  fold_left (fun w h => (handler h signal w).2) hs w.

(** One turn of the loop in closed form: the entry pushed for a handler
    named [n] whose promise is [p], when [setTimeout] is called with [ms]. *)
Definition expectedEntry (n : string) (p : Promise unit) (ms : Z)
  : Result.t :=
  match p with
  | SettlesAfter d o =>
      if d <=? timerDelay ms then
        match o with
        | Fulfilled _ => Result.mk n true d None
        | Thrown e => Result.mk n false d (Some (message e))
        end
      else Result.mk n false (timerDelay ms) (Some "Timeout")
  | NeverSettles => Result.mk n false (timerDelay ms) (Some "Timeout")
  end.



End Manager.

End ShutdownManager.

(** ** Clients of the circuit breaker *)

Module BreakerUse.
Import Js CircuitBreaker.

(** [execute] is two synchronous stretches around one [await]. The first
    is the gate and the count of the request, after which the operation is
    started: [enter] gives the breaker as this stretch leaves it, or nothing
    when the call is turned away. The second, [leave], records the outcome
    once the race against the request timer has settled. *)
Definition enter (now : Z) (cb : CircuitBreaker.t) : option CircuitBreaker.t :=
  match state cb with
  | OPEN =>
      if now <? orNumOpt (nextAttemptTime cb) 0 then None
      else
        let cb1 := transitionToHalfOpen cb in
        Some (withStats (bumpRequests (stats cb1)) cb1)
  | _ => Some (withStats (bumpRequests (stats cb)) cb)
  end.

Definition leave {T} (o : Outcome T) (now : Z) (cb : CircuitBreaker.t)
  : CircuitBreaker.t :=
  match o with
  | Fulfilled _ => onSuccess now cb
  | Thrown _ => onFailure now cb
  end.

(** What happens to a breaker that several callers share: a call arrives,
    the race of a call that is under way settles, [reset()], [open()].
    Calls overlap when a second one arrives before the first has settled. *)
Inductive Event (T : Type) :=
| Arrives (now : Z)
| Settles (now : Z) (o : Outcome T)
| Resets
| Opens (now : Z).
Arguments Arrives {T} now.
Arguments Settles {T} now o.
Arguments Resets {T}.
Arguments Opens {T} now.

(** The breaker together with the number of calls that were let through and
    have not settled yet. Only a call under way can settle. *)
Definition step {T} (e : Event T) (s : CircuitBreaker.t * nat)
  : CircuitBreaker.t * nat :=
  let '(cb, inFlight) := s in
  match e with
  | Arrives now =>
      match enter now cb with
      | Some cb1 => (cb1, S inFlight)
      | None => (cb, inFlight)
      end
  | Settles now o =>
      match inFlight with
      | O => (cb, O)
      | S n => (leave o now cb, n)
      end
  | Resets => (reset cb, inFlight)
  | Opens now => (open now cb, inFlight)
  end.

Definition steps {T} (es : list (Event T)) (s : CircuitBreaker.t * nat)
  : CircuitBreaker.t * nat :=
  fold_left (fun s e => step e s) es s.

(** The snapshot returned by [getStats] agrees with the live fields. *)
Definition mirrors (cb : CircuitBreaker.t) : Prop :=
  Stats.state (stats cb) = state cb
  ∧ Stats.failureCount (stats cb) = failureCount cb
  ∧ Stats.successCount (stats cb) = successCount cb
  ∧ Stats.lastFailureTime (stats cb) = lastFailureTime cb
  ∧ Stats.lastSuccessTime (stats cb) = lastSuccessTime cb.

(** The cumulative counters with [inFlight] calls under way: every request
    counted has succeeded, has failed or is under way, and no counter is
    negative. *)
Definition balanced (s : CircuitBreaker.t * nat) : Prop :=
  Stats.totalRequests (stats s.1)
  = Stats.totalSuccesses (stats s.1) + Stats.totalFailures (stats s.1)
    + Z.of_nat s.2
  ∧ 0 <= Stats.totalSuccesses (stats s.1)
  ∧ 0 <= Stats.totalFailures (stats s.1).

(** [openaiCircuitBreaker], the breaker in front of the OpenAI API. *)
Definition openaiCircuitBreaker : CircuitBreaker.t :=
  new (mkPartial (Some 5) (Some 60000) (Some 2) (Some 30000) (Some true)).





End BreakerUse.

(** ** IP-level login limiter *)

Module IpRateLimit.

(** The values of [ipLoginAttempts]. *)
Record Attempts := mkAttempts { count : Z; resetTime : Z }.

Module Result.
Record t := mk { allowed : bool; remainingAttempts : Z; resetTime : Z }.
End Result.

Abbreviation Store := (gmap string Attempts).

Definition windowMs : Z := 15 * 60 * 1000.
Definition maxAttempts : Z := 10.

Definition checkIpRateLimit (ip : string) (now : Z) (m : Store)
  : Result.t * Store :=
  let fresh :=
    (Result.mk true (maxAttempts - 1) (now + windowMs),
     <[ip := mkAttempts 1 (now + windowMs)]> m) in
  match m !! ip with
  | None => fresh
  | Some attempts =>
      if resetTime attempts <? now then fresh
      else
        let newCount := count attempts + 1 in
        (Result.mk (newCount <=? maxAttempts)
           (Z.max 0 (maxAttempts - newCount)) (resetTime attempts),
         <[ip := mkAttempts newCount (resetTime attempts)]> m)
  end.

Definition resetIpRateLimit (ip : string) (m : Store) : Store := delete ip m.

Definition cleanupIpRateLimits (now : Z) (m : Store) : Store :=
  filter (fun kv => ¬ (resetTime kv.2 < now)) m.

Fixpoint checkIpRateLimitAll (ip : string) (times : list Z) (m : Store)
  : list Result.t * Store :=
  match times with
  | [] => ([], m)
  | now :: rest =>
      let '(r, m1) := checkIpRateLimit ip now m in
      let '(rs, m2) := checkIpRateLimitAll ip rest m1 in
      (r :: rs, m2)
  end.

End IpRateLimit.

(** ** The shared cache and its helpers *)

Module CacheApi.
Import Js InMemoryCache.

Section Api.
Context {V : Type}.

(** The operations of the cache, the periodic sweep included. *)
Inductive Request :=
| DoGet (key : string) (now : Z)
| DoSet (key : string) (v : V) (ttl : option Z) (now : Z)
| DoDelete (key : string)
| DoHas (key : string) (now : Z)
| DoClear
| DoSweep (now : Z).

Definition serve (r : Request) (c : InMemoryCache.t V) : InMemoryCache.t V :=
  match r with
  | DoGet key now => (get key now c).2
  | DoSet key v ttl now => set key v ttl now c
  | DoDelete key => (delete key c).2
  | DoHas key now => (has key now c).2
  | DoClear => clear c
  | DoSweep now => sweep now c
  end.

Definition serveAll (rs : list Request) (c : InMemoryCache.t V)
  : InMemoryCache.t V :=
  fold_left (fun c r => serve r c) rs c.

Definition isGet (r : Request) : bool :=
  match r with DoGet _ _ => true | _ => false end.

(** The key written by a request, if it writes one. *)
Definition writtenKey (r : Request) : option string :=
  match r with DoSet key _ _ _ => Some key | _ => None end.

(** The exported helpers; each works on the one shared cache. *)
Definition cacheUserProfile (userId : string) (data : V) (ttl : option Z)
    (now : Z) (c : InMemoryCache.t V) : InMemoryCache.t V :=
  set ("user:" +:+ userId) data ttl now c.

Definition getCachedUserProfile (userId : string) (now : Z)
    (c : InMemoryCache.t V) : option V * InMemoryCache.t V :=
  get ("user:" +:+ userId) now c.

Definition cacheUserLinks (userId : string) (links : V) (ttl : option Z)
    (now : Z) (c : InMemoryCache.t V) : InMemoryCache.t V :=
  set ("links:" +:+ userId) links ttl now c.

Definition getCachedUserLinks (userId : string) (now : Z)
    (c : InMemoryCache.t V) : option V * InMemoryCache.t V :=
  get ("links:" +:+ userId) now c.

Definition cachePublicPage (username : string) (data : V) (ttl : option Z)
    (now : Z) (c : InMemoryCache.t V) : InMemoryCache.t V :=
  set ("public:" +:+ username) data ttl now c.

Definition getCachedPublicPage (username : string) (now : Z)
    (c : InMemoryCache.t V) : option V * InMemoryCache.t V :=
  get ("public:" +:+ username) now c.

Definition invalidateUserCache (userId : string) (c : InMemoryCache.t V)
  : InMemoryCache.t V :=
  (delete ("links:" +:+ userId) (delete ("user:" +:+ userId) c).2).2.

Definition invalidatePublicPageCache (username : string)
    (c : InMemoryCache.t V) : InMemoryCache.t V :=
  (delete ("public:" +:+ username) c).2.

Definition getCacheStats (c : InMemoryCache.t V) : CacheStats := getStats c.

Definition clearCache (c : InMemoryCache.t V) : InMemoryCache.t V := clear c.

(** A call of a method wrapped by [cached(keyPrefix, ttl)]. [argsJson] is
    [JSON.stringify(args)], [isNull] tells the value [null] from the others.
    The answer is the outcome, the time it is there, the cache and the world
    afterwards; there is none when the wrapped method never settles. *)
Definition cachedCall {W : Type} (isNull : V -> bool)
    (keyPrefix : string) (ttl : option Z) (originalMethod : Op W V)
    (argsJson : string) (now : Z) (c : InMemoryCache.t V) (w : W)
  : option (Outcome V * Z * InMemoryCache.t V * W) :=
  let cacheKey := keyPrefix +:+ ":" +:+ argsJson +:+ "}" in
  let '(cached, c1) := get cacheKey now c in
  let call :=
    let '(p, w') := originalMethod w in
    match p with
    | SettlesAfter d (Fulfilled result) =>
        Some (Fulfilled result, now + d,
              set cacheKey result ttl (now + d) c1, w')
    | SettlesAfter d (Thrown e) => Some (Thrown e, now + d, c1, w')
    | NeverSettles => None
    end in
  match cached with
  | Some v => if isNull v then call else Some (Fulfilled v, now, c1, w)
  | None => call
  end.
End Api.

Arguments Request V : clear implicits.
Arguments DoGet {V} key now.
Arguments DoSet {V} key v ttl now.
Arguments DoDelete {V} key.
Arguments DoHas {V} key now.
Arguments DoClear {V}.
Arguments DoSweep {V} now.

End CacheApi.

(** ** Users of the lockout tracker *)

Module LockoutUse.
Import Js AccountLockout.

(** The three entry points of the tracker, as calls on the table. *)
Inductive Call :=
| CheckStatus (email : string) (now : Z)
| RecordFailure (email : string) (now : Z)
| RecordSuccess (email : string).

Definition subject (call : Call) : string :=
  match call with
  | CheckStatus email _ | RecordFailure email _ | RecordSuccess email => email
  end.

Definition apply (call : Call) (db : Db) : Db :=
  match call with
  | CheckStatus email now => (checkAccountLockout email now db).2
  | RecordFailure email now => (recordFailedLoginAttempt email now db).2
  | RecordSuccess email => (resetFailedLoginAttempts email db).2
  end.

Definition applyAll (calls : list Call) (db : Db) : Db :=
  fold_left (fun db call => apply call db) calls db.

(** A row as the tracker leaves it: the count is not negative, and a lockout
    date is only there with at least [maxAttempts] failures counted. *)
Definition wellFormed (u : User.t) : Prop :=
  0 <= User.failedLoginAttempts u
  ∧ (User.lockoutUntil u ≠ None ->
     Config.maxAttempts ACCOUNT_LOCKOUT_CONFIG <= User.failedLoginAttempts u).

(** [getTimeRemaining]; numbers are printed in decimal. *)
Definition getTimeRemaining (lockoutUntil now : Z) : string :=
  let remaining := lockoutUntil - now in
  if remaining <=? 0 then "0 minutes"
  else
    let minutes := remaining / (60 * 1000) in
    let seconds := (remaining mod (60 * 1000)) / 1000 in
    if 0 <? minutes
    then pretty minutes +:+ " minute" +:+ (if minutes =? 1 then "" else "s")
    else pretty seconds +:+ " second" +:+ (if seconds =? 1 then "" else "s").

End LockoutUse.

(** ** Credentials login *)

Module Auth.
Import Js AccountLockout LockoutUse.

Section Authorize.
(** [C] is what the login form submits, [P] the columns of the user row that
    are handed to the session (id, email, name, username, image,
    emailVerified). [parse] is the validation of the submitted credentials
    (email and password on success), [compare] is [bcrypt.compare]. *)
Context {C P : Type}.
Variable parse : C -> option (string * string).
Variable compare : string -> string -> bool.

(** The columns selected by [authorize]. *)
Record Account := mkAccount {
  profile : P;
  password : option string;
  emailVerifiedAt : option Z
}.

(** The row without its password. *)
Record SessionUser := mkSessionUser {
  user : P;
  verifiedAt : option Z
}.

Definition lockedMessage (prefix : string) (lockoutUntil : option Z) (now : Z)
  : Outcome (option SessionUser) :=
  match lockoutUntil with
  | Some t =>
      Thrown (mkError "Error"
                (prefix +:+ getTimeRemaining t now +:+ "."))
  | None =>
      Thrown (mkError "TypeError"
                "Cannot read properties of null (reading 'getTime')")
  end.

(** [authorize]. The user table is seen through two maps keyed by email: the
    lockout columns [db], which the tracker reads and writes, and the
    columns read here, [accounts]. *)
Definition authorize (credentials : C) (now : Z) (db : Db)
    (accounts : gmap string Account) : Outcome (option SessionUser) * Db :=
  match parse credentials with
  | None => (Fulfilled None, db)
  | Some (email, pw) =>
      match checkAccountLockout email now db with
      | (Thrown e, db1) => (Thrown e, db1)
      | (Fulfilled lockoutStatus, db1) =>
          if isLocked lockoutStatus then
            (lockedMessage "Account locked. Please try again in "
               (lockoutUntil lockoutStatus) now, db1)
          else
            match accounts !! email with
            | None =>
                match recordFailedLoginAttempt email now db1 with
                | (Thrown e, db2) => (Thrown e, db2)
                | (Fulfilled _, db2) => (Fulfilled None, db2)
                end
            | Some account =>
                match emailVerifiedAt account with
                | None =>
                    (Thrown (mkError "Error"
                               "Please verify your email before logging in."),
                     db1)
                | Some verified =>
                    if compare pw (default "" (password account)) then
                      match resetFailedLoginAttempts email db1 with
                      | (Thrown e, db2) => (Thrown e, db2)
                      | (Fulfilled _, db2) =>
                          (Fulfilled
                             (Some (mkSessionUser (profile account)
                                      (Some verified))),
                           db2)
                      end
                    else
                      match recordFailedLoginAttempt email now db1 with
                      | (Thrown e, db2) => (Thrown e, db2)
                      | (Fulfilled newLockoutStatus, db2) =>
                          if isLocked newLockoutStatus then
                            (lockedMessage
                               "Account locked due to too many failed attempts. Please try again in "
                               (lockoutUntil newLockoutStatus) now, db2)
                          else (Fulfilled None, db2)
                      end
                end
            end
      end
  end.

(** [authorize] with the clock read where the source reads it. A login
    waits for the user table several times, and time passes while it waits.
    [checked] is the reading made by [checkAccountLockout], and by the
    message that is formed right after it; [recorded] is the reading from
    which [recordFailedLoginAttempt] computes the lockout date, before it
    writes the row; [answered] is the reading of [getTimeRemaining] for the
    message that is formed once the row is written. *)
Definition authorizeAt (credentials : C) (checked recorded answered : Z)
    (db : Db) (accounts : gmap string Account)
  : Outcome (option SessionUser) * Db :=
  match parse credentials with
  | None => (Fulfilled None, db)
  | Some (email, pw) =>
      match checkAccountLockout email checked db with
      | (Thrown e, db1) => (Thrown e, db1)
      | (Fulfilled lockoutStatus, db1) =>
          if isLocked lockoutStatus then
            (lockedMessage "Account locked. Please try again in "
               (lockoutUntil lockoutStatus) checked, db1)
          else
            match accounts !! email with
            | None =>
                match recordFailedLoginAttempt email recorded db1 with
                | (Thrown e, db2) => (Thrown e, db2)
                | (Fulfilled _, db2) => (Fulfilled None, db2)
                end
            | Some account =>
                match emailVerifiedAt account with
                | None =>
                    (Thrown (mkError "Error"
                               "Please verify your email before logging in."),
                     db1)
                | Some verified =>
                    if compare pw (default "" (password account)) then
                      match resetFailedLoginAttempts email db1 with
                      | (Thrown e, db2) => (Thrown e, db2)
                      | (Fulfilled _, db2) =>
                          (Fulfilled
                             (Some (mkSessionUser (profile account)
                                      (Some verified))),
                           db2)
                      end
                    else
                      match recordFailedLoginAttempt email recorded db1 with
                      | (Thrown e, db2) => (Thrown e, db2)
                      | (Fulfilled newLockoutStatus, db2) =>
                          if isLocked newLockoutStatus then
                            (lockedMessage
                               "Account locked due to too many failed attempts. Please try again in "
                               (lockoutUntil newLockoutStatus) answered, db2)
                          else (Fulfilled None, db2)
                      end
                end
            end
      end
  end.
End Authorize.

Arguments Account P : clear implicits.
Arguments SessionUser P : clear implicits.
Arguments mkAccount {P} profile password emailVerifiedAt.
Arguments mkSessionUser {P} user verifiedAt.
Arguments profile {P}.
Arguments password {P}.
Arguments emailVerifiedAt {P}.

End Auth.

(** ** Shutdown on a signal *)

Module ShutdownUse.
Import Js ShutdownManager.

(** How a call of [handleShutdown] ends: the process exits with a code, the
    call returns because a shutdown is already under way, or it waits for
    ever for the logs to be flushed. *)
Inductive Ending := Exits (code : Z) | Returns | Hangs.

(** [handleShutdown], with [flushLogs] the log flush of the logger. *)
Definition handleShutdown {W : Type} (flushLogs : Op W unit)
    (signal : string) (now : Z) (w : W) (m : ShutdownManager.t W)
  : Ending * ShutdownManager.t W * W :=
  if isShuttingDown m then (Returns, m, w)
  else
    let m1 := ShutdownManager.mk (handlers m) true (defaultTimeout m) in
    let '(_, _, w1) := executeHandlers signal now w m1 in
    let '(p, w2) := flushLogs w1 in
    match p with
    | SettlesAfter _ (Fulfilled _) => (Exits 0, m1, w2)
    | SettlesAfter _ (Thrown _) => (Exits 1, m1, w2)
    | NeverSettles => (Hangs, m1, w2)
    end.

End ShutdownUse.

(** ** The cache with JavaScript numbers for the times of expiry *)

(** A TTL is a JavaScript number, and so is the time of expiry computed from
    it: besides the integers of the module [InMemoryCache] it may be
    [Infinity], [-Infinity] or [NaN]. *)
Module JsNumber.

Inductive t := Int (z : Z) | Infinity | NegInfinity | NaN.

(** [now + x] for an integer [now]. *)
Definition plus (now : Z) (x : t) : t :=
  match x with
  | Int z => Int (now + z)
  | Infinity => Infinity
  | NegInfinity => NegInfinity
  | NaN => NaN
  end.

(** [x * 1000]. *)
Definition times1000 (x : t) : t :=
  match x with
  | Int z => Int (z * 1000)
  | Infinity => Infinity
  | NegInfinity => NegInfinity
  | NaN => NaN
  end.

(** [a < b]; every comparison with [NaN] is false. *)
Definition lt (a b : t) : bool :=
  match a, b with
  | Int x, Int y => x <? y
  | Int _, Infinity => true
  | NegInfinity, Int _ => true
  | NegInfinity, Infinity => true
  | _, _ => false
  end.

(** [x || d] where [x] may be [undefined]: [0] and [NaN] are falsy. *)
Definition orElse (x : option t) (d : t) : t :=
  match x with
  | None => d
  | Some (Int z) => if z =? 0 then d else Int z
  | Some NaN => d
  | Some Infinity => Infinity
  | Some NegInfinity => NegInfinity
  end.

End JsNumber.

(** The class [InMemoryCache] once more, with these numbers for the TTLs and
    the times of expiry. The clock and [maxSize] are integers. *)
Module InMemoryCacheJs.
Import InMemoryCache.

Record CacheEntry (V : Type) := mkEntry { value : V; expiresAt : JsNumber.t }.
Arguments mkEntry {V}.
Arguments value {V}.
Arguments expiresAt {V}.

Record t (V : Type) := mk {
  cache : list (string * CacheEntry V);
  stats : CacheStats;
  defaultTTL : JsNumber.t;
  maxSize : Z
}.
Arguments mk {V}.
Arguments cache {V}.
Arguments stats {V}.
Arguments defaultTTL {V}.
Arguments maxSize {V}.

Section Cache.
Context {V : Type}.

(** [Date.now() > entry.expiresAt]. *)
Definition expired (entry : CacheEntry V) (now : Z) : bool :=
  JsNumber.lt (expiresAt entry) (JsNumber.Int now).

Definition new (defaultTTL : JsNumber.t) (maxSize : Z) : t V :=
  {| cache := [];
     stats := mkStats 0 0 0;
     defaultTTL := JsNumber.times1000 defaultTTL;
     maxSize := maxSize |}.

Definition get (key : string) (now : Z) (c : t V) : option V * t V :=
  match mapGet key (cache c) with
  | None =>
      (None,
       mk (cache c)
         (mkStats (hits (stats c)) (misses (stats c) + 1) (size (stats c)))
         (defaultTTL c) (maxSize c))
  | Some entry =>
      if expired entry now then
        let cache' := mapDelete key (cache c) in
        (None,
         mk cache'
           (mkStats (hits (stats c)) (misses (stats c) + 1) (mapSize cache'))
           (defaultTTL c) (maxSize c))
      else
        (Some (value entry),
         mk (cache c)
           (mkStats (hits (stats c) + 1) (misses (stats c)) (size (stats c)))
           (defaultTTL c) (maxSize c))
  end.

(** The loop of [evictOldest]; [oldestTime] starts as [Infinity]. *)
Fixpoint findOldest (entries : list (string * CacheEntry V))
    (oldestKey : option string) (oldestTime : JsNumber.t) : option string :=
  match entries with
  | [] => oldestKey
  | (key, entry) :: rest =>
      if JsNumber.lt (expiresAt entry) oldestTime
      then findOldest rest (Some key) (expiresAt entry)
      else findOldest rest oldestKey oldestTime
  end.

(** [if (oldestKey)] is a truthiness test: [null] and the empty string
    both fail it. *)
Definition evictOldest (m : list (string * CacheEntry V))
  : list (string * CacheEntry V) :=
  match findOldest m None JsNumber.Infinity with
  | Some k => if String.eqb k "" then m else mapDelete k m
  | None => m
  end.

Definition set (key : string) (v : V) (ttl : option JsNumber.t) (now : Z)
    (c : t V) : t V :=
  let expiresAt := JsNumber.plus now (JsNumber.orElse ttl (defaultTTL c)) in
  let cache1 :=
    if (maxSize c <=? mapSize (cache c)) && negb (mapHas key (cache c))
    then evictOldest (cache c) else cache c in
  let cache2 := mapSet key (mkEntry v expiresAt) cache1 in
  mk cache2
    (mkStats (hits (stats c)) (misses (stats c)) (mapSize cache2))
    (defaultTTL c) (maxSize c).

Definition delete (key : string) (c : t V) : bool * t V :=
  let cache' := mapDelete key (cache c) in
  (mapHas key (cache c),
   mk cache'
     (mkStats (hits (stats c)) (misses (stats c)) (mapSize cache'))
     (defaultTTL c) (maxSize c)).

Definition has (key : string) (now : Z) (c : t V) : bool * t V :=
  match mapGet key (cache c) with
  | None => (false, c)
  | Some entry =>
      if expired entry now then
        let cache' := mapDelete key (cache c) in
        (false,
         mk cache'
           (mkStats (hits (stats c)) (misses (stats c)) (mapSize cache'))
           (defaultTTL c) (maxSize c))
      else (true, c)
  end.

Definition clear (c : t V) : t V :=
  mk [] (mkStats (hits (stats c)) (misses (stats c)) 0)
    (defaultTTL c) (maxSize c).

Definition getStats (c : t V) : CacheStats := stats c.

(** The periodic sweep started by the constructor. *)
Definition sweep (now : Z) (c : t V) : t V :=
  let cache' := List.filter (fun kv => negb (expired (snd kv) now)) (cache c) in
  mk cache'
    (mkStats (hits (stats c)) (misses (stats c)) (mapSize cache'))
    (defaultTTL c) (maxSize c).

(** The operations of the cache, the periodic sweep included. *)
Inductive Request :=
| DoGet (key : string) (now : Z)
| DoSet (key : string) (v : V) (ttl : option JsNumber.t) (now : Z)
| DoDelete (key : string)
| DoHas (key : string) (now : Z)
| DoClear
| DoSweep (now : Z).

Definition serve (r : Request) (c : t V) : t V :=
  match r with
  | DoGet key now => (get key now c).2
  | DoSet key v ttl now => set key v ttl now c
  | DoDelete key => (delete key c).2
  | DoHas key now => (has key now c).2
  | DoClear => clear c
  | DoSweep now => sweep now c
  end.

Definition serveAll (rs : list Request) (c : t V) : t V :=
  fold_left (fun c r => serve r c) rs c.

(** The key written by a request, if it writes one. *)
Definition writtenKey (r : Request) : option string :=
  match r with DoSet key _ _ _ => Some key | _ => None end.


(** An entry that [evictOldest] never picks: its time of expiry is not below
    [Infinity], that is, it is [Infinity] or [NaN]. *)
Definition neverPicked (x : string * CacheEntry V) : Prop :=
  JsNumber.lt (expiresAt x.2) JsNumber.Infinity = false.

(** The caches and requests of the modules [InMemoryCache] and [CacheApi],
    where every time is an integer, as caches and requests of this module. *)
Definition ofEntry (e : InMemoryCache.CacheEntry V) : CacheEntry V :=
  mkEntry (InMemoryCache.value e) (JsNumber.Int (InMemoryCache.expiresAt e)).

Definition ofEntries (m : list (string * InMemoryCache.CacheEntry V))
  : list (string * CacheEntry V) :=
  List.map (fun kv => (kv.1, ofEntry kv.2)) m.

Definition ofCache (c : InMemoryCache.t V) : t V :=
  mk (ofEntries (InMemoryCache.cache c)) (InMemoryCache.stats c)
    (JsNumber.Int (InMemoryCache.defaultTTL c)) (InMemoryCache.maxSize c).

Definition ofRequest (r : CacheApi.Request V) : Request :=
  match r with
  | CacheApi.DoGet key now => DoGet key now
  | CacheApi.DoSet key v ttl now =>
      DoSet key v (option_map JsNumber.Int ttl) now
  | CacheApi.DoDelete key => DoDelete key
  | CacheApi.DoHas key now => DoHas key now
  | CacheApi.DoClear => DoClear
  | CacheApi.DoSweep now => DoSweep now
  end.


(** [(k, e)] is, among the entries of [m] whose time of expiry is below
    [Infinity], the first one with the least such time. *)
Definition oldest (m pre : list (string * CacheEntry V)) (k : string)
    (e : CacheEntry V) (post : list (string * CacheEntry V)) : Prop :=
  m = pre ++ (k, e) :: post
  ∧ JsNumber.lt (expiresAt e) JsNumber.Infinity = true
  ∧ Forall (fun x => expiresAt x.2 = JsNumber.NaN
                     ∨ JsNumber.lt (expiresAt e) (expiresAt x.2) = true) pre
  ∧ Forall (fun x => JsNumber.lt (expiresAt x.2) (expiresAt e) = false) post.
End Cache.

Arguments Request V : clear implicits.
Arguments DoGet {V} key now.
Arguments DoSet {V} key v ttl now.
Arguments DoDelete {V} key.
Arguments DoHas {V} key now.
Arguments DoClear {V}.
Arguments DoSweep {V} now.

End InMemoryCacheJs.

(** * Properties *)

(** ** Circuit breaker *)

Section CircuitBreakerFacts.
Import Js CircuitBreaker.
Context {W T : Type}.
Implicit Types (cb : CircuitBreaker.t) (fn : Op W T) (w : W) (now : Z).

Lemma attempt_thrown fn now cb w d e :
  settle cb fn w = (d, Thrown e) ->
  attempt fn now cb w =
    mkExecution (Thrown e)
      (onFailure (now + d) (withStats (bumpRequests (stats cb)) cb))
      (fn w).2 (now + d) true.
Proof.
  unfold settle, attempt. destruct (fn w) as [p w']. cbn.
  intros ->. reflexivity.
Qed.

Lemma attempt_fulfilled fn now cb w d v :
  settle cb fn w = (d, Fulfilled v) ->
  attempt fn now cb w =
    mkExecution (Fulfilled v)
      (onSuccess (now + d) (withStats (bumpRequests (stats cb)) cb))
      (fn w).2 (now + d) true.
Proof.
  unfold settle, attempt. destruct (fn w) as [p w']. cbn.
  intros ->. reflexivity.
Qed.

Lemma attempt_invoked fn now cb w :
  invoked (attempt fn now cb w) = true
  ∧ world (attempt fn now cb w) = (fn w).2.
Proof.
  unfold attempt. destruct (fn w) as [p w']. cbn.
  destruct (raceTimeout p _ _) as [d [v|e]]; cbn; auto.
Qed.








(** While OPEN and before [nextAttemptTime]: rejected, nothing called,
    nothing changed. *)
Lemma open_rejects fn now cb w t :
  state cb = OPEN -> nextAttemptTime cb = Some t -> now < t ->
  execute fn now cb w =
    mkExecution (Thrown (CircuitBreakerOpenError "Circuit breaker is OPEN"))
      cb w now false.
Proof.
  intros Hst Hn Hlt. unfold execute. rewrite Hst, Hn. cbn. unfold orNum.
  assert ((now <? (if t =? 0 then 0 else t)) = true) as ->; [|reflexivity].
  destruct (Z.eqb_spec t 0); apply Z.ltb_lt; lia.
Qed.

(** While OPEN, at or after [nextAttemptTime]: the breaker turns HALF_OPEN
    and the call goes through. *)
Lemma open_probes fn now cb w t :
  state cb = OPEN -> nextAttemptTime cb = Some t -> t <= now ->
  execute fn now cb w = execute fn now (transitionToHalfOpen cb) w
  ∧ state (transitionToHalfOpen cb) = HALF_OPEN
  ∧ successCount (transitionToHalfOpen cb) = 0
  ∧ config (transitionToHalfOpen cb) = config cb
  ∧ invoked (execute fn now cb w) = true
  ∧ world (execute fn now cb w) = (fn w).2.
Proof.
  intros Hst Hn Hle. unfold execute. rewrite Hst, Hn. cbn. unfold orNum.
  assert ((now <? (if t =? 0 then 0 else t)) = false) as ->.
  { destruct (Z.eqb_spec t 0); apply Z.ltb_ge; lia. }
  repeat split; try reflexivity; apply attempt_invoked.
Qed.





End CircuitBreakerFacts.

Section CircuitBreakerLifecycle.
Import Js CircuitBreaker.
Context {W T : Type}.
Implicit Types (cb : CircuitBreaker.t) (fn : Op W T) (w : W) (now : Z).


(** C8, as the code has it. A call that is let through adds one to
    [totalRequests] and one to [totalSuccesses] or [totalFailures],
    whichever matches its outcome, and leaves the other as it was. A call
    is turned away exactly when the breaker is OPEN and the clock is before
    [nextAttemptTime]; such a call changes none of the three counters. *)
Theorem execute_cumulative_stats fn now cb w :
  let r := execute fn now cb w in
  let s := stats cb in
  let s' := stats (breaker r) in
  (invoked r = false <->
   state cb = OPEN ∧ now < orNumOpt (nextAttemptTime cb) 0)
  ∧ (invoked r = false ->
     outcome r = Thrown (CircuitBreakerOpenError "Circuit breaker is OPEN")
     ∧ Stats.totalRequests s' = Stats.totalRequests s
     ∧ Stats.totalSuccesses s' = Stats.totalSuccesses s
     ∧ Stats.totalFailures s' = Stats.totalFailures s)
  ∧ (invoked r = true ->
     Stats.totalRequests s' = Stats.totalRequests s + 1
     ∧ match outcome r with
       | Fulfilled _ =>
           Stats.totalSuccesses s' = Stats.totalSuccesses s + 1
           ∧ Stats.totalFailures s' = Stats.totalFailures s
       | Thrown _ =>
           Stats.totalFailures s' = Stats.totalFailures s + 1
           ∧ Stats.totalSuccesses s' = Stats.totalSuccesses s
       end).
Proof.
  assert (Hatt : forall cb1,
    stats cb1 = stats cb ->
    let r := attempt fn now cb1 w in
    invoked r = true
    ∧ Stats.totalRequests (stats (breaker r))
      = Stats.totalRequests (stats cb) + 1
    ∧ match outcome r with
      | Fulfilled _ =>
          Stats.totalSuccesses (stats (breaker r))
          = Stats.totalSuccesses (stats cb) + 1
          ∧ Stats.totalFailures (stats (breaker r))
            = Stats.totalFailures (stats cb)
      | Thrown _ =>
          Stats.totalFailures (stats (breaker r))
          = Stats.totalFailures (stats cb) + 1
          ∧ Stats.totalSuccesses (stats (breaker r))
            = Stats.totalSuccesses (stats cb)
      end).
  { intros cb1 Hs. unfold attempt. destruct (fn w) as [p w']. cbn.
    destruct (raceTimeout p _ _) as [d [v|e]]; cbn.
    - unfold onSuccess; cbn. rewrite Hs.
      destruct (state cb1); cbn; auto.
      destruct (_ <=? _); cbn; auto.
    - unfold onFailure; cbn. rewrite Hs.
      destruct (state cb1); cbn; auto.
      destruct (_ <=? _); cbn; auto. }
  cbn zeta. unfold execute.
  destruct (state cb) eqn:Hst.
  - destruct (Hatt cb eq_refl) as (Hi & Hr & Ho).
    split; [|split]; try (rewrite Hi; intros; discriminate).
    + rewrite Hi. split; [discriminate|]. intros [? _]. discriminate.
    + auto.
  - destruct (Z.ltb_spec now (orNumOpt (nextAttemptTime cb) 0)).
    + cbn. split; [|split]; [split; auto | auto | discriminate].
    + destruct (Hatt (transitionToHalfOpen cb) eq_refl) as (Hi & Hr & Ho).
      split; [|split]; try (rewrite Hi; intros; discriminate).
      * rewrite Hi. split; [discriminate|]. intros [_ ?]. lia.
      * auto.
  - destruct (Hatt cb eq_refl) as (Hi & Hr & Ho).
    split; [|split]; try (rewrite Hi; intros; discriminate).
    + rewrite Hi. split; [discriminate|]. intros [? _]. discriminate.
    + auto.
Qed.

End CircuitBreakerLifecycle.

(** The breaker of the test suite (3 failures open it, 1000 ms cool-down,
    2 successes close it) on a world that counts the calls of the operation:
    three failures, a call that is turned away, a failed trial call after the
    cool-down, then two successes after the next cool-down. *)
Example circuit_breaker_scenario :
  let c := CircuitBreaker.mkPartial (Some 3) (Some 1000) (Some 2) (Some 5000)
             (Some false) in
  let err := Js.mkError "Error" "Test error" in
  let failFn : Js.Op nat string :=
    fun n => (Js.SettlesAfter 10 (Js.Thrown err), S n) in
  let okFn : Js.Op nat string :=
    fun n => (Js.SettlesAfter 10 (Js.Fulfilled "success"), S n) in
  let s3 := CircuitBreaker.executeAll [(0, failFn); (20, failFn); (40, failFn)]
              (CircuitBreaker.new c) 0%nat in
  let r4 := CircuitBreaker.execute failFn 60 s3.1 s3.2 in
  let r5 := CircuitBreaker.execute failFn 1150
              (CircuitBreaker.breaker r4) (CircuitBreaker.world r4) in
  let s7 := CircuitBreaker.executeAll [(2260, okFn); (2280, okFn)]
              (CircuitBreaker.breaker r5) (CircuitBreaker.world r5) in
  CircuitBreaker.state s3.1 = CircuitBreaker.OPEN
  ∧ CircuitBreaker.nextAttemptTime s3.1 = Some 1050
  ∧ s3.2 = 3%nat
  ∧ CircuitBreaker.outcome r4
    = Js.Thrown (CircuitBreaker.CircuitBreakerOpenError "Circuit breaker is OPEN")
  ∧ CircuitBreaker.world r4 = 3%nat
  ∧ CircuitBreaker.state (CircuitBreaker.breaker r5) = CircuitBreaker.OPEN
  ∧ CircuitBreaker.nextAttemptTime (CircuitBreaker.breaker r5) = Some 2160
  ∧ CircuitBreaker.world r5 = 4%nat
  ∧ CircuitBreaker.state s7.1 = CircuitBreaker.CLOSED
  ∧ CircuitBreaker.failureCount s7.1 = 0
  ∧ CircuitBreaker.successCount s7.1 = 0
  ∧ s7.2 = 6%nat.
Proof. cbv zeta. vm_compute. repeat split. Qed.


(** C8 fails as stated: a call turned away while the breaker is OPEN does not
    add to [totalRequests] (nor to the other two counters). *)
Lemma rejected_call_is_not_counted :
  ¬ (forall (fn : Js.Op nat unit) (now : Z) (cb : CircuitBreaker.t) (w : nat),
        let s := CircuitBreaker.stats cb in
        let s' := CircuitBreaker.stats
                    (CircuitBreaker.breaker (CircuitBreaker.execute fn now cb w)) in
        CircuitBreaker.Stats.totalRequests s'
        = CircuitBreaker.Stats.totalRequests s + 1
        ∧ (CircuitBreaker.Stats.totalSuccesses s'
           = CircuitBreaker.Stats.totalSuccesses s + 1
           ∨ CircuitBreaker.Stats.totalFailures s'
             = CircuitBreaker.Stats.totalFailures s + 1)).
Proof.
  intros H.
  specialize (H (fun n => (Js.NeverSettles, S n)) 10
                (CircuitBreaker.open 0
                   (CircuitBreaker.new
                      (CircuitBreaker.mkPartial None None None None None)))
                0%nat).
  vm_compute in H. destruct H as [H _]. discriminate H.
Qed.

(** ** Rate limiter *)

Section RateLimiterFacts.
Import RateLimiter.
Implicit Types (store : gmap string RateLimitEntry) (identifier : string).

(** No entry, or an entry whose [resetTime] has passed: a new window
    starts. *)
Lemma check_fresh identifier maxRequests windowMs now store :
  (store !! identifier = None
   ∨ ∃ e, store !! identifier = Some e ∧ resetTime e < now) ->
  check identifier maxRequests windowMs now store
  = (Result.mk true (maxRequests - 1) (now + windowMs),
     <[identifier := mkEntry 1 (now + windowMs)]> store).
Proof.
  unfold check. intros [-> | (e & -> & Hlt)]; [reflexivity|].
  apply Z.ltb_lt in Hlt. rewrite Hlt. reflexivity.
Qed.

(** An entry whose [resetTime] has not passed: the call is counted in the
    running window. *)
Lemma check_live identifier maxRequests windowMs now store e :
  store !! identifier = Some e -> ¬ (resetTime e < now) ->
  check identifier maxRequests windowMs now store
  = (Result.mk (count e + 1 <=? maxRequests)
       (Z.max 0 (maxRequests - (count e + 1))) (resetTime e),
     <[identifier := mkEntry (count e + 1) (resetTime e)]> store).
Proof.
  unfold check. intros -> Hge.
  assert ((resetTime e <? now) = false) as -> by (apply Z.ltb_ge; lia).
  reflexivity.
Qed.

(** Calls that all fall into the running window of [e]: the [i]-th of them
    (from 0) is the call number [count e + i + 1] of that window. *)
Lemma checkAll_live identifier maxRequests windowMs (times : list Z) :
  forall store e,
    store !! identifier = Some e ->
    Forall (fun now => ¬ (resetTime e < now)) times ->
    forall (i : nat) r,
      (checkAll identifier maxRequests windowMs times store).1 !! i = Some r ->
      r = Result.mk (count e + Z.of_nat i + 1 <=? maxRequests)
            (Z.max 0 (maxRequests - (count e + Z.of_nat i + 1)))
            (resetTime e).
Proof.
  induction times as [|now rest IH]; intros store e He Hall i r Hi.
  - cbn in Hi. discriminate.
  - inversion Hall as [|? ? Hnow Hrest]; subst.
    cbn [checkAll] in Hi.
    rewrite (check_live _ _ _ _ _ _ He Hnow) in Hi.
    destruct (checkAll identifier maxRequests windowMs rest
                (<[identifier := mkEntry (count e + 1) (resetTime e)]> store))
      as [rs store2] eqn:Hrs.
    cbn in Hi. destruct i as [|i].
    + cbn in Hi. inversion Hi; subst. f_equal; f_equal; lia.
    + cbn in Hi.
      specialize (IH (<[identifier := mkEntry (count e + 1) (resetTime e)]> store)
                    (mkEntry (count e + 1) (resetTime e))).
      rewrite Hrs in IH. cbn in IH.
      rewrite (IH (lookup_insert_eq _ _ _) Hrest i r Hi).
      f_equal; f_equal; lia.
Qed.

(** A burst that opens a window at [now] and stays inside it: the first call
    is let through whatever the limit, and call number [k >= 2] is let
    through exactly when [k <= maxRequests]. *)
Lemma checkAll_window identifier maxRequests windowMs now (times : list Z) store :
  (store !! identifier = None
   ∨ ∃ e, store !! identifier = Some e ∧ resetTime e < now) ->
  Forall (fun t => ¬ (now + windowMs < t)) times ->
  forall (i : nat) r,
    (checkAll identifier maxRequests windowMs (now :: times) store).1 !! i
    = Some r ->
    r = match i with
        | O => Result.mk true (maxRequests - 1) (now + windowMs)
        | S _ => Result.mk (Z.of_nat i + 1 <=? maxRequests)
                   (Z.max 0 (maxRequests - (Z.of_nat i + 1)))
                   (now + windowMs)
        end.
Proof.
  intros Hfresh Hall i r Hi. cbn [checkAll] in Hi.
  rewrite (check_fresh _ _ _ _ _ Hfresh) in Hi.
  destruct (checkAll identifier maxRequests windowMs times
              (<[identifier := mkEntry 1 (now + windowMs)]> store))
    as [rs store2] eqn:Hrs.
  cbn in Hi. destruct i as [|i]; cbn in Hi.
  - inversion Hi. reflexivity.
  - pose proof (checkAll_live identifier maxRequests windowMs times
                  (<[identifier := mkEntry 1 (now + windowMs)]> store)
                  (mkEntry 1 (now + windowMs))
                  (lookup_insert_eq _ _ _) Hall i r) as H.
    rewrite Hrs in H. cbn in H. rewrite (H Hi).
    f_equal; f_equal; lia.
Qed.

(** C2, as the code has it. One call: with no entry, or an entry whose
    [resetTime] has passed, [check] stores [{count: 1, resetTime: now +
    windowMs}] and answers success with [remaining = maxRequests - 1];
    otherwise it stores the entry with its count increased by one, answers
    success exactly when the new count is at most [maxRequests], with
    [remaining = max(0, maxRequests - count)] and the entry's [resetTime].
    A burst: when [maxRequests] is at least 1, of the calls for one
    identifier that open a window and stay inside it exactly the first
    [maxRequests] succeed, and call number [maxRequests + 1] fails with
    [remaining = 0]. *)
Theorem rate_limiter_check identifier maxRequests windowMs now store :
  ((store !! identifier = None
    ∨ ∃ e, store !! identifier = Some e ∧ resetTime e < now) ->
   check identifier maxRequests windowMs now store
   = (Result.mk true (maxRequests - 1) (now + windowMs),
      <[identifier := mkEntry 1 (now + windowMs)]> store))
  ∧ (forall e,
      store !! identifier = Some e -> ¬ (resetTime e < now) ->
      check identifier maxRequests windowMs now store
      = (Result.mk (count e + 1 <=? maxRequests)
           (Z.max 0 (maxRequests - (count e + 1))) (resetTime e),
         <[identifier := mkEntry (count e + 1) (resetTime e)]> store))
  ∧ (1 <= maxRequests ->
     forall times : list Z,
      (store !! identifier = None
       ∨ ∃ e, store !! identifier = Some e ∧ resetTime e < now) ->
      Forall (fun t => ¬ (now + windowMs < t)) times ->
      forall (i : nat) r,
        (checkAll identifier maxRequests windowMs (now :: times) store).1 !! i
        = Some r ->
        (Result.success r = true <-> Z.of_nat i + 1 <= maxRequests)
        ∧ (Z.of_nat i + 1 = maxRequests + 1 ->
           Result.success r = false ∧ Result.remaining r = 0)).
Proof.
  split; [apply check_fresh|]. split; [intros e; apply check_live|].
  intros Hmax times Hfresh Hall i r Hi.
  rewrite (checkAll_window _ _ _ _ _ _ Hfresh Hall i r Hi).
  destruct i as [|i].
  - cbn. split; [split; [lia|reflexivity]|lia].
  - cbn [Result.success Result.remaining]. split.
    + rewrite Z.leb_le. reflexivity.
    + intros Heq. split; [apply Z.leb_gt; lia|lia].
Qed.

End RateLimiterFacts.

(** A limit of 5 calls per 1000 ms: five calls within the window succeed, the
    sixth fails with nothing remaining, and a call after the window has
    passed succeeds again with 4 remaining. *)
Example rate_limiter_scenario :
  (RateLimiter.checkAll "1.2.3.4" 5 1000 [0; 1; 2; 3; 4; 5; 1100]
     RateLimiter.new).1
  = [RateLimiter.Result.mk true 4 1000; RateLimiter.Result.mk true 3 1000;
     RateLimiter.Result.mk true 2 1000; RateLimiter.Result.mk true 1 1000;
     RateLimiter.Result.mk true 0 1000; RateLimiter.Result.mk false 0 1000;
     RateLimiter.Result.mk true 4 2100].
Proof. vm_compute. reflexivity. Qed.

Lemma rate_limiter_check_witness :
  1 <= 5
  ∧ forall (i : nat) r,
      (RateLimiter.checkAll "1.2.3.4" 5 1000 [0; 1; 2; 3; 4; 5]
         RateLimiter.new).1 !! i = Some r ->
      (RateLimiter.Result.success r = true <-> Z.of_nat i + 1 <= 5)
      ∧ (Z.of_nat i + 1 = 5 + 1 ->
         RateLimiter.Result.success r = false
         ∧ RateLimiter.Result.remaining r = 0).
Proof.
  assert (H : 1 <= 5) by lia.
  split; [exact H|].
  destruct (rate_limiter_check "1.2.3.4" 5 1000 0 RateLimiter.new)
    as (_ & _ & Hburst).
  apply (Hburst H [1; 2; 3; 4; 5]).
  - left. reflexivity.
  - repeat constructor; lia.
Defined.

(** C2 fails as stated when the limit is 0: the call that opens a window is
    let through whatever the limit, so one call succeeds where none should,
    and call number [maxRequests + 1] (the first) does not fail. *)
Lemma rate_limiter_zero_limit :
  ¬ (forall (identifier : string) (maxRequests windowMs now : Z)
        (times : list Z) (store : gmap string RateLimiter.RateLimitEntry),
        store !! identifier = None ->
        Forall (fun t => ¬ (now + windowMs < t)) times ->
        forall (i : nat) r,
          (RateLimiter.checkAll identifier maxRequests windowMs (now :: times)
             store).1 !! i = Some r ->
          (RateLimiter.Result.success r = true <-> Z.of_nat i + 1 <= maxRequests)
          ∧ (Z.of_nat i + 1 = maxRequests + 1 ->
             RateLimiter.Result.success r = false
             ∧ RateLimiter.Result.remaining r = 0)).
Proof.
  intros H.
  destruct (H "1.2.3.4" 0 1000 0 [] RateLimiter.new eq_refl ltac:(constructor)
              0%nat (RateLimiter.Result.mk true (-1) 1000) eq_refl)
    as [_ Hfail].
  destruct (Hfail eq_refl) as [Hs _]. discriminate Hs.
Qed.

(** ** In-memory cache *)

Section JsMapFacts.
Import InMemoryCache.
Context {V : Type}.
Implicit Types (m : list (string * V)) (k : string).

Lemma mapGet_None k m : mapGet k m = None <-> k ∉ m.*1.
Proof.
  induction m as [|[k' v] rest IH]; cbn.
  - split; [intros _; apply not_elem_of_nil|reflexivity].
  - rewrite not_elem_of_cons. destruct (String.eqb_spec k k') as [->|Hne].
    + split; [discriminate|]. intros [Hk _]. congruence.
    + rewrite IH. tauto.
Qed.

Lemma mapGet_mapSet_eq k v m : mapGet k (mapSet k v m) = Some v.
Proof.
  induction m as [|[k' v'] rest IH]; cbn.
  - rewrite String.eqb_refl. reflexivity.
  - destruct (String.eqb_spec k k') as [->|Hne]; cbn.
    + rewrite String.eqb_refl. reflexivity.
    + destruct (String.eqb_spec k k'); [congruence|exact IH].
Qed.

Lemma mapGet_mapSet_ne k k' v m :
  k ≠ k' -> mapGet k (mapSet k' v m) = mapGet k m.
Proof.
  intros Hne. induction m as [|[k0 v0] rest IH]; cbn.
  - destruct (String.eqb_spec k k'); [congruence|reflexivity].
  - destruct (String.eqb_spec k' k0) as [->|Hne']; cbn.
    + destruct (String.eqb_spec k k0); [congruence|reflexivity].
    + destruct (String.eqb_spec k k0); [reflexivity|exact IH].
Qed.

Lemma mapSet_keys_present k v m :
  k ∈ m.*1 -> (mapSet k v m).*1 = m.*1.
Proof.
  induction m as [|[k' v'] rest IH]; cbn; intros Hin.
  - apply elem_of_nil in Hin. contradiction.
  - destruct (String.eqb_spec k k') as [->|Hne]; cbn; [reflexivity|].
    apply elem_of_cons in Hin. destruct Hin as [?|Hin]; [congruence|].
    rewrite (IH Hin). reflexivity.
Qed.

Lemma mapSet_keys_absent k v m :
  k ∉ m.*1 -> mapSet k v m = m ++ [(k, v)].
Proof.
  induction m as [|[k' v'] rest IH]; cbn; intros Hin; [reflexivity|].
  apply not_elem_of_cons in Hin. destruct Hin as [Hne Hin].
  destruct (String.eqb_spec k k'); [congruence|].
  rewrite (IH Hin). reflexivity.
Qed.

Lemma mapDelete_absent k m : k ∉ m.*1 -> mapDelete k m = m.
Proof.
  induction m as [|[k' v'] rest IH]; cbn; intros Hin; [reflexivity|].
  apply not_elem_of_cons in Hin. destruct Hin as [Hne Hin].
  destruct (String.eqb_spec k k'); [congruence|].
  rewrite (IH Hin). reflexivity.
Qed.

(** Deleting the key of a binding of a map with distinct keys removes that
    binding and nothing else. *)
Lemma mapDelete_split k v (pre post : list (string * V)) :
  NoDup (pre ++ (k, v) :: post).*1 ->
  mapDelete k (pre ++ (k, v) :: post) = pre ++ post.
Proof.
  induction pre as [|[k' v'] pre IH]; cbn; intros Hnd.
  - rewrite String.eqb_refl. reflexivity.
  - apply NoDup_cons in Hnd. destruct Hnd as [Hnotin Hnd].
    destruct (String.eqb_spec k k') as [->|Hne].
    + exfalso. apply Hnotin. rewrite fmap_app. apply elem_of_app. right.
      cbn. apply elem_of_cons. left. reflexivity.
    + rewrite (IH Hnd). reflexivity.
Qed.

Lemma mapGet_mapDelete_eq k m :
  NoDup m.*1 -> mapGet k (mapDelete k m) = None.
Proof.
  induction m as [|[k' v'] rest IH]; cbn; intros Hnd; [reflexivity|].
  apply NoDup_cons in Hnd. destruct Hnd as [Hnotin Hnd].
  destruct (String.eqb_spec k k') as [->|Hne]; cbn.
  - apply mapGet_None. exact Hnotin.
  - destruct (String.eqb_spec k k'); [congruence|]. apply IH. exact Hnd.
Qed.

Lemma mapDelete_keys_sublist k m : sublist (mapDelete k m).*1 m.*1.
Proof.
  induction m as [|[k' v'] rest IH]; cbn; [constructor|].
  destruct (String.eqb k k'); cbn.
  - apply sublist_cons. reflexivity.
  - apply sublist_skip. exact IH.
Qed.

Lemma mapDelete_NoDup k m : NoDup m.*1 -> NoDup (mapDelete k m).*1.
Proof. intros Hnd. exact (sublist_NoDup _ _ Hnd (mapDelete_keys_sublist k m)). Qed.

Lemma mapSet_NoDup k v m : NoDup m.*1 -> NoDup (mapSet k v m).*1.
Proof.
  intros Hnd. destruct (decide (k ∈ m.*1)) as [Hin|Hin].
  - rewrite (mapSet_keys_present _ _ _ Hin). exact Hnd.
  - rewrite (mapSet_keys_absent _ _ _ Hin), fmap_app. cbn.
    apply NoDup_app. split; [exact Hnd|]. split.
    + intros x Hx Hx'. apply list_elem_of_singleton in Hx'. congruence.
    + apply NoDup_singleton.
Qed.

End JsMapFacts.

Section CacheFacts.
Import InMemoryCache.
Context {V : Type}.
Implicit Types (c : InMemoryCache.t V) (m : list (string * CacheEntry V)).

(** The loop of [evictOldest], started with a candidate [k0] whose expiry is
    [t0]: the candidate survives when no later entry expires strictly
    earlier; otherwise the loop ends on the first entry among those with the
    least expiry. *)
Lemma findOldest_from m :
  forall k0 t0,
    (Forall (fun x => t0 <= expiresAt x.2) m
     ∧ findOldest m (Some k0) (Some t0) = Some k0)
    ∨ (∃ pre k e post,
          m = pre ++ (k, e) :: post
          ∧ findOldest m (Some k0) (Some t0) = Some k
          ∧ expiresAt e < t0
          ∧ Forall (fun x => expiresAt e < expiresAt x.2) pre
          ∧ Forall (fun x => expiresAt e <= expiresAt x.2) post).
Proof.
  induction m as [|[k1 e1] rest IH]; intros k0 t0.
  - left. split; [constructor|reflexivity].
  - cbn [findOldest]. destruct (Z.ltb_spec (expiresAt e1) t0) as [Hlt|Hge].
    + right. destruct (IH k1 (expiresAt e1))
        as [[Hall Hres] | (pre & k & e & post & -> & Hres & Hlt' & Hpre & Hpost)].
      * exists [], k1, e1, rest.
        exact (conj eq_refl (conj Hres (conj Hlt (conj (Forall_nil_2 _) Hall)))).
      * exists ((k1, e1) :: pre), k, e, post.
        refine (conj eq_refl (conj Hres (conj _ (conj _ Hpost)))); [lia|].
        constructor; [exact Hlt'|exact Hpre].
    + destruct (IH k0 t0)
        as [[Hall Hres] | (pre & k & e & post & -> & Hres & Hlt' & Hpre & Hpost)].
      * left. split; [constructor; [exact Hge|exact Hall]|exact Hres].
      * right. exists ((k1, e1) :: pre), k, e, post.
        refine (conj eq_refl (conj Hres (conj Hlt' (conj _ Hpost)))).
        constructor; [cbn; lia|exact Hpre].
Qed.

(** [evictOldest] selects the entry with the least [expiresAt]; among several
    with the least value, the one inserted first. *)
Lemma findOldest_spec m :
  m ≠ [] ->
  ∃ pre k e post,
    m = pre ++ (k, e) :: post
    ∧ findOldest m None None = Some k
    ∧ Forall (fun x => expiresAt e < expiresAt x.2) pre
    ∧ Forall (fun x => expiresAt e <= expiresAt x.2) post.
Proof.
  destruct m as [|[k1 e1] rest]; [congruence|]. intros _.
  cbn [findOldest].
  destruct (findOldest_from rest k1 (expiresAt e1))
    as [[Hall Hres] | (pre & k & e & post & -> & Hres & Hlt' & Hpre & Hpost)].
  - exists [], k1, e1, rest.
    exact (conj eq_refl (conj Hres (conj (Forall_nil_2 _) Hall))).
  - exists ((k1, e1) :: pre), k, e, post.
    refine (conj eq_refl (conj Hres (conj _ Hpost))).
    constructor; [exact Hlt'|exact Hpre].
Qed.

Lemma mapHas_false key m : mapHas key m = false <-> key ∉ m.*1.
Proof.
  unfold mapHas. rewrite <- mapGet_None.
  destruct (mapGet key m); split; congruence.
Qed.

(** [set] with a key that is present: nothing is evicted, the keys and their
    order stay as they were, and the key is bound to the new entry. *)
Lemma set_present key v ttl now c :
  mapHas key (cache c) = true ->
  let c' := set key v ttl now c in
  cache c'
  = mapSet key (mkEntry v (now + Js.orNumOpt ttl (defaultTTL c))) (cache c)
  ∧ (cache c').*1 = (cache c).*1
  ∧ mapSize (cache c') = mapSize (cache c).
Proof.
  intros Hhas. unfold set. rewrite Hhas, andb_false_r. cbn.
  assert (Hin : key ∈ (cache c).*1).
  { destruct (decide (key ∈ (cache c).*1)) as [?|Hn]; [assumption|].
    apply mapHas_false in Hn. congruence. }
  pose proof (mapSet_keys_present key
                (mkEntry v (now + Js.orNumOpt ttl (defaultTTL c))) _ Hin) as Hk.
  repeat split; [exact Hk|].
  unfold mapSize. f_equal.
  rewrite <- (length_fmap fst), Hk, length_fmap. reflexivity.
Qed.

(** [set] with a new key on a cache that holds [maxSize >= 1] entries. The
    entry selected is the first one with the least expiry. When its key is
    not the empty string it is removed, every other entry stays, the new
    binding goes last and the size is [maxSize] again. *)
Lemma set_at_capacity key v ttl now c :
  NoDup (cache c).*1 ->
  1 <= maxSize c ->
  mapSize (cache c) = maxSize c ->
  mapHas key (cache c) = false ->
  ∃ pre k e post,
    cache c = pre ++ (k, e) :: post
    ∧ Forall (fun x => expiresAt e < expiresAt x.2) pre
    ∧ Forall (fun x => expiresAt e <= expiresAt x.2) post
    ∧ (k ≠ "" ->
       let c' := set key v ttl now c in
       cache c'
       = pre ++ post
           ++ [(key, mkEntry v (now + Js.orNumOpt ttl (defaultTTL c)))]
       ∧ mapSize (cache c') = maxSize c
       ∧ size (stats c') = maxSize c).
Proof.
  intros Hnd Hmax Hsize Hhas.
  assert (Hne : cache c ≠ []).
  { intros Hnil. rewrite Hnil in Hsize. unfold mapSize in Hsize.
    cbn [length] in Hsize. lia. }
  destruct (findOldest_spec (cache c) Hne)
    as (pre & k & e & post & Hc & Hres & Hpre & Hpost).
  exists pre, k, e, post.
  refine (conj Hc (conj Hpre (conj Hpost _))). intros Hk.
  assert (Hcache :
    cache (set key v ttl now c)
    = pre ++ post ++ [(key, mkEntry v (now + Js.orNumOpt ttl (defaultTTL c)))]).
  { unfold set. rewrite Hhas. cbn [negb].
    assert ((maxSize c <=? mapSize (cache c)) = true) as ->
      by (apply Z.leb_le; lia).
    cbn [andb]. unfold evictOldest. rewrite Hres.
    destruct (String.eqb_spec k ""); [congruence|]. cbn [cache].
    rewrite Hc. rewrite Hc in Hnd. rewrite (mapDelete_split _ _ _ _ Hnd).
    rewrite mapSet_keys_absent; [rewrite <- app_assoc; reflexivity|].
    apply mapHas_false in Hhas. rewrite Hc in Hhas.
    rewrite !fmap_app in *. cbn in Hhas. intros Hin. apply Hhas.
    apply elem_of_app in Hin. apply elem_of_app.
    destruct Hin as [?|?]; [left; assumption|right].
    apply elem_of_cons. right. assumption. }
  assert (Hlen : mapSize (cache (set key v ttl now c)) = maxSize c).
  { rewrite Hcache, <- Hsize, Hc. unfold mapSize.
    rewrite !length_app. cbn [length]. lia. }
  cbn zeta. refine (conj Hcache (conj Hlen _)).
  rewrite <- Hlen. reflexivity.
Qed.

End CacheFacts.

Section CacheRoundTrip.
Import InMemoryCache.
Context {V : Type}.
Implicit Types (c : InMemoryCache.t V) (m : list (string * CacheEntry V)).

Lemma evictOldest_NoDup m : NoDup m.*1 -> NoDup (evictOldest m).*1.
Proof.
  intros Hnd. unfold evictOldest.
  destruct (findOldest m None None) as [k|]; [|exact Hnd].
  destruct (String.eqb k ""); [exact Hnd|]. apply mapDelete_NoDup, Hnd.
Qed.

(** The keys of the map stay distinct under [set]. *)
Lemma set_NoDup key v ttl now c :
  NoDup (cache c).*1 -> NoDup (cache (set key v ttl now c)).*1.
Proof.
  intros Hnd. unfold set. cbn [cache]. apply mapSet_NoDup.
  destruct (_ && _); [apply evictOldest_NoDup, Hnd|exact Hnd].
Qed.

Lemma setAll_NoDup (items : list (string * V * Z)) :
  forall c, NoDup (cache c).*1 -> NoDup (cache (setAll items c)).*1.
Proof.
  induction items as [|[[key v] now] rest IH]; intros c Hnd; [exact Hnd|].
  cbn [setAll]. apply IH, set_NoDup, Hnd.
Qed.

(** What [get] answers right after [set], with the time to live that the
    code adds to the clock: the argument [ttl] as it is, a number of
    milliseconds, or [defaultTTL] when it is missing or 0. Up to and
    including the instant of expiry the value is returned and counted as a
    hit; later the call is a miss and the entry is deleted. *)
Lemma get_after_set key v ttl now now' c :
  NoDup (cache c).*1 ->
  let c1 := set key v ttl now c in
  let expires := now + Js.orNumOpt ttl (defaultTTL c) in
  (now' <= expires ->
   get key now' c1
   = (Some v,
      mk (cache c1)
        (mkStats (hits (stats c1) + 1) (misses (stats c1)) (size (stats c1)))
        (defaultTTL c1) (maxSize c1)))
  ∧ (expires < now' ->
     (get key now' c1).1 = None
     ∧ misses (stats (get key now' c1).2) = misses (stats c1) + 1
     ∧ hits (stats (get key now' c1).2) = hits (stats c1)
     ∧ cache (get key now' c1).2 = mapDelete key (cache c1)
     ∧ mapGet key (cache (get key now' c1).2) = None).
Proof.
  intros Hnd c1 expires.
  assert (Hget : mapGet key (cache c1) = Some (mkEntry v expires))
    by apply mapGet_mapSet_eq.
  split; intros Hcmp; unfold get; rewrite Hget; cbn [expiresAt value].
  - assert ((expires <? now') = false) as -> by (apply Z.ltb_ge; lia).
    reflexivity.
  - assert ((expires <? now') = true) as -> by (apply Z.ltb_lt; lia).
    cbn. repeat split.
    apply mapGet_mapDelete_eq. apply (set_NoDup key v ttl now c Hnd).
Qed.

End CacheRoundTrip.

(** C3 at the call the application makes, [cacheUserProfile(user.id, user,
    300) // Cache for 5 minutes]: one second after the entry was stored for
    300 seconds, [get] misses and deletes it, because [set] adds the argument
    to a clock that counts milliseconds. With the TTL left out, the default
    (given in seconds and converted by the constructor) is used and the same
    [get] hits. *)
Theorem cache_ttl_argument_is_milliseconds :
  let c0 : InMemoryCache.t string := InMemoryCache.new 300 1000 in
  let stored := InMemoryCache.set "user:42" "profile" (Some 300) 0 c0 in
  let defaulted := InMemoryCache.set "user:42" "profile" None 0 c0 in
  InMemoryCache.get "user:42" 1000 stored
  = (None,
     InMemoryCache.mk [] (InMemoryCache.mkStats 0 1 0) 300000 1000)
  ∧ (InMemoryCache.get "user:42" 1000 defaulted).1 = Some "profile".
Proof. vm_compute. split; reflexivity. Qed.

(** The scenario of C4: default TTL 5 s, room for 3 entries, keys A, B, C, D
    stored in this order without a TTL of their own while the clock does not
    run backwards. A is evicted, the size stays 3 and a later [get] of A is a
    miss. *)
Lemma cache_eviction_scenario {V : Type} (a b c d : V) (t1 t2 t3 t4 now : Z) :
  t1 <= t2 -> t1 <= t3 ->
  let c4 :=
    InMemoryCache.setAll [("A", a, t1); ("B", b, t2); ("C", c, t3); ("D", d, t4)]
      (InMemoryCache.new 5 3) in
  InMemoryCache.cache c4
  = [("B", InMemoryCache.mkEntry b (t2 + 5000));
     ("C", InMemoryCache.mkEntry c (t3 + 5000));
     ("D", InMemoryCache.mkEntry d (t4 + 5000))]
  ∧ InMemoryCache.size (InMemoryCache.stats c4) = 3
  ∧ (InMemoryCache.get "A" now c4).1 = None
  ∧ InMemoryCache.misses (InMemoryCache.stats (InMemoryCache.get "A" now c4).2)
    = 1.
Proof.
  intros H12 H13. cbv -[Z.add Z.ltb].
  assert ((t2 + 5000 <? t1 + 5000) = false) as -> by (apply Z.ltb_ge; lia).
  assert ((t3 + 5000 <? t1 + 5000) = false) as -> by (apply Z.ltb_ge; lia).
  cbv -[Z.add Z.ltb]. repeat split.
Qed.

(** C4 at a cache whose oldest entry has the empty string as its key: the
    cache holds [maxSize = 3] entries, D is new, and yet nothing is evicted;
    the cache then holds 4 entries. The key found by [evictOldest] is tested
    for truthiness, and the empty string is falsy. *)
Theorem cache_eviction_misses_empty_key :
  let c3 : InMemoryCache.t nat :=
    InMemoryCache.setAll [("", 1%nat, 0); ("B", 2%nat, 1); ("C", 3%nat, 2)]
      (InMemoryCache.new 5 3) in
  let c4 := InMemoryCache.set "D" 4%nat None 3 c3 in
  InMemoryCache.mapSize (InMemoryCache.cache c3) = InMemoryCache.maxSize c3
  ∧ InMemoryCache.mapHas "D" (InMemoryCache.cache c3) = false
  ∧ InMemoryCache.findOldest (InMemoryCache.cache c3) None None = Some ""
  ∧ (InMemoryCache.cache c4).*1 = [""; "B"; "C"; "D"]
  ∧ InMemoryCache.size (InMemoryCache.stats c4) = 4
  ∧ InMemoryCache.maxSize c4 = 3.
Proof. vm_compute. repeat split; reflexivity. Qed.

(** ** Account lockout *)

Section AccountLockoutFacts.
Import Js AccountLockout.
Implicit Types (db : gmap string User.t) (email : string) (now : Z).

Lemma orNum_zero x : orNum x 0 = x.
Proof. unfold orNum. destruct (Z.eqb_spec x 0); congruence. Qed.

(** What [recordFailedLoginAttempt] does for an account that exists. *)
Lemma recordFailedLoginAttempt_existing email now db u :
  db !! email = Some u ->
  let attempts := User.failedLoginAttempts u + 1 in
  let locks := Config.maxAttempts ACCOUNT_LOCKOUT_CONFIG <=? attempts in
  let duration :=
    Config.lockoutDuration ACCOUNT_LOCKOUT_CONFIG
    + (attempts - Config.maxAttempts ACCOUNT_LOCKOUT_CONFIG)
      * Config.incrementDuration ACCOUNT_LOCKOUT_CONFIG in
  recordFailedLoginAttempt email now db
  = (Fulfilled
       (mkStatus locks
          (Z.max 0 (Config.maxAttempts ACCOUNT_LOCKOUT_CONFIG - attempts))
          (if locks then Some (now + duration) else None)
          (if locks then duration else 0)),
     <[email := User.mk (User.id u) attempts
                  (if locks then Some (now + duration) else None)]> db).
Proof.
  intros Hu. unfold recordFailedLoginAttempt, findUnique, update.
  rewrite Hu, orNum_zero. cbn zeta.
  destruct (_ <=? _); reflexivity.
Qed.

(** C5. For an account that exists, a recorded failure that brings the
    stored count to [attempts >= maxAttempts] answers locked with no attempt
    remaining and [lockoutUntil = now + lockoutDuration + max(0, attempts -
    maxAttempts) * incrementDuration], and stores the count and that date; a
    further failure recorded after it lasts [incrementDuration] longer; and
    [resetFailedLoginAttempts] stores 0 attempts and no lockout date. *)
Theorem lockout_escalating_backoff email now now' db u :
  db !! email = Some u ->
  let attempts := User.failedLoginAttempts u + 1 in
  let duration :=
    Config.lockoutDuration ACCOUNT_LOCKOUT_CONFIG
    + Z.max 0 (attempts - Config.maxAttempts ACCOUNT_LOCKOUT_CONFIG)
      * Config.incrementDuration ACCOUNT_LOCKOUT_CONFIG in
  Config.maxAttempts ACCOUNT_LOCKOUT_CONFIG <= attempts ->
  let first := recordFailedLoginAttempt email now db in
  let second := recordFailedLoginAttempt email now' first.2 in
  first.1 = Fulfilled (mkStatus true 0 (Some (now + duration)) duration)
  ∧ first.2 !! email
    = Some (User.mk (User.id u) attempts (Some (now + duration)))
  ∧ second.1
    = Fulfilled
        (mkStatus true 0
           (Some (now' + (duration
                          + Config.incrementDuration ACCOUNT_LOCKOUT_CONFIG)))
           (duration + Config.incrementDuration ACCOUNT_LOCKOUT_CONFIG))
  ∧ (resetFailedLoginAttempts email second.2).1 = Fulfilled tt
  ∧ (resetFailedLoginAttempts email second.2).2 !! email
    = Some (User.mk (User.id u) 0 None)
  ∧ (resetFailedLoginAttempts email db).2 !! email
    = Some (User.mk (User.id u) 0 None).
Proof.
  intros Hu attempts duration Hlock first second.
  assert (Hfirst : first
    = (Fulfilled (mkStatus true 0 (Some (now + duration)) duration),
       <[email := User.mk (User.id u) attempts (Some (now + duration))]> db)).
  { unfold first. rewrite (recordFailedLoginAttempt_existing _ _ _ _ Hu).
    fold attempts. cbn zeta.
    assert ((Config.maxAttempts ACCOUNT_LOCKOUT_CONFIG <=? attempts) = true)
      as -> by (apply Z.leb_le; exact Hlock).
    unfold duration.
    assert (Z.max 0 (attempts - Config.maxAttempts ACCOUNT_LOCKOUT_CONFIG)
            = attempts - Config.maxAttempts ACCOUNT_LOCKOUT_CONFIG) as -> by lia.
    assert (Z.max 0 (Config.maxAttempts ACCOUNT_LOCKOUT_CONFIG - attempts) = 0)
      as -> by lia.
    reflexivity. }
  assert (Hsecond : second
    = (Fulfilled
         (mkStatus true 0
            (Some (now' + (duration
                           + Config.incrementDuration ACCOUNT_LOCKOUT_CONFIG)))
            (duration + Config.incrementDuration ACCOUNT_LOCKOUT_CONFIG)),
       <[email := User.mk (User.id u) (attempts + 1)
                    (Some (now' + (duration
                           + Config.incrementDuration ACCOUNT_LOCKOUT_CONFIG)))]>
         first.2)).
  { unfold second. rewrite Hfirst. cbn [snd].
    rewrite (recordFailedLoginAttempt_existing _ _ _ _ (lookup_insert_eq _ _ _)).
    cbn [User.failedLoginAttempts User.id].
    assert ((Config.maxAttempts ACCOUNT_LOCKOUT_CONFIG <=? attempts + 1) = true)
      as -> by (apply Z.leb_le; lia).
    unfold duration.
    assert (Z.max 0 (attempts - Config.maxAttempts ACCOUNT_LOCKOUT_CONFIG)
            = attempts - Config.maxAttempts ACCOUNT_LOCKOUT_CONFIG) as -> by lia.
    assert (Z.max 0 (Config.maxAttempts ACCOUNT_LOCKOUT_CONFIG - (attempts + 1))
            = 0) as -> by lia.
    assert (Config.lockoutDuration ACCOUNT_LOCKOUT_CONFIG
            + (attempts + 1 - Config.maxAttempts ACCOUNT_LOCKOUT_CONFIG)
              * Config.incrementDuration ACCOUNT_LOCKOUT_CONFIG
            = Config.lockoutDuration ACCOUNT_LOCKOUT_CONFIG
              + (attempts - Config.maxAttempts ACCOUNT_LOCKOUT_CONFIG)
                * Config.incrementDuration ACCOUNT_LOCKOUT_CONFIG
              + Config.incrementDuration ACCOUNT_LOCKOUT_CONFIG) as -> by ring.
    reflexivity. }
  rewrite Hsecond, Hfirst. cbn [fst snd].
  unfold resetFailedLoginAttempts, update.
  rewrite !lookup_insert_eq, Hu. cbn [fst snd User.id].
  rewrite !lookup_insert_eq. repeat split.
Qed.

Lemma recordFailedLoginAttempt_unknown email now db :
  db !! email = None ->
  recordFailedLoginAttempt email now db
  = (Fulfilled
       (mkStatus false (Config.maxAttempts ACCOUNT_LOCKOUT_CONFIG - 1) None 0),
     db).
Proof.
  intros Hnone. unfold recordFailedLoginAttempt, findUnique.
  rewrite Hnone. reflexivity.
Qed.

Lemma recordFailures_unknown email (times : list Z) db :
  db !! email = None ->
  recordFailures email times db
  = (List.map
       (fun _ =>
          mkStatus false (Config.maxAttempts ACCOUNT_LOCKOUT_CONFIG - 1) None 0)
       times,
     db).
Proof.
  intros Hnone. induction times as [|now rest IH]; [reflexivity|].
  cbn [recordFailures].
  rewrite (recordFailedLoginAttempt_unknown _ _ _ Hnone), IH. reflexivity.
Qed.

(** C10. For an identifier without an account, [recordFailedLoginAttempt]
    answers unlocked, [maxAttempts - 1] attempts remaining and no lockout
    date, and leaves the table as it was; so does every one of any number of
    such calls in a row. *)
Theorem unknown_account_never_locked email (times : list Z) db :
  db !! email = None ->
  (forall now,
      recordFailedLoginAttempt email now db
      = (Fulfilled
           (mkStatus false (Config.maxAttempts ACCOUNT_LOCKOUT_CONFIG - 1)
              None 0),
         db))
  ∧ recordFailures email times db
    = (List.map
         (fun _ =>
            mkStatus false (Config.maxAttempts ACCOUNT_LOCKOUT_CONFIG - 1)
              None 0)
         times,
       db).
Proof.
  intros Hnone. split.
  - intros now. apply recordFailedLoginAttempt_unknown, Hnone.
  - apply recordFailures_unknown, Hnone.
Qed.

(** Failures recorded in a row for an account that exists: the [i]-th answer
    (from 0) counts [i + 1] attempts more than were stored at the start. *)
Lemma recordFailures_existing email (times : list Z) :
  forall db u,
    db !! email = Some u ->
    forall (i : nat) s,
      (recordFailures email times db).1 !! i = Some s ->
      remainingAttempts s
      = Z.max 0 (Config.maxAttempts ACCOUNT_LOCKOUT_CONFIG
                 - (User.failedLoginAttempts u + Z.of_nat i + 1))
      ∧ isLocked s
        = (Config.maxAttempts ACCOUNT_LOCKOUT_CONFIG
           <=? User.failedLoginAttempts u + Z.of_nat i + 1).
Proof.
  induction times as [|now rest IH]; intros db u Hu i s Hi.
  - cbn in Hi. discriminate.
  - cbn [recordFailures] in Hi.
    rewrite (recordFailedLoginAttempt_existing _ _ _ _ Hu) in Hi.
    cbn zeta in Hi.
    match type of Hi with
    | context [recordFailures email rest ?d] =>
        specialize (IH d _ (lookup_insert_eq _ _ _));
        destruct (recordFailures email rest d) as [ss db2]
    end.
    cbn [fst] in Hi, IH. destruct i as [|i]; cbn in Hi.
    + inversion Hi; subst. cbn [remainingAttempts isLocked].
      replace (User.failedLoginAttempts u + Z.of_nat 0 + 1)
        with (User.failedLoginAttempts u + 1) by lia.
      split; reflexivity.
    + destruct (IH i s Hi) as [Hr Hl]. cbn [User.failedLoginAttempts] in Hr, Hl.
      rewrite Hr, Hl.
      replace (User.failedLoginAttempts u + 1 + Z.of_nat i + 1)
        with (User.failedLoginAttempts u + Z.of_nat (S i) + 1) by lia.
      split; reflexivity.
Qed.

(** From the second recorded failure on, the answer for an account that
    exists (with no failure on record at the start) leaves fewer attempts
    than the answer for an identifier without an account. *)
Lemma unknown_account_differs_from_second email email' (times : list Z) db u :
  db !! email = Some u -> User.failedLoginAttempts u = 0 ->
  db !! email' = None ->
  forall (i : nat) s s',
    (1 <= i)%nat ->
    (recordFailures email times db).1 !! i = Some s ->
    (recordFailures email' times db).1 !! i = Some s' ->
    remainingAttempts s < remainingAttempts s'.
Proof.
  intros Hu Hzero Hnone i s s' Hi Hs Hs'.
  destruct (recordFailures_existing email times db u Hu i s Hs) as [Hr _].
  rewrite (recordFailures_unknown email' times db Hnone) in Hs'.
  cbn [fst] in Hs'. rewrite list_lookup_fmap in Hs'.
  destruct (times !! i); [|discriminate]. cbn in Hs'.
  inversion Hs'; subst s'. rewrite Hr, Hzero. cbn. lia.
Qed.

(** What [checkAccountLockout] does when the stored lockout date has
    elapsed: the row is reset, and the remaining attempts are computed from
    the row as it was read before the reset. *)
Lemma checkAccountLockout_elapsed email now db u t :
  db !! email = Some u -> User.lockoutUntil u = Some t -> t <= now ->
  checkAccountLockout email now db
  = (Fulfilled
       (mkStatus false
          (Z.max 0 (Config.maxAttempts ACCOUNT_LOCKOUT_CONFIG
                    - User.failedLoginAttempts u))
          None 0),
     <[email := User.mk (User.id u) 0 None]> db).
Proof.
  intros Hu Ht Hle. unfold checkAccountLockout, findUnique, update.
  rewrite Hu, Ht. cbn [after notAfter].
  assert ((now <? t) = false) as -> by (apply Z.ltb_ge; lia).
  assert ((t <=? now) = true) as -> by (apply Z.leb_le; lia).
  rewrite orNum_zero. reflexivity.
Qed.

End AccountLockoutFacts.

(** C5 at an account with 4 failures on record: the fifth locks it for 30
    minutes, the sixth for 35. *)
Lemma lockout_escalating_backoff_witness :
  let db : gmap string AccountLockout.User.t :=
    {[ "test@example.com" := AccountLockout.User.mk "user-123" 4 None ]} in
  let first :=
    AccountLockout.recordFailedLoginAttempt "test@example.com" 1000 db in
  let second :=
    AccountLockout.recordFailedLoginAttempt "test@example.com" 2000 first.2 in
  first.1
  = Js.Fulfilled (AccountLockout.mkStatus true 0 (Some 1801000) 1800000)
  ∧ second.1
    = Js.Fulfilled (AccountLockout.mkStatus true 0 (Some 2102000) 2100000).
Proof.
  intros db first second.
  destruct (lockout_escalating_backoff "test@example.com" 1000 2000 db
              (AccountLockout.User.mk "user-123" 4 None))
    as (H1 & _ & H2 & _).
  - reflexivity.
  - cbn. lia.
  - split; [exact H1|exact H2].
Defined.

Lemma unknown_account_never_locked_witness :
  AccountLockout.recordFailures "nonexistent@example.com" [0; 1; 2; 3; 4; 5; 6]
    (∅ : gmap string AccountLockout.User.t)
  = (List.map (fun _ => AccountLockout.mkStatus false 4 None 0)
       [0; 1; 2; 3; 4; 5; 6],
     ∅).
Proof.
  apply (unknown_account_never_locked "nonexistent@example.com"
           [0; 1; 2; 3; 4; 5; 6] ∅).
  reflexivity.
Defined.

(** C6 at the input of the repository's own test (5 failures on record, a
    lockout date one second in the past): the row is reset to 0 attempts and
    no lockout date, the answer is unlocked, but the remaining attempts are
    0, not [maxAttempts = 5]: they are computed from the count read before
    the reset. *)
Theorem lazy_reset_reports_stale_attempts :
  let db : gmap string AccountLockout.User.t :=
    {[ "test@example.com" := AccountLockout.User.mk "user-123" 5 (Some 1000) ]} in
  let r := AccountLockout.checkAccountLockout "test@example.com" 2000 db in
  r.1 = Js.Fulfilled (AccountLockout.mkStatus false 0 None 0)
  ∧ r.2 !! "test@example.com" = Some (AccountLockout.User.mk "user-123" 0 None)
  ∧ AccountLockout.Config.maxAttempts AccountLockout.ACCOUNT_LOCKOUT_CONFIG = 5.
Proof.
  intros db r. unfold r.
  rewrite (checkAccountLockout_elapsed "test@example.com" 2000 db
             (AccountLockout.User.mk "user-123" 5 (Some 1000)) 1000);
    [|reflexivity|reflexivity|lia].
  cbn [fst snd]. rewrite lookup_insert_eq. repeat split.
Qed.

(** C7 at two recorded failures: for an account that exists (no failure on
    record before) the second answer leaves 3 attempts, for an identifier
    without an account it leaves 4; after five, the account is reported
    locked and the unknown identifier is not. *)
Theorem unknown_account_is_distinguishable :
  let db : gmap string AccountLockout.User.t :=
    {[ "test@example.com" := AccountLockout.User.mk "user-123" 0 None ]} in
  (AccountLockout.recordFailures "test@example.com" [0; 1] db).1
  = [AccountLockout.mkStatus false 4 None 0;
     AccountLockout.mkStatus false 3 None 0]
  ∧ (AccountLockout.recordFailures "nonexistent@example.com" [0; 1] db).1
    = [AccountLockout.mkStatus false 4 None 0;
       AccountLockout.mkStatus false 4 None 0]
  ∧ last (AccountLockout.recordFailures "test@example.com" [0; 1; 2; 3; 4] db).1
    = Some (AccountLockout.mkStatus true 0 (Some 1800004) 1800000)
  ∧ last (AccountLockout.recordFailures "nonexistent@example.com"
            [0; 1; 2; 3; 4] db).1
    = Some (AccountLockout.mkStatus false 4 None 0).
Proof.
  intros db. vm_compute. repeat split; reflexivity.
Qed.

(** ** Shutdown manager *)

Section ShutdownFacts.
Import Js ShutdownManager.
Context {W : Type}.
Implicit Types (h : ShutdownHandler W) (hs : list (ShutdownHandler W)) (w : W).

Lemma runHandler_spec dt signal h now w :
  runHandler dt signal h now w
  = (expectedEntry (name h) (handler h signal w).1 (orNumOpt (timeout h) dt),
     now + Result.duration
             (expectedEntry (name h) (handler h signal w).1
                (orNumOpt (timeout h) dt)),
     (handler h signal w).2).
Proof.
  unfold runHandler, expectedEntry, raceTimeout.
  destruct (handler h signal w) as [p w']. cbn [fst snd].
  destruct p as [d [[]|e]|]; [destruct (d <=? _)..|]; cbn;
    repeat f_equal; lia.
Qed.

Lemma runHandlers_acc dt signal hs :
  forall acc now w,
    runHandlers dt signal hs acc now w
    = (acc ++ (runHandlers dt signal hs [] now w).1.1,
       (runHandlers dt signal hs [] now w).1.2,
       (runHandlers dt signal hs [] now w).2).
Proof.
  induction hs as [|h rest IH]; intros acc now w; cbn [runHandlers].
  - rewrite app_nil_r. reflexivity.
  - destruct (runHandler dt signal h now w) as [[r now'] w'].
    rewrite (IH (acc ++ [r])), (IH ([] ++ [r])). cbn [fst snd].
    rewrite <- app_assoc. reflexivity.
Qed.

Lemma runHandlers_cons dt signal h hs now w :
  runHandlers dt signal (h :: hs) [] now w
  = let r := runHandler dt signal h now w in
    let rest := runHandlers dt signal hs [] r.1.2 r.2 in
    (r.1.1 :: rest.1.1, rest.1.2, rest.2).
Proof.
  cbn [runHandlers]. destruct (runHandler dt signal h now w) as [[r now'] w'].
  rewrite runHandlers_acc. reflexivity.
Qed.

Lemma runHandlers_world dt signal hs :
  forall now w, (runHandlers dt signal hs [] now w).2 = worldAfter signal hs w.
Proof.
  induction hs as [|h rest IH]; intros now w; [reflexivity|].
  rewrite runHandlers_cons. cbn zeta. cbn [snd].
  rewrite IH, runHandler_spec. reflexivity.
Qed.

Lemma runHandlers_names dt signal hs :
  forall now w,
    List.map Result.name (runHandlers dt signal hs [] now w).1.1
    = List.map name hs.
Proof.
  induction hs as [|h rest IH]; intros now w; [reflexivity|].
  rewrite runHandlers_cons. cbn zeta. cbn [fst snd List.map].
  rewrite IH, runHandler_spec. cbn [fst].
  f_equal. unfold expectedEntry.
  destruct (handler h signal w).1 as [d [[]|e]|]; [destruct (d <=? _)..|];
    reflexivity.
Qed.





End ShutdownFacts.

(** Three handlers on a world that logs the calls: the first times out
    against its own 10 s, the second throws, the third has no timeout of its
    own and succeeds after 20 s, within the default 30 s. All three are
    called, in order, and each has its entry. *)
Example shutdown_scenario :
  let hang : ShutdownManager.ShutdownHandler (list string) :=
    ShutdownManager.mkHandler "database"
      (fun _ log => (Js.NeverSettles, log ++ ["database"])) (Some 10000) in
  let throw : ShutdownManager.ShutdownHandler (list string) :=
    ShutdownManager.mkHandler "cache"
      (fun _ log =>
         (Js.SettlesAfter 5 (Js.Thrown (Js.mkError "TypeError" "no flush")),
          log ++ ["cache"]))
      (Some 5000) in
  let slow : ShutdownManager.ShutdownHandler (list string) :=
    ShutdownManager.mkHandler "http-server"
      (fun _ log =>
         (Js.SettlesAfter 20000 (Js.Fulfilled tt), log ++ ["http-server"]))
      None in
  let m := ShutdownManager.registerAll [hang; throw; slow] ShutdownManager.new in
  ShutdownManager.executeHandlers "SIGTERM" 0 [] m
  = (ShutdownManager.mkSummary 3 1 2 30005
       [ShutdownManager.Result.mk "database" false 10000 (Some "Timeout");
        ShutdownManager.Result.mk "cache" false 5 (Some "no flush");
        ShutdownManager.Result.mk "http-server" true 20000 None],
     30005,
     ["database"; "cache"; "http-server"]).
Proof. vm_compute. reflexivity. Qed.



(** * Further properties *)

(** ** Circuit breaker: counters, snapshot, overrides *)

Section BreakerUseFacts.
Import Js CircuitBreaker BreakerUse.
Context {W T : Type}.
Implicit Types (cb : CircuitBreaker.t) (fn : Op W T) (w : W) (now : Z).

Lemma attempt_shape fn now cb w :
  (∃ d v,
      settle cb fn w = (d, Fulfilled v)
      ∧ attempt fn now cb w
        = mkExecution (Fulfilled v)
            (onSuccess (now + d) (withStats (bumpRequests (stats cb)) cb))
            (fn w).2 (now + d) true)
  ∨ (∃ d e,
        settle cb fn w = (d, Thrown e)
        ∧ attempt fn now cb w
          = mkExecution (Thrown e)
              (onFailure (now + d) (withStats (bumpRequests (stats cb)) cb))
              (fn w).2 (now + d) true).
Proof.
  destruct (settle cb fn w) as [d [v|e]] eqn:Hs.
  - left. exists d, v. split; [reflexivity|]. apply attempt_fulfilled, Hs.
  - right. exists d, e. split; [reflexivity|]. apply attempt_thrown, Hs.
Qed.

Lemma execute_shape fn now cb w :
  execute fn now cb w
  = mkExecution (Thrown (CircuitBreakerOpenError "Circuit breaker is OPEN"))
      cb w now false
  ∨ execute fn now cb w = attempt fn now cb w
  ∨ execute fn now cb w = attempt fn now (transitionToHalfOpen cb) w.
Proof.
  unfold execute. destruct (state cb); auto. destruct (_ <? _); auto.
Qed.

Lemma onSuccess_mirrors now cb : mirrors (onSuccess now cb).
Proof.
  unfold onSuccess, mirrors. cbn.
  destruct (state cb); cbn; try destruct (_ <=? _); cbn; repeat split.
Qed.

Lemma onFailure_mirrors now cb : mirrors (onFailure now cb).
Proof.
  unfold onFailure, mirrors. cbn.
  destruct (state cb); cbn; try destruct (_ <=? _); cbn; repeat split.
Qed.

Lemma onSuccess_totals now cb :
  Stats.totalRequests (stats (onSuccess now cb)) = Stats.totalRequests (stats cb)
  ∧ Stats.totalSuccesses (stats (onSuccess now cb))
    = Stats.totalSuccesses (stats cb) + 1
  ∧ Stats.totalFailures (stats (onSuccess now cb))
    = Stats.totalFailures (stats cb).
Proof.
  unfold onSuccess. cbn.
  destruct (state cb); cbn; try destruct (_ <=? _); cbn; repeat split.
Qed.

Lemma onFailure_totals now cb :
  Stats.totalRequests (stats (onFailure now cb)) = Stats.totalRequests (stats cb)
  ∧ Stats.totalSuccesses (stats (onFailure now cb))
    = Stats.totalSuccesses (stats cb)
  ∧ Stats.totalFailures (stats (onFailure now cb))
    = Stats.totalFailures (stats cb) + 1.
Proof.
  unfold onFailure. cbn.
  destruct (state cb); cbn; try destruct (_ <=? _); cbn; repeat split.
Qed.

(** [execute] is its two stretches one after the other, with the race of
    [withTimeout] in between. *)
Lemma execute_enter_leave fn now cb w :
  execute fn now cb w
  = match enter now cb with
    | None =>
        mkExecution (Thrown (CircuitBreakerOpenError "Circuit breaker is OPEN"))
          cb w now false
    | Some cb1 =>
        mkExecution (settle cb fn w).2
          (leave (settle cb fn w).2 (now + (settle cb fn w).1) cb1)
          (fn w).2 (now + (settle cb fn w).1) true
    end.
Proof.
  unfold execute, enter, attempt, settle.
  destruct (state cb); try destruct (_ <? _); try reflexivity;
    cbn [config withStats transitionToHalfOpen];
    destruct (fn w) as [p w']; cbn [fst snd];
    destruct (raceTimeout p _ _) as [d [v|e]]; reflexivity.
Qed.

Lemma enter_totals now cb cb1 :
  enter now cb = Some cb1 ->
  Stats.totalRequests (stats cb1) = Stats.totalRequests (stats cb) + 1
  ∧ Stats.totalSuccesses (stats cb1) = Stats.totalSuccesses (stats cb)
  ∧ Stats.totalFailures (stats cb1) = Stats.totalFailures (stats cb).
Proof.
  unfold enter. destruct (state cb); try destruct (_ <? _);
    intros [= <-]; cbn; auto.
Qed.

Lemma step_balanced (e : Event T) (s : CircuitBreaker.t * nat) :
  balanced s -> balanced (step e s).
Proof.
  destruct s as [cb n]. unfold balanced. cbn [fst snd].
  intros (Hb & H1 & H2). destruct e as [now|now o| |now]; cbn [step].
  - destruct (enter now cb) as [cb1|] eqn:He; cbn [fst snd]; [|auto].
    destruct (enter_totals now cb cb1 He) as (-> & -> & ->). lia.
  - destruct n as [|n]; cbn [fst snd]; [auto|].
    destruct o as [v|e]; cbn [leave].
    + destruct (onSuccess_totals now cb) as (-> & -> & ->). lia.
    + destruct (onFailure_totals now cb) as (-> & -> & ->). lia.
  - cbn. auto.
  - cbn. auto.
Qed.

Lemma steps_balanced (es : list (Event T)) :
  forall s, balanced s -> balanced (steps es s).
Proof.
  induction es as [|e rest IH]; intros s Hs; [exact Hs|].
  cbn [steps fold_left]. apply IH, step_balanced, Hs.
Qed.

(** A call that runs alone is an arrival followed by its settlement. *)
Lemma execute_steps fn now cb w :
  ∃ es : list (Event T), steps es (cb, 0%nat) = (breaker (execute fn now cb w), 0%nat).
Proof.
  rewrite execute_enter_leave. destruct (enter now cb) as [cb1|] eqn:He.
  - exists [Arrives now;
            Settles (now + (settle cb fn w).1) (settle cb fn w).2].
    cbn. rewrite He. reflexivity.
  - exists [Arrives now]. cbn. rewrite He. reflexivity.
Qed.

Lemma executeAll_steps (calls : list (Z * Op W T)) :
  forall cb w,
    ∃ es : list (Event T), steps es (cb, 0%nat) = ((executeAll calls cb w).1, 0%nat).
Proof.
  induction calls as [|[now fn] rest IH]; intros cb w.
  - exists []. reflexivity.
  - cbn [executeAll].
    destruct (execute_steps fn now cb w) as [es1 H1].
    destruct (IH (breaker (execute fn now cb w)) (world (execute fn now cb w)))
      as [es2 H2].
    exists (es1 ++ es2). unfold steps in *. rewrite fold_left_app, H1. exact H2.
Qed.

End BreakerUseFacts.

Section BreakerUseTheorems.
Import Js CircuitBreaker BreakerUse.
Context {W T : Type}.
Implicit Types (cb : CircuitBreaker.t) (fn : Op W T) (w : W) (now : Z).

(** X1. However the calls through a breaker overlap, and whatever else is
    done with it after its construction ([reset()], [open()]), its cumulative
    counters obey [totalRequests = totalSuccesses + totalFailures + the
    number of calls let through that have not settled yet], and none is
    negative. So [getStats()] shows [totalRequests] ahead of the other two
    while calls are under way, and the three in balance whenever none is; in
    particular after any sequence of calls made one after the other. *)
Theorem breaker_totals_balance (c : PartialConfig) :
  (forall es : list (Event T), balanced (steps es (new c, 0%nat)))
  ∧ (forall (calls : list (Z * Op W T)) w,
       balanced ((executeAll calls (new c) w).1, 0%nat)).
Proof.
  assert (H0 : balanced (new c, 0%nat)) by (unfold balanced; cbn; lia).
  split.
  - intros es. apply steps_balanced, H0.
  - intros calls w. destruct (executeAll_steps calls (new c) w) as [es <-].
    apply steps_balanced, H0.
Qed.

(** X2. The snapshot behind [getStats] is refreshed by the calls that are
    let through and by nothing else: after such a call it agrees with the
    live state and counters; a call that is turned away, [reset()] and
    [open()] leave it as it was. So after [reset()] of a breaker that was not
    CLOSED, [getState()] says CLOSED while [getStats().state] still shows the
    old state. *)
Theorem breaker_snapshot_refresh fn now now' cb w :
  (invoked (execute fn now cb w) = true ->
   mirrors (breaker (execute fn now cb w)))
  ∧ (invoked (execute fn now cb w) = false ->
     getStats (breaker (execute fn now cb w)) = getStats cb)
  ∧ getStats (reset cb) = getStats cb
  ∧ getStats (open now' cb) = getStats cb
  ∧ (mirrors cb -> state cb ≠ CLOSED ->
     getState (reset cb) = CLOSED
     ∧ Stats.state (getStats (reset cb)) = state cb
     ∧ Stats.state (getStats (reset cb)) ≠ getState (reset cb)).
Proof.
  assert (Hatt : forall cb1, mirrors (breaker (attempt fn now cb1 w))
                             ∧ invoked (attempt fn now cb1 w) = true).
  { intros cb1.
    destruct (attempt_shape fn now cb1 w) as [(d & v & _ & ->)|(d & e & _ & ->)];
      cbn [breaker invoked]; split;
      auto using onSuccess_mirrors, onFailure_mirrors. }
  split; [|split; [|split; [reflexivity|split; [reflexivity|]]]].
  - destruct (execute_shape fn now cb w) as [-> | [-> | ->]];
      cbn [invoked breaker]; [discriminate|intros _; apply Hatt..].
  - destruct (execute_shape fn now cb w) as [-> | [-> | ->]];
      cbn [invoked breaker]; [reflexivity| |];
      rewrite (proj2 (Hatt _)); discriminate.
  - intros (Hm & _) Hne. cbn. rewrite Hm. auto.
Qed.

(** X3. While the breaker is OPEN, any number of calls made before
    [nextAttemptTime] change nothing: the breaker is as it was and so is the
    world, since no operation is called. *)
Theorem open_breaker_ignores_early_calls (calls : list (Z * Op W T)) cb w t :
  state cb = OPEN -> nextAttemptTime cb = Some t ->
  Forall (fun c => c.1 < t) calls ->
  executeAll calls cb w = (cb, w).
Proof.
  intros Hs Hn Hall. induction Hall as [|[now fn] rest Hlt _ IH]; [reflexivity|].
  cbn [executeAll]. cbn in Hlt.
  rewrite (open_rejects fn now cb w t Hs Hn Hlt). cbn [breaker world].
  exact IH.
Qed.

(** X4. An operation that is let through (the breaker is CLOSED or
    HALF_OPEN, or OPEN with [nextAttemptTime] reached) and has not settled
    when the request timer fires (it never settles, or settles later) ends as
    the error "Request timeout" at the time the timer fires; the operation
    was started all the same, and the call is recorded as a failure. *)
Theorem late_operation_times_out fn now cb w :
  invoked (execute fn now cb w) = true ->
  ((fn w).1 = NeverSettles
   ∨ ∃ d o, (fn w).1 = SettlesAfter d o
            ∧ timerDelay (requestTimeout (config cb)) < d) ->
  let r := execute fn now cb w in
  let fired := now + timerDelay (requestTimeout (config cb)) in
  outcome r = Thrown (mkError "Error" "Request timeout")
  ∧ finishedAt r = fired
  ∧ world r = (fn w).2
  ∧ lastFailureTime (breaker r) = Some fired
  ∧ failureCount (breaker r) = failureCount cb + 1
  ∧ Stats.totalFailures (stats (breaker r))
    = Stats.totalFailures (stats cb) + 1.
Proof.
  intros Hin Hlate r fired.
  assert (Hs : forall cb1, config cb1 = config cb ->
            settle cb1 fn w
            = (timerDelay (requestTimeout (config cb)),
               Thrown (mkError "Error" "Request timeout"))).
  { intros cb1 Hc. unfold settle, raceTimeout. rewrite Hc.
    destruct Hlate as [-> | (d & o & -> & Hd)]; [reflexivity|].
    assert ((d <=? timerDelay (requestTimeout (config cb))) = false) as ->
      by (apply Z.leb_gt; lia).
    reflexivity. }
  assert (Hatt : forall cb1,
            config cb1 = config cb -> failureCount cb1 = failureCount cb ->
            stats cb1 = stats cb ->
            let a := attempt fn now cb1 w in
            outcome a = Thrown (mkError "Error" "Request timeout")
            ∧ finishedAt a = fired
            ∧ world a = (fn w).2
            ∧ lastFailureTime (breaker a) = Some fired
            ∧ failureCount (breaker a) = failureCount cb + 1
            ∧ Stats.totalFailures (stats (breaker a))
              = Stats.totalFailures (stats cb) + 1).
  { intros cb1 Hc Hf Hst a. unfold a.
    rewrite (attempt_thrown _ _ _ _ _ _ (Hs cb1 Hc)).
    cbn [outcome finishedAt world breaker].
    destruct (onFailure_totals fired (withStats (bumpRequests (stats cb1)) cb1))
      as (_ & _ & Htf).
    fold fired. rewrite Htf. unfold onFailure. cbn. rewrite Hf, Hst.
    destruct (state cb1); cbn; try destruct (_ <=? _); cbn; repeat split. }
  unfold r in *.
  destruct (execute_shape fn now cb w) as [Hr | [Hr | Hr]]; rewrite Hr in *.
  - discriminate Hin.
  - apply Hatt; reflexivity.
  - apply Hatt; reflexivity.
Qed.

(** X5. The two overrides. After [open()] at time [now], a call before
    [now + resetTimeout] is turned away without calling the operation, and a
    call from then on is let through. After [reset()] the breaker is CLOSED
    with both counters at 0 and no [nextAttemptTime], and the next call is
    let through whatever the time. *)
Theorem breaker_manual_overrides fn now t cb w :
  (t < now + resetTimeout (config cb) ->
   invoked (execute fn t (open now cb) w) = false
   ∧ world (execute fn t (open now cb) w) = w
   ∧ breaker (execute fn t (open now cb) w) = open now cb)
  ∧ (now + resetTimeout (config cb) <= t ->
     invoked (execute fn t (open now cb) w) = true
     ∧ world (execute fn t (open now cb) w) = (fn w).2)
  ∧ state (reset cb) = CLOSED
  ∧ failureCount (reset cb) = 0
  ∧ successCount (reset cb) = 0
  ∧ nextAttemptTime (reset cb) = None
  ∧ invoked (execute fn t (reset cb) w) = true
  ∧ world (execute fn t (reset cb) w) = (fn w).2.
Proof.
  split; [|split].
  - intros Hlt.
    rewrite (open_rejects fn t (open now cb) w (now + resetTimeout (config cb)));
      [cbn; auto|reflexivity|reflexivity|exact Hlt].
  - intros Hle.
    destruct (open_probes fn t (open now cb) w (now + resetTimeout (config cb)))
      as (_ & _ & _ & _ & Hi & Hw); [reflexivity|reflexivity|exact Hle|].
    auto.
  - repeat split; try reflexivity; apply attempt_invoked.
Qed.

End BreakerUseTheorems.

Lemma open_breaker_ignores_early_calls_witness :
  let cb := CircuitBreaker.open 0 BreakerUse.openaiCircuitBreaker in
  let fn : Js.Op nat unit := fun n => (Js.SettlesAfter 5 (Js.Fulfilled tt), S n) in
  CircuitBreaker.executeAll [(10, fn); (30000, fn); (59999, fn)] cb 0%nat
  = (cb, 0%nat).
Proof.
  intros cb fn.
  apply (open_breaker_ignores_early_calls _ cb 0%nat 60000).
  - reflexivity.
  - reflexivity.
  - repeat constructor; cbn; lia.
Defined.

Lemma late_operation_times_out_witness :
  let fn : Js.Op nat unit :=
    fun n => (Js.SettlesAfter 45000 (Js.Fulfilled tt), S n) in
  let cb := CircuitBreaker.open 0 BreakerUse.openaiCircuitBreaker in
  let r := CircuitBreaker.execute fn 60000 cb 0%nat in
  CircuitBreaker.outcome r = Js.Thrown (Js.mkError "Error" "Request timeout")
  ∧ CircuitBreaker.finishedAt r = 90000
  ∧ CircuitBreaker.world r = 1%nat.
Proof.
  intros fn cb r.
  destruct (late_operation_times_out fn 60000 cb 0%nat)
    as (H1 & H2 & H3 & _).
  - reflexivity.
  - right. exists 45000, (Js.Fulfilled tt). split; [reflexivity|]. cbn. lia.
  - exact (conj H1 (conj H2 H3)).
Defined.

(** ** OpenAI health check *)

Section OpenAIHealthFacts.
Import Js CircuitBreaker BreakerUse.
Context {W M : Type}.
Implicit Types (cb : CircuitBreaker.t) (listModels : Op W M) (w : W) (now : Z).






End OpenAIHealthFacts.


(** ** Rate limiter: independence, sweep, reset *)

Section RateLimiterMore.
Import RateLimiter.
Implicit Types (store : gmap string RateLimitEntry) (identifier : string).

(** [check] looks at the entry of its identifier only, and writes that entry
    only. *)
Lemma check_local identifier maxRequests windowMs now :
  ∃ f : option RateLimitEntry -> Result.t * RateLimitEntry,
    forall store,
      check identifier maxRequests windowMs now store
      = ((f (store !! identifier)).1,
         <[identifier := (f (store !! identifier)).2]> store).
Proof.
  exists (fun o =>
    match o with
    | None => (Result.mk true (maxRequests - 1) (now + windowMs),
               mkEntry 1 (now + windowMs))
    | Some entry =>
        if resetTime entry <? now
        then (Result.mk true (maxRequests - 1) (now + windowMs),
              mkEntry 1 (now + windowMs))
        else (Result.mk (count entry + 1 <=? maxRequests)
                (Z.max 0 (maxRequests - (count entry + 1))) (resetTime entry),
              mkEntry (count entry + 1) (resetTime entry))
    end).
  intros store. unfold check.
  destruct (store !! identifier) as [entry|]; [|reflexivity].
  destruct (resetTime entry <? now); reflexivity.
Qed.

(** X7. Distinct identifiers never interfere: a call for one identifier
    leaves the entry of any other as it was and does not change the answer
    that the other gets, and two calls for distinct identifiers leave the
    same store in either order. *)
Theorem rate_limit_identifiers_independent
    identifier identifier' max max' win win' now now' store :
  identifier ≠ identifier' ->
  let after := (check identifier max win now store).2 in
  after !! identifier' = store !! identifier'
  ∧ (check identifier' max' win' now' after).1
    = (check identifier' max' win' now' store).1
  ∧ (check identifier' max' win' now' after).2
    = (check identifier max win now
         (check identifier' max' win' now' store).2).2.
Proof.
  intros Hne after.
  destruct (check_local identifier max win now) as [f Hf].
  destruct (check_local identifier' max' win' now') as [g Hg].
  assert (Hafter : after = <[identifier := (f (store !! identifier)).2]> store)
    by (unfold after; rewrite Hf; reflexivity).
  assert (Hlook : after !! identifier' = store !! identifier')
    by (rewrite Hafter; apply lookup_insert_ne; exact Hne).
  split; [exact Hlook|].
  rewrite !Hg, Hlook. cbn [fst snd]. split; [reflexivity|].
  rewrite Hf. cbn [snd]. rewrite lookup_insert_ne by congruence.
  rewrite Hafter. apply insert_insert_ne. congruence.
Qed.

(** X8. The periodic sweep is invisible to callers: it keeps exactly the
    entries whose [resetTime] has not passed, and a [check] made at the time
    of the sweep or later gets the same answer with or without it. *)
Theorem rate_limit_cleanup_transparent identifier max win now now' store :
  now <= now' ->
  (forall k e,
      cleanup now store !! k = Some e
      <-> store !! k = Some e ∧ ¬ (resetTime e < now))
  ∧ (check identifier max win now' (cleanup now store)).1
    = (check identifier max win now' store).1.
Proof.
  intros Hle.
  assert (Hchar : forall k e,
    cleanup now store !! k = Some e
    <-> store !! k = Some e ∧ ¬ (resetTime e < now)).
  { intros k e. unfold cleanup. rewrite map_lookup_filter_Some. reflexivity. }
  split; [exact Hchar|].
  unfold check.
  destruct (store !! identifier) as [e|] eqn:He.
  - destruct (decide (resetTime e < now)) as [Hexp|Hlive].
    + assert (cleanup now store !! identifier = None) as ->.
      { destruct (cleanup now store !! identifier) as [e'|] eqn:He';
          [|reflexivity].
        apply Hchar in He'. destruct He' as [He' Hn].
        rewrite He in He'. inversion He'; subst. contradiction. }
      assert ((resetTime e <? now') = true) as -> by (apply Z.ltb_lt; lia).
      reflexivity.
    + assert (cleanup now store !! identifier = Some e) as ->
        by (apply Hchar; auto).
      destruct (resetTime e <? now'); reflexivity.
  - assert (cleanup now store !! identifier = None) as ->; [|reflexivity].
    destruct (cleanup now store !! identifier) as [e'|] eqn:He'; [|reflexivity].
    apply Hchar in He'. destruct He' as [He' _]. congruence.
Qed.

(** X9. [reset] forgives: whatever was counted for the identifier, the next
    [check] opens a new window and succeeds with [maxRequests - 1] remaining;
    the entries of the other identifiers are not touched. *)
Theorem rate_limit_reset_forgives identifier max win now store :
  check identifier max win now (reset identifier store)
  = (Result.mk true (max - 1) (now + win),
     <[identifier := mkEntry 1 (now + win)]> store)
  ∧ getStatus identifier (reset identifier store) = None
  ∧ forall k, k ≠ identifier ->
      getStatus k (reset identifier store) = getStatus k store.
Proof.
  unfold reset, getStatus. split; [|split].
  - rewrite check_fresh by (left; apply lookup_delete_eq).
    rewrite insert_delete_eq. reflexivity.
  - apply lookup_delete_eq.
  - intros k Hk. apply lookup_delete_ne. congruence.
Qed.

End RateLimiterMore.

Lemma rate_limit_identifiers_independent_witness :
  let store := (RateLimiter.check "ip-1" 5 1000 0 RateLimiter.new).2 in
  (RateLimiter.check "ip-2" 5 1000 10 store).1
  = (RateLimiter.check "ip-2" 5 1000 10 RateLimiter.new).1.
Proof.
  intros store.
  apply (rate_limit_identifiers_independent "ip-1" "ip-2" 5 5 1000 1000 0 10
           RateLimiter.new).
  discriminate.
Defined.

Lemma rate_limit_cleanup_transparent_witness :
  let store := (RateLimiter.check "ip-1" 5 1000 0 RateLimiter.new).2 in
  (RateLimiter.check "ip-1" 5 1000 2500 (RateLimiter.cleanup 2000 store)).1
  = (RateLimiter.check "ip-1" 5 1000 2500 store).1.
Proof.
  intros store.
  apply (rate_limit_cleanup_transparent "ip-1" 5 1000 2000 2500 store).
  lia.
Defined.

(** ** IP-level login limiter *)

Section IpRateLimitFacts.
Import IpRateLimit.
Implicit Types (m : gmap string Attempts) (ip : string).

(** The same data seen as a store of the general limiter. *)
Local Abbreviation asEntry :=
  (fun a : Attempts => RateLimiter.mkEntry (count a) (resetTime a)).

Lemma checkIpRateLimit_check ip now m :
  let r := checkIpRateLimit ip now m in
  let r' := RateLimiter.check ip maxAttempts windowMs now (asEntry <$> m) in
  RateLimiter.Result.mk (Result.allowed r.1) (Result.remainingAttempts r.1)
    (Result.resetTime r.1) = r'.1
  ∧ asEntry <$> r.2 = r'.2.
Proof.
  unfold checkIpRateLimit, RateLimiter.check. rewrite lookup_fmap.
  destruct (m !! ip) as [a|]; cbn.
  - destruct (resetTime a <? now); cbn; rewrite fmap_insert; auto.
  - rewrite fmap_insert. auto.
Qed.

Lemma checkIpRateLimitAll_checkAll ip (times : list Z) :
  forall m,
    List.map
      (fun r => RateLimiter.Result.mk (Result.allowed r)
                  (Result.remainingAttempts r) (Result.resetTime r))
      (checkIpRateLimitAll ip times m).1
    = (RateLimiter.checkAll ip maxAttempts windowMs times (asEntry <$> m)).1.
Proof.
  induction times as [|now rest IH]; intros m; [reflexivity|].
  cbn [checkIpRateLimitAll RateLimiter.checkAll].
  destruct (checkIpRateLimit_check ip now m) as [Hr Hs]. cbn zeta in Hr, Hs.
  destruct (checkIpRateLimit ip now m) as [r m1].
  destruct (RateLimiter.check ip maxAttempts windowMs now (asEntry <$> m))
    as [r' s1].
  cbn [fst snd] in Hr, Hs. subst r' s1.
  specialize (IH m1).
  destruct (checkIpRateLimitAll ip rest m1) as [rs m2].
  destruct (RateLimiter.checkAll ip maxAttempts windowMs rest (asEntry <$> m1))
    as [rs' s2].
  cbn [fst snd List.map] in *. rewrite IH. reflexivity.
Qed.

(** X10. The IP-level limiter admits 10 login attempts per 15 minutes: of the
    attempts from one address that open a window and stay inside it exactly
    the first ten are allowed; every later one is refused with no attempt
    remaining; all report the end of that window. Each attempt is answered
    as the general limiter answers [check(ip, 10, 15 min)]. *)
Theorem ip_limiter_ten_per_window ip now (times : list Z) m :
  (m !! ip = None ∨ ∃ a, m !! ip = Some a ∧ resetTime a < now) ->
  Forall (fun t => ¬ (now + 900000 < t)) times ->
  forall (i : nat) r,
    (checkIpRateLimitAll ip (now :: times) m).1 !! i = Some r ->
    (Result.allowed r = true <-> Z.of_nat i + 1 <= 10)
    ∧ (Result.allowed r = false -> Result.remainingAttempts r = 0)
    ∧ Result.resetTime r = now + 900000.
Proof.
  intros Hfresh Hall i r Hi.
  pose proof (checkIpRateLimitAll_checkAll ip (now :: times) m) as Hsim.
  assert (Hi' :
    (RateLimiter.checkAll ip maxAttempts windowMs (now :: times) (asEntry <$> m)).1
    !! i
    = Some (RateLimiter.Result.mk (Result.allowed r)
              (Result.remainingAttempts r) (Result.resetTime r))).
  { rewrite <- Hsim, list_lookup_fmap, Hi. reflexivity. }
  apply checkAll_window in Hi'.
  - destruct i as [|i]; inversion Hi' as [[Ha Hr Ht]]; clear Hi'.
    + rewrite Ha, Hr, Ht. cbn. split; [split; [lia|reflexivity]|].
      split; [discriminate|reflexivity].
    + rewrite Ha, Hr, Ht. unfold maxAttempts, windowMs.
      split; [rewrite Z.leb_le; reflexivity|].
      split; [|reflexivity].
      intros Hf. apply Z.leb_gt in Hf. lia.
  - rewrite lookup_fmap.
    destruct Hfresh as [-> | (a & -> & Ha)]; [left; reflexivity|].
    right. exists (asEntry a). split; [reflexivity|exact Ha].
  - exact Hall.
Qed.

End IpRateLimitFacts.

Lemma ip_limiter_ten_per_window_witness :
  let r := IpRateLimit.Result.mk false 0 900000 in
  (IpRateLimit.checkIpRateLimitAll "192.168.1.1"
     [0; 1; 2; 3; 4; 5; 6; 7; 8; 9; 10; 11] ∅).1 !! 10%nat = Some r
  ∧ (IpRateLimit.Result.allowed r = true <-> Z.of_nat 10 + 1 <= 10).
Proof.
  intros r.
  assert (Hi : (IpRateLimit.checkIpRateLimitAll "192.168.1.1"
                  [0; 1; 2; 3; 4; 5; 6; 7; 8; 9; 10; 11] ∅).1 !! 10%nat
               = Some r) by reflexivity.
  split; [exact Hi|].
  apply (ip_limiter_ten_per_window "192.168.1.1" 0
           [1; 2; 3; 4; 5; 6; 7; 8; 9; 10; 11] ∅); [| |exact Hi].
  - left. reflexivity.
  - repeat constructor; lia.
Defined.

(** ** Cache: accounting, invariants, deletion, sweep *)

Section CacheMore.
Import InMemoryCache CacheApi.
Context {V : Type}.
Implicit Types (c : InMemoryCache.t V) (m : list (string * CacheEntry V)).

Lemma mapGet_mapDelete_ne k k' m :
  k ≠ k' -> mapGet k (mapDelete k' m) = mapGet k m.
Proof.
  intros Hne. induction m as [|[k0 v0] rest IH]; cbn; [reflexivity|].
  destruct (String.eqb_spec k' k0) as [->|Hne'].
  - destruct (String.eqb_spec k k0); [congruence|reflexivity].
  - cbn. destruct (String.eqb_spec k k0); [reflexivity|exact IH].
Qed.

Lemma filter_keys_sublist (P : string * CacheEntry V -> bool) m :
  sublist (List.filter P m).*1 m.*1.
Proof.
  induction m as [|kv rest IH]; cbn; [constructor|].
  destruct (P kv); cbn; [apply sublist_skip|apply sublist_cons]; exact IH.
Qed.

(** In a map with distinct keys, looking a key up after filtering is
    filtering the result of the lookup. *)
Lemma mapGet_filter (P : CacheEntry V -> bool) k m :
  NoDup m.*1 ->
  mapGet k (List.filter (fun kv => P kv.2) m)
  = match mapGet k m with
    | Some e => if P e then Some e else None
    | None => None
    end.
Proof.
  induction m as [|[k0 e0] rest IH]; cbn; intros Hnd; [reflexivity|].
  apply NoDup_cons in Hnd. destruct Hnd as [Hnotin Hnd].
  destruct (String.eqb_spec k k0) as [->|Hne].
  - destruct (P e0); cbn.
    + rewrite String.eqb_refl. reflexivity.
    + apply mapGet_None. intros Hin. apply Hnotin.
      eapply elem_of_sublist; [exact Hin|apply filter_keys_sublist].
  - destruct (P e0); cbn.
    + destruct (String.eqb_spec k k0); [congruence|]. apply IH, Hnd.
    + apply IH, Hnd.
Qed.

(** Every operation keeps the keys distinct and [stats.size] equal to the
    number of entries. *)
Lemma serve_wf (r : Request V) c :
  NoDup (cache c).*1 ∧ size (stats c) = mapSize (cache c) ->
  NoDup (cache (serve r c)).*1
  ∧ size (stats (serve r c)) = mapSize (cache (serve r c)).
Proof.
  intros [Hnd Hsz]. destruct r as [key now|key v ttl now|key|key now| |now];
    cbn [serve].
  - unfold get. destruct (mapGet key (cache c)) as [e|]; cbn; [|auto].
    destruct (expiresAt e <? now); cbn; [|auto].
    split; [apply mapDelete_NoDup, Hnd|reflexivity].
  - split; [apply set_NoDup, Hnd|reflexivity].
  - cbn. split; [apply mapDelete_NoDup, Hnd|reflexivity].
  - unfold has. destruct (mapGet key (cache c)) as [e|]; cbn; [|auto].
    destruct (expiresAt e <? now); cbn; [|auto].
    split; [apply mapDelete_NoDup, Hnd|reflexivity].
  - cbn. split; [constructor|reflexivity].
  - cbn. split; [|reflexivity].
    exact (sublist_NoDup _ _ Hnd (filter_keys_sublist _ _)).
Qed.

Lemma serveAll_wf (rs : list (Request V)) :
  forall c,
    NoDup (cache c).*1 ∧ size (stats c) = mapSize (cache c) ->
    NoDup (cache (serveAll rs c)).*1
    ∧ size (stats (serveAll rs c)) = mapSize (cache (serveAll rs c)).
Proof.
  induction rs as [|r rest IH]; intros c Hwf; [exact Hwf|].
  cbn. apply IH, serve_wf, Hwf.
Qed.

Lemma new_wf (defaultTTL maxSize : Z) :
  NoDup (cache (new (V:=V) defaultTTL maxSize)).*1
  ∧ size (stats (new (V:=V) defaultTTL maxSize))
    = mapSize (cache (new (V:=V) defaultTTL maxSize)).
Proof. cbn. split; [constructor|reflexivity]. Qed.

End CacheMore.

Section CacheInvariants.
Import InMemoryCache CacheApi.
Context {V : Type}.
Implicit Types (c : InMemoryCache.t V) (m : list (string * CacheEntry V)).

Lemma serve_config (r : Request V) c :
  maxSize (serve r c) = maxSize c ∧ defaultTTL (serve r c) = defaultTTL c.
Proof.
  destruct r as [key now|key v ttl now|key|key now| |now]; cbn [serve];
    try (split; reflexivity).
  - unfold get. destruct (mapGet key (cache c)) as [e|]; [|split; reflexivity].
    destruct (expiresAt e <? now); split; reflexivity.
  - unfold has. destruct (mapGet key (cache c)) as [e|]; [|split; reflexivity].
    destruct (expiresAt e <? now); split; reflexivity.
Qed.

Lemma serve_counters (r : Request V) c :
  hits (stats (serve r c)) + misses (stats (serve r c))
  = hits (stats c) + misses (stats c) + (if isGet r then 1 else 0)
  ∧ hits (stats c) <= hits (stats (serve r c))
  ∧ misses (stats c) <= misses (stats (serve r c)).
Proof.
  destruct r as [key now|key v ttl now|key|key now| |now]; cbn [serve isGet];
    try (cbn; lia).
  - unfold get. destruct (mapGet key (cache c)) as [e|]; cbn; [|lia].
    destruct (expiresAt e <? now); cbn; lia.
  - unfold has. destruct (mapGet key (cache c)) as [e|]; cbn; [|lia].
    destruct (expiresAt e <? now); cbn; lia.
Qed.

(** X11. For every cache obtained from a new one by any sequence of
    operations (the periodic sweep included), the keys are distinct and
    [stats().size] is the number of entries stored. *)
Theorem cache_size_is_entry_count (ttlSeconds capacity : Z)
    (rs : list (Request V)) :
  let c := serveAll rs (new ttlSeconds capacity) in
  size (getStats c) = mapSize (cache c) ∧ NoDup (cache c).*1.
Proof.
  destruct (serveAll_wf rs (new ttlSeconds capacity) (new_wf ttlSeconds capacity))
    as [Hnd Hsz].
  split; assumption.
Qed.

(** X12. The hit and miss counters count every [get] made since the cache
    was built: their sum is the number of [get] calls, whatever else was done
    in between; in particular [clear] does not reset them. *)
Theorem cache_counts_every_get (ttlSeconds capacity : Z)
    (rs : list (Request V)) :
  let c := serveAll rs (new ttlSeconds capacity) in
  hits (getStats c) + misses (getStats c)
  = Z.of_nat (length (List.filter isGet rs))
  ∧ 0 <= hits (getStats c) ∧ 0 <= misses (getStats c).
Proof.
  assert (Hgen : forall c0,
    let c := serveAll rs c0 in
    hits (stats c) + misses (stats c)
    = hits (stats c0) + misses (stats c0)
      + Z.of_nat (length (List.filter isGet rs))
    ∧ hits (stats c0) <= hits (stats c)
    ∧ misses (stats c0) <= misses (stats c)).
  { induction rs as [|r rest IH]; intros c0; cbn zeta.
    - cbn. lia.
    - cbn [serveAll fold_left List.filter].
      destruct (IH (serve r c0)) as (H1 & H2 & H3).
      destruct (serve_counters r c0) as (H4 & H5 & H6).
      unfold serveAll in *. destruct (isGet r); cbn [length] in *; lia. }
  destruct (Hgen (new ttlSeconds capacity)) as (H1 & H2 & H3).
  cbn in H1, H2, H3. cbn zeta. unfold getStats. lia.
Qed.

End CacheInvariants.

Section CacheOperations.
Import InMemoryCache CacheApi.
Context {V : Type}.
Implicit Types (c : InMemoryCache.t V) (m : list (string * CacheEntry V)).

Lemma get_answer key now c :
  (get key now c).1
  = match mapGet key (cache c) with
    | Some e => if expiresAt e <? now then None else Some (value e)
    | None => None
    end.
Proof.
  unfold get. destruct (mapGet key (cache c)) as [e|]; [|reflexivity].
  destruct (expiresAt e <? now); reflexivity.
Qed.

Lemma has_answer key now c :
  (has key now c).1
  = match mapGet key (cache c) with
    | Some e => negb (expiresAt e <? now)
    | None => false
    end.
Proof.
  unfold has. destruct (mapGet key (cache c)) as [e|]; [|reflexivity].
  destruct (expiresAt e <? now); reflexivity.
Qed.

(** X14. [delete] on any cache obtained from a new one: afterwards the key
    is gone ([get] misses, [has] is false, a second [delete] answers false),
    while every other key is answered by [get] as before. *)
Theorem cache_delete_forgets_one_key (ttlSeconds capacity : Z)
    (rs : list (Request V)) (key : string) (now : Z) :
  let c := serveAll rs (new ttlSeconds capacity) in
  let c' := (delete key c).2 in
  (get key now c').1 = None
  ∧ (has key now c').1 = false
  ∧ (delete key c').1 = false
  ∧ forall k, k ≠ key -> (get k now c').1 = (get k now c).1.
Proof.
  intros c c'.
  destruct (serveAll_wf rs (new ttlSeconds capacity) (new_wf ttlSeconds capacity))
    as [Hnd _].
  fold c in Hnd.
  assert (Hgone : mapGet key (cache c') = None)
    by (apply mapGet_mapDelete_eq, Hnd).
  split; [rewrite get_answer, Hgone; reflexivity|].
  split; [rewrite has_answer, Hgone; reflexivity|].
  split; [cbn; unfold mapHas; cbn in Hgone; rewrite Hgone; reflexivity|].
  intros k Hk. rewrite !get_answer. cbn [delete snd cache c'].
  unfold c'. cbn. rewrite (mapGet_mapDelete_ne _ _ _ Hk). reflexivity.
Qed.

(** X15. [has] and [get] agree: [has] answers true exactly when [get] at the
    same instant returns a value, and both remove an expired entry in the
    same way; but [has] counts neither a hit nor a miss. *)
Theorem cache_has_agrees_with_get key now c :
  ((has key now c).1 = true <-> is_Some (get key now c).1)
  ∧ cache (has key now c).2 = cache (get key now c).2
  ∧ size (stats (has key now c).2) = size (stats (get key now c).2)
  ∧ hits (stats (has key now c).2) = hits (stats c)
  ∧ misses (stats (has key now c).2) = misses (stats c).
Proof.
  unfold has, get. destruct (mapGet key (cache c)) as [e|]; cbn.
  - destruct (expiresAt e <? now); cbn; repeat split; auto;
      try discriminate; intros [? ?]; discriminate.
  - repeat split; auto; try discriminate. intros [? ?]; discriminate.
Qed.

(** X16. The periodic sweep is invisible to readers: on any cache obtained
    from a new one it keeps exactly the entries that have not expired at the
    time of the sweep, and a [get] made at that time or later returns the
    same with or without it. *)
Theorem cache_sweep_transparent (ttlSeconds capacity : Z)
    (rs : list (Request V)) (key : string) (now now' : Z) :
  now <= now' ->
  let c := serveAll rs (new ttlSeconds capacity) in
  (forall k e,
      mapGet k (cache (sweep now c)) = Some e
      <-> mapGet k (cache c) = Some e ∧ ¬ (expiresAt e < now))
  ∧ (get key now' (sweep now c)).1 = (get key now' c).1.
Proof.
  intros Hle c.
  destruct (serveAll_wf rs (new ttlSeconds capacity) (new_wf ttlSeconds capacity))
    as [Hnd _].
  fold c in Hnd.
  assert (Hsweep : forall k,
    mapGet k (cache (sweep now c))
    = match mapGet k (cache c) with
      | Some e => if negb (expiresAt e <? now) then Some e else None
      | None => None
      end).
  { intros k. cbn [sweep cache].
    apply (mapGet_filter (fun e => negb (expiresAt e <? now)) k _ Hnd). }
  split.
  - intros k e. rewrite Hsweep.
    destruct (mapGet k (cache c)) as [e0|]; [|split; [discriminate|intros [? _]; discriminate]].
    destruct (Z.ltb_spec (expiresAt e0) now) as [Hexp|Hlive]; cbn.
    + split; [discriminate|]. intros [Heq Hn]. inversion Heq; subst. lia.
    + split; [intros Heq; inversion Heq; subst; split; [reflexivity|lia]|].
      intros [Heq _]. exact Heq.
  - rewrite !get_answer, Hsweep.
    destruct (mapGet key (cache c)) as [e0|]; [|reflexivity].
    destruct (Z.ltb_spec (expiresAt e0) now) as [Hexp|Hlive]; cbn; [|reflexivity].
    assert ((expiresAt e0 <? now') = true) as -> by (apply Z.ltb_lt; lia).
    reflexivity.
Qed.

End CacheOperations.

Lemma cache_sweep_transparent_witness :
  let c : InMemoryCache.t nat :=
    CacheApi.serveAll
      [CacheApi.DoSet "A" 1%nat (Some 100) 0; CacheApi.DoSet "B" 2%nat None 0]
      (InMemoryCache.new 5 3) in
  (InMemoryCache.get "A" 600 (InMemoryCache.sweep 500 c)).1
  = (InMemoryCache.get "A" 600 c).1.
Proof.
  intros c.
  apply (cache_sweep_transparent 5 3
           [CacheApi.DoSet "A" 1%nat (Some 100) 0; CacheApi.DoSet "B" 2%nat None 0]
           "A" 500 600).
  lia.
Defined.

Section CacheRoundTripMore.
Import InMemoryCache CacheApi.
Context {V : Type}.
Implicit Types (c : InMemoryCache.t V).

Lemma serveAll_config (rs : list (Request V)) :
  forall c,
    maxSize (serveAll rs c) = maxSize c
    ∧ defaultTTL (serveAll rs c) = defaultTTL c.
Proof.
  induction rs as [|r rest IH]; intros c; [split; reflexivity|].
  cbn. destruct (IH (serve r c)) as [H1 H2].
  destruct (serve_config r c) as [H3 H4].
  unfold serveAll in *. split; congruence.
Qed.

(** X28. The round trip of [set] and [get], on any cache obtained from a new
    one. The entry lives for the [ttl] argument taken as a number of
    milliseconds, or, when the argument is missing or 0, for the default
    given to the constructor in seconds. Up to and including the instant of
    expiry [get] returns the value that was set and counts a hit; after it
    [get] returns nothing, counts a miss and removes the entry. *)
Theorem cache_round_trip (ttlSeconds capacity : Z) (rs : list (Request V))
    (key : string) (v : V) (ttl : option Z) (now now' : Z) :
  let c1 := set key v ttl now (serveAll rs (new ttlSeconds capacity)) in
  let expires := now + Js.orNumOpt ttl (ttlSeconds * 1000) in
  (now' <= expires ->
   (get key now' c1).1 = Some v
   ∧ hits (stats (get key now' c1).2) = hits (stats c1) + 1
   ∧ misses (stats (get key now' c1).2) = misses (stats c1)
   ∧ cache (get key now' c1).2 = cache c1)
  ∧ (expires < now' ->
     (get key now' c1).1 = None
     ∧ hits (stats (get key now' c1).2) = hits (stats c1)
     ∧ misses (stats (get key now' c1).2) = misses (stats c1) + 1
     ∧ mapGet key (cache (get key now' c1).2) = None).
Proof.
  intros c1 expires.
  set (c := serveAll rs (new ttlSeconds capacity)) in *.
  destruct (serveAll_wf rs (new ttlSeconds capacity) (new_wf ttlSeconds capacity))
    as [Hnd _].
  fold c in Hnd.
  assert (Httl : defaultTTL c = ttlSeconds * 1000)
    by apply (serveAll_config rs (new ttlSeconds capacity)).
  assert (Hget : mapGet key (cache c1) = Some (mkEntry v expires)).
  { unfold c1, set, expires. cbn [cache]. rewrite Httl. apply mapGet_mapSet_eq. }
  split; intros Hcmp; unfold get; rewrite Hget; cbn [expiresAt value].
  - assert ((expires <? now') = false) as -> by (apply Z.ltb_ge; lia).
    cbn. repeat split.
  - assert ((expires <? now') = true) as -> by (apply Z.ltb_lt; lia).
    cbn. repeat split.
    apply mapGet_mapDelete_eq. apply (set_NoDup key v ttl now c Hnd).
Qed.

End CacheRoundTripMore.

(** ** Cache: the bound on the size and eviction, with any TTL *)

Section JsNumberFacts.
Import JsNumber.

Lemma js_lt_trans (a b c : JsNumber.t) :
  lt a b = true -> lt b c = true -> lt a c = true.
Proof.
  destruct a as [x| | |], b as [y| | |], c as [z| | |]; cbn;
    try congruence; rewrite !Z.ltb_lt; lia.
Qed.

(** An entry that is passed over while a smaller one is still to come. *)
Lemma js_lt_passed_over (e e1 t0 : JsNumber.t) :
  lt e t0 = true -> lt e1 t0 = false -> e1 = NaN ∨ lt e e1 = true.
Proof.
  destruct e as [x| | |], e1 as [y| | |], t0 as [z| | |]; cbn;
    try congruence; auto; rewrite ?Z.ltb_lt, ?Z.ltb_ge; intros; right; lia.
Qed.

End JsNumberFacts.

Section JsMapMore.
Import InMemoryCache.
Context {E : Type}.
Implicit Types (m : list (string * E)) (k : string).

Lemma mapHas_absent k m : mapHas k m = false <-> k ∉ m.*1.
Proof.
  unfold mapHas. rewrite <- mapGet_None.
  destruct (mapGet k m); split; congruence.
Qed.

Lemma mapDelete_sublist k m : sublist (mapDelete k m) m.
Proof.
  induction m as [|[k' v'] rest IH]; cbn; [constructor|].
  destruct (String.eqb k k'); [apply sublist_cons; reflexivity|].
  apply sublist_skip, IH.
Qed.

Lemma filter_sublist (P : string * E -> bool) m : sublist (List.filter P m) m.
Proof.
  induction m as [|kv rest IH]; cbn; [constructor|].
  destruct (P kv); [apply sublist_skip|apply sublist_cons]; exact IH.
Qed.



Lemma absent_without k k' (v : E) (pre post : list (string * E)) :
  k ∉ (pre ++ (k', v) :: post).*1 -> k ∉ (pre ++ post).*1.
Proof.
  rewrite !fmap_app. cbn. intros Hn Hin. apply Hn.
  apply elem_of_app in Hin. apply elem_of_app.
  destruct Hin as [?|?]; [left; assumption|right].
  apply elem_of_cons. right. assumption.
Qed.

End JsMapMore.

(** On integers the cache with JavaScript numbers is the cache of the
    module [InMemoryCache]. *)
Section CacheOnIntegers.
Import InMemoryCache.
Context {V : Type}.
Implicit Types (c : InMemoryCache.t V)
  (m : list (string * InMemoryCache.CacheEntry V)).

Local Abbreviation ofEntry := (@InMemoryCacheJs.ofEntry V).
Local Abbreviation ofEntries := (@InMemoryCacheJs.ofEntries V).
Local Abbreviation ofCache := (@InMemoryCacheJs.ofCache V).

Lemma mapGet_ofEntries k m :
  mapGet k (ofEntries m) = option_map ofEntry (mapGet k m).
Proof.
  induction m as [|[k' e] rest IH]; cbn; [reflexivity|].
  destruct (String.eqb k k'); [reflexivity|exact IH].
Qed.

Lemma mapHas_ofEntries k m : mapHas k (ofEntries m) = mapHas k m.
Proof.
  unfold mapHas. rewrite mapGet_ofEntries. destruct (mapGet k m); reflexivity.
Qed.

Lemma mapDelete_ofEntries k m :
  mapDelete k (ofEntries m) = ofEntries (mapDelete k m).
Proof.
  induction m as [|[k' e] rest IH]; cbn; [reflexivity|].
  destruct (String.eqb k k'); [reflexivity|]. cbn. f_equal. exact IH.
Qed.

Lemma mapSet_ofEntries k e m :
  mapSet k (ofEntry e) (ofEntries m) = ofEntries (mapSet k e m).
Proof.
  induction m as [|[k' e'] rest IH]; cbn; [reflexivity|].
  destruct (String.eqb k k'); [reflexivity|]. cbn. f_equal. exact IH.
Qed.

Lemma mapSize_ofEntries m : mapSize (ofEntries m) = mapSize m.
Proof. unfold mapSize, InMemoryCacheJs.ofEntries. rewrite length_map. reflexivity. Qed.

Lemma findOldest_ofEntries m :
  forall k0 t0,
    InMemoryCacheJs.findOldest (ofEntries m) k0
      (match t0 with Some z => JsNumber.Int z | None => JsNumber.Infinity end)
    = findOldest m k0 t0.
Proof.
  induction m as [|[k e] rest IH]; intros k0 t0; cbn; [reflexivity|].
  destruct t0 as [z|]; cbn.
  - destruct (expiresAt e <? z); [apply (IH (Some k) (Some (expiresAt e)))|].
    apply (IH k0 (Some z)).
  - apply (IH (Some k) (Some (expiresAt e))).
Qed.

Lemma evictOldest_ofEntries m :
  InMemoryCacheJs.evictOldest (ofEntries m) = ofEntries (evictOldest m).
Proof.
  unfold InMemoryCacheJs.evictOldest, evictOldest.
  rewrite (findOldest_ofEntries m None None).
  destruct (findOldest m None None) as [k|]; [|reflexivity].
  destruct (String.eqb k ""); [reflexivity|apply mapDelete_ofEntries].
Qed.

Lemma filter_ofEntries now m :
  List.filter (fun kv => negb (InMemoryCacheJs.expired kv.2 now)) (ofEntries m)
  = ofEntries (List.filter (fun kv => negb (expiresAt kv.2 <? now)) m).
Proof.
  induction m as [|[k e] rest IH]; cbn; [reflexivity|].
  unfold InMemoryCacheJs.expired at 1. cbn.
  destruct (expiresAt e <? now); cbn; [exact IH|]. f_equal. exact IH.
Qed.

(** Every operation on integers gives the same answer and leaves the same
    cache in both. *)
Lemma serve_ofCache (r : CacheApi.Request V) c :
  InMemoryCacheJs.serve (InMemoryCacheJs.ofRequest r) (ofCache c)
  = ofCache (CacheApi.serve r c).
Proof.
  destruct r as [key now|key v ttl now|key|key now| |now];
    cbn [CacheApi.serve InMemoryCacheJs.serve InMemoryCacheJs.ofRequest].
  - unfold InMemoryCacheJs.get, get, InMemoryCacheJs.ofCache.
    cbn [InMemoryCacheJs.cache InMemoryCacheJs.stats InMemoryCacheJs.defaultTTL
         InMemoryCacheJs.maxSize].
    rewrite mapGet_ofEntries. destruct (mapGet key (cache c)) as [e|]; cbn;
      [|reflexivity].
    unfold InMemoryCacheJs.expired. cbn.
    destruct (expiresAt e <? now); cbn; [|reflexivity].
    rewrite mapDelete_ofEntries, mapSize_ofEntries. reflexivity.
  - unfold InMemoryCacheJs.set, set, InMemoryCacheJs.ofCache.
    cbn [InMemoryCacheJs.cache InMemoryCacheJs.stats InMemoryCacheJs.defaultTTL
         InMemoryCacheJs.maxSize cache stats defaultTTL maxSize].
    rewrite mapSize_ofEntries, mapHas_ofEntries.
    assert (Hexp :
      InMemoryCacheJs.mkEntry v
        (JsNumber.plus now
           (JsNumber.orElse (option_map JsNumber.Int ttl)
              (JsNumber.Int (defaultTTL c))))
      = ofEntry (mkEntry v (now + Js.orNumOpt ttl (defaultTTL c)))).
    { unfold InMemoryCacheJs.ofEntry, Js.orNumOpt, Js.orNum. cbn.
      destruct ttl as [z|]; cbn; [destruct (z =? 0)|]; reflexivity. }
    rewrite Hexp.
    destruct ((maxSize c <=? mapSize (cache c)) && negb (mapHas key (cache c)));
      rewrite ?evictOldest_ofEntries, mapSet_ofEntries, mapSize_ofEntries;
      reflexivity.
  - unfold InMemoryCacheJs.delete, delete, InMemoryCacheJs.ofCache. cbn.
    rewrite mapDelete_ofEntries, mapSize_ofEntries. reflexivity.
  - unfold InMemoryCacheJs.has, has.
    change (InMemoryCacheJs.cache (ofCache c)) with (ofEntries (cache c)).
    rewrite mapGet_ofEntries. destruct (mapGet key (cache c)) as [e|]; cbn;
      [|reflexivity].
    unfold InMemoryCacheJs.expired. cbn.
    destruct (expiresAt e <? now); cbn; [|reflexivity].
    unfold InMemoryCacheJs.ofCache. cbn.
    rewrite mapDelete_ofEntries, mapSize_ofEntries. reflexivity.
  - reflexivity.
  - unfold InMemoryCacheJs.sweep, sweep, InMemoryCacheJs.ofCache. cbn.
    rewrite filter_ofEntries, mapSize_ofEntries. reflexivity.
Qed.

Lemma serveAll_ofCache (rs : list (CacheApi.Request V)) :
  forall c,
    InMemoryCacheJs.serveAll (List.map InMemoryCacheJs.ofRequest rs) (ofCache c)
    = ofCache (CacheApi.serveAll rs c).
Proof.
  induction rs as [|r rest IH]; intros c; [reflexivity|].
  cbn. rewrite serve_ofCache. apply IH.
Qed.

Lemma new_ofCache (defaultTTL maxSize : Z) :
  InMemoryCacheJs.new (JsNumber.Int defaultTTL) maxSize
  = ofCache (new defaultTTL maxSize).
Proof. reflexivity. Qed.

End CacheOnIntegers.

Section CacheJsFacts.
Import InMemoryCache InMemoryCacheJs.
Context {V : Type}.
Implicit Types (c : InMemoryCacheJs.t V)
  (m : list (string * InMemoryCacheJs.CacheEntry V)).

(** The loop of [evictOldest] from a candidate [k0] with time [t0]: either
    no entry is below [t0] and the candidate stays, or the loop ends on the
    first entry with the least time among those below [t0]. *)
Lemma findOldest_js_from m :
  forall k0 t0,
    (Forall (fun x => JsNumber.lt (expiresAt x.2) t0 = false) m
     ∧ findOldest m k0 t0 = k0)
    ∨ (∃ pre k e post,
          m = pre ++ (k, e) :: post
          ∧ findOldest m k0 t0 = Some k
          ∧ JsNumber.lt (expiresAt e) t0 = true
          ∧ Forall (fun x => expiresAt x.2 = JsNumber.NaN
                             ∨ JsNumber.lt (expiresAt e) (expiresAt x.2) = true)
              pre
          ∧ Forall (fun x => JsNumber.lt (expiresAt x.2) (expiresAt e) = false)
              post).
Proof.
  induction m as [|[k1 e1] rest IH]; intros k0 t0.
  - left. split; [constructor|reflexivity].
  - cbn [findOldest]. destruct (JsNumber.lt (expiresAt e1) t0) eqn:Hlt.
    + right. destruct (IH (Some k1) (expiresAt e1))
        as [[Hall Hres] | (pre & k & e & post & -> & Hres & Hlt' & Hpre & Hpost)].
      * exists [], k1, e1, rest.
        exact (conj eq_refl (conj Hres (conj Hlt (conj (Forall_nil_2 _) Hall)))).
      * exists ((k1, e1) :: pre), k, e, post.
        refine (conj eq_refl (conj Hres (conj _ (conj _ Hpost)))).
        -- exact (js_lt_trans _ _ _ Hlt' Hlt).
        -- constructor; [right; exact Hlt'|exact Hpre].
    + destruct (IH k0 t0)
        as [[Hall Hres] | (pre & k & e & post & -> & Hres & Hlt' & Hpre & Hpost)].
      * left. split; [constructor; [exact Hlt|exact Hall]|exact Hres].
      * right. exists ((k1, e1) :: pre), k, e, post.
        refine (conj eq_refl (conj Hres (conj Hlt' (conj _ Hpost)))).
        constructor; [exact (js_lt_passed_over _ _ _ Hlt' Hlt)|exact Hpre].
Qed.

(** [evictOldest] picks nothing when no time of expiry is below [Infinity];
    otherwise it picks the first entry with the least such time. *)
Lemma findOldest_js_spec m :
  (Forall neverPicked m ∧ findOldest m None JsNumber.Infinity = None)
  ∨ (∃ pre k e post,
        oldest m pre k e post
        ∧ findOldest m None JsNumber.Infinity = Some k).
Proof.
  destruct (findOldest_js_from m None JsNumber.Infinity)
    as [[Hall Hres] | (pre & k & e & post & Hm & Hres & Hlt & Hpre & Hpost)].
  - left. split; assumption.
  - right. exists pre, k, e, post. split; [|exact Hres].
    exact (conj Hm (conj Hlt (conj Hpre Hpost))).
Qed.

Lemma evictOldest_sublist m : sublist (evictOldest m) m.
Proof.
  unfold evictOldest. destruct (findOldest m None JsNumber.Infinity) as [k|];
    [|reflexivity].
  destruct (String.eqb k ""); [reflexivity|apply mapDelete_sublist].
Qed.

Lemma serve_js_config (r : Request V) c :
  maxSize (serve r c) = maxSize c ∧ defaultTTL (serve r c) = defaultTTL c.
Proof.
  destruct r as [key now|key v ttl now|key|key now| |now]; cbn [serve];
    try (split; reflexivity).
  - unfold get. destruct (mapGet key (cache c)) as [e|]; [|split; reflexivity].
    destruct (expired e now); split; reflexivity.
  - unfold has. destruct (mapGet key (cache c)) as [e|]; [|split; reflexivity].
    destruct (expired e now); split; reflexivity.
Qed.

(** Apart from [set], no operation adds or changes an entry. *)
Lemma serve_js_sublist (r : Request V) c :
  writtenKey r = None -> sublist (cache (serve r c)) (cache c).
Proof.
  destruct r as [key now|key v ttl now|key|key now| |now];
    cbn [serve writtenKey]; intros Hw; try discriminate.
  - unfold get. destruct (mapGet key (cache c)) as [e|]; cbn; [|reflexivity].
    destruct (expired e now); cbn; [apply mapDelete_sublist|reflexivity].
  - cbn. apply mapDelete_sublist.
  - unfold has. destruct (mapGet key (cache c)) as [e|]; cbn; [|reflexivity].
    destruct (expired e now); cbn; [apply mapDelete_sublist|reflexivity].
  - cbn. apply sublist_nil_l.
  - cbn. apply filter_sublist.
Qed.

(** Every operation keeps the keys distinct. *)
Lemma serve_js_NoDup (r : Request V) c :
  NoDup (cache c).*1 -> NoDup (cache (serve r c)).*1.
Proof.
  intros Hnd. destruct (writtenKey r) as [key|] eqn:Hw.
  - destruct r as [|key' v ttl now| | | |]; try discriminate.
    cbn [serve]. unfold set. cbn [cache]. apply mapSet_NoDup.
    destruct (_ && _); [|exact Hnd].
    exact (sublist_NoDup _ _ Hnd (fmap_sublist fst _ _ (evictOldest_sublist _))).
  - exact (sublist_NoDup _ _ Hnd (fmap_sublist fst _ _ (serve_js_sublist r c Hw))).
Qed.

Lemma serveAll_js_NoDup (rs : list (Request V)) :
  forall c, NoDup (cache c).*1 -> NoDup (cache (serveAll rs c)).*1.
Proof.
  induction rs as [|r rest IH]; intros c Hnd; [exact Hnd|].
  cbn. apply IH, serve_js_NoDup, Hnd.
Qed.

Lemma serveAll_js_config (rs : list (Request V)) :
  forall c,
    maxSize (serveAll rs c) = maxSize c
    ∧ defaultTTL (serveAll rs c) = defaultTTL c.
Proof.
  induction rs as [|r rest IH]; intros c; [split; reflexivity|].
  cbn [serveAll fold_left]. destruct (IH (serve r c)) as [H1 H2].
  unfold serveAll in H1, H2. rewrite H1, H2. apply serve_js_config.
Qed.

(** [set] with a new key on a full cache with distinct keys. *)
Lemma set_js_full key v ttl now c :
  NoDup (cache c).*1 ->
  maxSize c <= mapSize (cache c) ->
  mapHas key (cache c) = false ->
  let entry :=
    mkEntry v (JsNumber.plus now (JsNumber.orElse ttl (defaultTTL c))) in
  let c' := set key v ttl now c in
  (Forall neverPicked (cache c)
   ∧ cache c' = cache c ++ [(key, entry)]
   ∧ size (getStats c') = mapSize (cache c) + 1)
  ∨ (∃ pre k e post,
        oldest (cache c) pre k e post
        ∧ (k ≠ "" ->
           cache c' = pre ++ post ++ [(key, entry)]
           ∧ size (getStats c') = mapSize (cache c))
        ∧ (k = "" ->
           cache c' = cache c ++ [(key, entry)]
           ∧ size (getStats c') = mapSize (cache c) + 1)).
Proof.
  intros Hnd Hfull Hhas entry c'.
  assert (Habs : key ∉ (cache c).*1) by (apply mapHas_absent, Hhas).
  assert (Hc' : cache c' = mapSet key entry (evictOldest (cache c))
                ∧ size (getStats c') = mapSize (cache c')).
  { unfold c', set. rewrite Hhas. cbn [negb].
    assert ((maxSize c <=? mapSize (cache c)) = true) as ->
      by (apply Z.leb_le; lia).
    split; reflexivity. }
  destruct Hc' as [Hcache Hsize]. rewrite Hsize, Hcache.
  assert (Hgrow : mapSet key entry (cache c) = cache c ++ [(key, entry)]
                  ∧ mapSize (cache c ++ [(key, entry)]) = mapSize (cache c) + 1).
  { split; [apply mapSet_keys_absent, Habs|].
    unfold mapSize. rewrite length_app. cbn [length]. lia. }
  destruct Hgrow as [Hset Hlen].
  unfold evictOldest.
  destruct (findOldest_js_spec (cache c))
    as [[Hall ->] | (pre & k & e & post & Hold & ->)].
  - left. rewrite Hset. auto.
  - right. exists pre, k, e, post. split; [exact Hold|].
    destruct Hold as (Hc & _). split; intros Hk.
    + destruct (String.eqb_spec k ""); [congruence|].
      rewrite Hc in Hnd, Habs |- *. rewrite (mapDelete_split _ _ _ _ Hnd).
      rewrite (mapSet_keys_absent _ _ _ (absent_without _ _ _ _ _ Habs)).
      rewrite <- app_assoc. split; [reflexivity|].
      unfold mapSize. rewrite !length_app. cbn [length]. lia.
    + subst k. cbn [String.eqb]. rewrite Hset. auto.
Qed.



(** X29. Eviction, on any cache obtained from a new one, whatever the TTLs.
    When the cache is full and [set] brings a new key, [evictOldest] looks
    at the entries whose time of expiry is below [Infinity]. If there is
    none (every entry was stored with TTL [Infinity], or its time is [NaN]),
    nothing is removed and the cache grows by one. Otherwise the entry
    picked is the one with the least time of expiry, the first inserted
    among several with that time; when its key is not the empty string, that
    entry and no other is removed, the new entry goes last and the size is
    what it was; when its key is the empty string, nothing is removed and
    the cache grows by one. *)
Theorem cache_evicts_earliest_expiry (ttlSeconds : JsNumber.t) (capacity : Z)
    (rs : list (Request V)) (key : string) (v : V) (ttl : option JsNumber.t)
    (now : Z) :
  let c := serveAll rs (new ttlSeconds capacity) in
  let entry :=
    mkEntry v (JsNumber.plus now (JsNumber.orElse ttl (defaultTTL c))) in
  let c' := set key v ttl now c in
  capacity <= mapSize (cache c) ->
  mapHas key (cache c) = false ->
  (Forall neverPicked (cache c)
   ∧ cache c' = cache c ++ [(key, entry)]
   ∧ size (getStats c') = mapSize (cache c) + 1)
  ∨ (∃ pre k e post,
        oldest (cache c) pre k e post
        ∧ (k ≠ "" ->
           cache c' = pre ++ post ++ [(key, entry)]
           ∧ size (getStats c') = mapSize (cache c))
        ∧ (k = "" ->
           cache c' = cache c ++ [(key, entry)]
           ∧ size (getStats c') = mapSize (cache c) + 1)).
Proof.
  intros c entry c' Hfull Hhas.
  apply set_js_full; [| |exact Hhas].
  - apply serveAll_js_NoDup. constructor.
  - unfold c. rewrite (proj1 (serveAll_js_config rs _)). exact Hfull.
Qed.

End CacheJsFacts.


(** Three entries, the first stored for ever: the one picked is "C", whose
    time of expiry, 102, is the least of those below [Infinity]. *)
Lemma cache_evicts_earliest_expiry_witness :
  let c :=
    InMemoryCacheJs.serveAll
      [InMemoryCacheJs.DoSet "A" 1%nat (Some JsNumber.Infinity) 0;
       InMemoryCacheJs.DoSet "B" 2%nat None 1;
       InMemoryCacheJs.DoSet "C" 3%nat (Some (JsNumber.Int 100)) 2]
      (InMemoryCacheJs.new (JsNumber.Int 5) 3) in
  let entry := InMemoryCacheJs.mkEntry 4%nat (JsNumber.Int 5004) in
  let c' := InMemoryCacheJs.set "D" 4%nat None 4 c in
  (Forall InMemoryCacheJs.neverPicked (InMemoryCacheJs.cache c)
   ∧ InMemoryCacheJs.cache c' = InMemoryCacheJs.cache c ++ [("D", entry)]
   ∧ InMemoryCache.size (InMemoryCacheJs.getStats c')
     = InMemoryCache.mapSize (InMemoryCacheJs.cache c) + 1)
  ∨ (∃ pre k e post,
        InMemoryCacheJs.oldest (InMemoryCacheJs.cache c) pre k e post
        ∧ (k ≠ "" ->
           InMemoryCacheJs.cache c' = pre ++ post ++ [("D", entry)]
           ∧ InMemoryCache.size (InMemoryCacheJs.getStats c')
             = InMemoryCache.mapSize (InMemoryCacheJs.cache c))
        ∧ (k = "" ->
           InMemoryCacheJs.cache c' = InMemoryCacheJs.cache c ++ [("D", entry)]
           ∧ InMemoryCache.size (InMemoryCacheJs.getStats c')
             = InMemoryCache.mapSize (InMemoryCacheJs.cache c) + 1)).
Proof.
  intros c entry c'.
  apply (cache_evicts_earliest_expiry (JsNumber.Int 5) 3
           [InMemoryCacheJs.DoSet "A" 1%nat (Some JsNumber.Infinity) 0;
            InMemoryCacheJs.DoSet "B" 2%nat None 1;
            InMemoryCacheJs.DoSet "C" 3%nat (Some (JsNumber.Int 100)) 2]
           "D" 4%nat None 4).
  - apply Z.leb_le. vm_compute. reflexivity.
  - reflexivity.
Defined.

(** The same three entries and the new one, computed: "C" is gone, "A" stays
    although it is the oldest. A cache for one entry whose entries are
    stored for ever grows with every new key. *)
Example cache_eviction_with_infinite_ttl :
  let forever := Some JsNumber.Infinity in
  let c :=
    InMemoryCacheJs.serveAll
      [InMemoryCacheJs.DoSet "A" 1%nat forever 0;
       InMemoryCacheJs.DoSet "B" 2%nat None 1;
       InMemoryCacheJs.DoSet "C" 3%nat (Some (JsNumber.Int 100)) 2;
       InMemoryCacheJs.DoSet "D" 4%nat None 4]
      (InMemoryCacheJs.new (JsNumber.Int 5) 3) in
  let grown :=
    InMemoryCacheJs.serveAll
      [InMemoryCacheJs.DoSet "a" 1%nat forever 0;
       InMemoryCacheJs.DoSet "b" 2%nat forever 1]
      (InMemoryCacheJs.new (JsNumber.Int 300) 1) in
  (InMemoryCacheJs.cache c).*1 = ["A"; "B"; "D"]
  ∧ (InMemoryCacheJs.cache grown).*1 = ["a"; "b"]
  ∧ InMemoryCache.size (InMemoryCacheJs.getStats grown) = 2.
Proof. vm_compute. repeat split. Qed.

(** ** Cache helpers: invalidation and the [cached] wrapper *)

Section CacheHelpers.
Import Js InMemoryCache CacheApi.
Context {V : Type}.
Implicit Types (c : InMemoryCache.t V).

(** X17. [invalidateUserCache] on any cache obtained from a new one: the
    profile and the links of that user are gone, while the profile and links
    of every other user and every public page are answered as before. *)
Theorem invalidate_user_cache_scope (ttlSeconds capacity : Z)
    (rs : list (Request V)) (userId : string) (now : Z) :
  let c := serveAll rs (new ttlSeconds capacity) in
  let c' := invalidateUserCache userId c in
  (getCachedUserProfile userId now c').1 = None
  ∧ (getCachedUserLinks userId now c').1 = None
  ∧ (forall username,
        (getCachedPublicPage username now c').1
        = (getCachedPublicPage username now c).1)
  ∧ (forall other, other ≠ userId ->
        (getCachedUserProfile other now c').1
        = (getCachedUserProfile other now c).1
        ∧ (getCachedUserLinks other now c').1
          = (getCachedUserLinks other now c).1).
Proof.
  intros c c'.
  destruct (serveAll_wf rs (new ttlSeconds capacity) (new_wf ttlSeconds capacity))
    as [Hnd _].
  fold c in Hnd.
  assert (Hcache : cache c'
    = mapDelete ("links:" +:+ userId) (mapDelete ("user:" +:+ userId) (cache c)))
    by reflexivity.
  assert (Hul : "user:" +:+ userId ≠ "links:" +:+ userId) by (cbn; discriminate).
  unfold getCachedUserProfile, getCachedUserLinks, getCachedPublicPage.
  split; [|split; [|split]].
  - rewrite get_answer, Hcache, (mapGet_mapDelete_ne _ _ _ Hul),
      (mapGet_mapDelete_eq _ _ Hnd). reflexivity.
  - rewrite get_answer, Hcache, mapGet_mapDelete_eq; [reflexivity|].
    apply mapDelete_NoDup, Hnd.
  - intros username. rewrite !get_answer, Hcache.
    rewrite !mapGet_mapDelete_ne by (cbn; discriminate). reflexivity.
  - intros other Hother. split; rewrite !get_answer, Hcache.
    + rewrite mapGet_mapDelete_ne by (cbn; discriminate).
      rewrite mapGet_mapDelete_ne; [reflexivity|].
      intros Heq. apply Hother. exact (inj (String.app "user:") _ _ Heq).
    + rewrite mapGet_mapDelete_ne.
      * rewrite mapGet_mapDelete_ne by (cbn; discriminate). reflexivity.
      * intros Heq. apply Hother. exact (inj (String.app "links:") _ _ Heq).
Qed.

(** X18. A method wrapped by [cached]. When nothing is stored under its key
    and the method fulfils with [v], the call returns [v], having called the
    method once. If [v] is not [null], every call with the same arguments up
    to the expiry of the stored entry returns [v] at once, counts a hit and
    does not call the method; if [v] is [null], the next call calls the
    method again, although the entry is stored. *)
Theorem cached_method_is_memoized {W : Type} (isNull : V -> bool)
    (keyPrefix argsJson : string) (ttl : option Z) (method : Op W V)
    (now d : Z) (v : V) c (w w' : W) :
  mapGet (keyPrefix +:+ ":" +:+ argsJson +:+ "}") (cache c) = None ->
  method w = (SettlesAfter d (Fulfilled v), w') ->
  ∃ c1,
    cachedCall isNull keyPrefix ttl method argsJson now c w
    = Some (Fulfilled v, now + d, c1, w')
    ∧ (isNull v = false ->
       forall (again : Op W V) now2 w2,
         now2 <= now + d + orNumOpt ttl (defaultTTL c) ->
         ∃ c2,
           cachedCall isNull keyPrefix ttl again argsJson now2 c1 w2
           = Some (Fulfilled v, now2, c2, w2)
           ∧ hits (stats c2) = hits (stats c1) + 1)
    ∧ (isNull v = true ->
       forall (again : Op W V) now2 w2 d2 v2 w2',
         again w2 = (SettlesAfter d2 (Fulfilled v2), w2') ->
         ∃ c2,
           cachedCall isNull keyPrefix ttl again argsJson now2 c1 w2
           = Some (Fulfilled v2, now2 + d2, c2, w2')).
Proof.
  intros Hnone Hm.
  set (key := keyPrefix +:+ ":" +:+ argsJson +:+ "}") in *.
  set (c0 := (get key now c).2).
  exists (set key v ttl (now + d) c0).
  assert (Hfirst : get key now c = (None, c0)).
  { unfold c0, get. rewrite Hnone. reflexivity. }
  assert (Httl : defaultTTL c0 = defaultTTL c).
  { unfold c0, get. rewrite Hnone. reflexivity. }
  assert (Hstored : mapGet key (cache (set key v ttl (now + d) c0))
                    = Some (mkEntry v (now + d + orNumOpt ttl (defaultTTL c)))).
  { unfold set. cbn [cache]. rewrite Httl. apply mapGet_mapSet_eq. }
  split; [|split].
  - unfold cachedCall. fold key. rewrite Hfirst, Hm. reflexivity.
  - intros Hnull again now2 w2 Hlive.
    eexists. unfold cachedCall. fold key. unfold get at 1. rewrite Hstored.
    cbn [expiresAt value].
    assert ((now + d + orNumOpt ttl (defaultTTL c) <? now2) = false) as ->
      by (apply Z.ltb_ge; lia).
    rewrite Hnull. split; reflexivity.
  - intros Hnull again now2 w2 d2 v2 w2' Hagain.
    unfold cachedCall. fold key. unfold get at 1. rewrite Hstored.
    cbn [expiresAt value].
    destruct (_ <? now2); [|rewrite Hnull]; rewrite Hagain; eexists; reflexivity.
Qed.

End CacheHelpers.

Lemma cached_method_is_memoized_witness :
  let isNull : option nat -> bool :=
    fun o => match o with None => true | Some _ => false end in
  let method : Js.Op nat (option nat) :=
    fun calls => (Js.SettlesAfter 40 (Js.Fulfilled (Some 7%nat)), S calls) in
  let c : InMemoryCache.t (option nat) := InMemoryCache.new 300 1000 in
  ∃ c1,
    CacheApi.cachedCall isNull "links" None method "[1]" 0 c 0%nat
    = Some (Js.Fulfilled (Some 7%nat), 40, c1, 1%nat)
    ∧ ∃ c2,
        CacheApi.cachedCall isNull "links" None method "[1]" 1000 c1 1%nat
        = Some (Js.Fulfilled (Some 7%nat), 1000, c2, 1%nat).
Proof.
  intros isNull method c.
  destruct (cached_method_is_memoized isNull "links" "[1]" None method 0 40
              (Some 7%nat) c 0%nat 1%nat)
    as (c1 & Hfirst & Hhit & _).
  - reflexivity.
  - reflexivity.
  - exists c1. split; [exact Hfirst|].
    destruct (Hhit eq_refl method 1000 1%nat) as (c2 & Hsecond & _).
    + cbn. lia.
    + exists c2. exact Hsecond.
Defined.

(** ** Lockout tracker: what its calls do to the table *)

Section LockoutUseFacts.
Import Js AccountLockout LockoutUse.
Implicit Types (db : gmap string User.t) (email : string) (now : Z).

(** A call leaves the table as it was, or rewrites the row of its subject:
    to no failure and no lockout date, or to one failure more, with a
    lockout date exactly when the count has reached [maxAttempts]. *)
Lemma apply_shape (call : Call) db :
  apply call db = db
  ∨ ∃ u,
      db !! subject call = Some u
      ∧ (apply call db = <[subject call := User.mk (User.id u) 0 None]> db
         ∨ ∃ until,
             apply call db
             = <[subject call :=
                   User.mk (User.id u) (User.failedLoginAttempts u + 1)
                     (if Config.maxAttempts ACCOUNT_LOCKOUT_CONFIG
                         <=? User.failedLoginAttempts u + 1
                      then Some until else None)]> db).
Proof.
  destruct call as [email now|email now|email]; cbn [apply subject].
  - unfold checkAccountLockout, findUnique, update.
    destruct (db !! email) as [u|] eqn:Hu; [|left; reflexivity].
    destruct (after (User.lockoutUntil u) now); [left; reflexivity|].
    destruct (notAfter (User.lockoutUntil u) now); [|left; reflexivity].
    right. exists u. split; [reflexivity|]. left. reflexivity.
  - destruct (db !! email) as [u|] eqn:Hu.
    + right. exists u. split; [reflexivity|]. right.
      rewrite (recordFailedLoginAttempt_existing _ _ _ _ Hu). cbn [snd].
      eexists. destruct (_ <=? _); reflexivity.
    + left. rewrite (recordFailedLoginAttempt_unknown _ _ _ Hu). reflexivity.
  - unfold resetFailedLoginAttempts, update.
    destruct (db !! email) as [u|] eqn:Hu; [|left; reflexivity].
    right. exists u. split; [reflexivity|]. left. reflexivity.
Qed.

(** X19. A lock as it is seen afterwards. Once a recorded failure has brought
    an account to [maxAttempts] failures or more, [checkAccountLockout]
    reports it locked, with the date the lock ends and without touching the
    table, at every instant before that date; from that date on it reports
    the account unlocked and puts the row back to no failure and no lockout
    date. *)
Theorem lock_is_observed_until_it_ends email now t db u :
  db !! email = Some u ->
  Config.maxAttempts ACCOUNT_LOCKOUT_CONFIG <= User.failedLoginAttempts u + 1 ->
  let locked := (recordFailedLoginAttempt email now db).2 in
  let ends :=
    now + (Config.lockoutDuration ACCOUNT_LOCKOUT_CONFIG
           + (User.failedLoginAttempts u + 1
              - Config.maxAttempts ACCOUNT_LOCKOUT_CONFIG)
             * Config.incrementDuration ACCOUNT_LOCKOUT_CONFIG) in
  (t < ends ->
   ∃ s, checkAccountLockout email t locked = (Fulfilled s, locked)
        ∧ isLocked s = true ∧ lockoutUntil s = Some ends
        ∧ remainingAttempts s = 0)
  ∧ (ends <= t ->
     ∃ s, (checkAccountLockout email t locked).1 = Fulfilled s
          ∧ isLocked s = false ∧ lockoutUntil s = None
          ∧ (checkAccountLockout email t locked).2 !! email
            = Some (User.mk (User.id u) 0 None)).
Proof.
  intros Hu Hmax locked ends.
  assert (Hlocked : locked
    = <[email := User.mk (User.id u) (User.failedLoginAttempts u + 1)
                   (Some ends)]> db).
  { unfold locked. rewrite (recordFailedLoginAttempt_existing _ _ _ _ Hu).
    cbn [snd]. apply Z.leb_le in Hmax. rewrite Hmax. reflexivity. }
  assert (Hrow : locked !! email
    = Some (User.mk (User.id u) (User.failedLoginAttempts u + 1) (Some ends)))
    by (rewrite Hlocked; apply lookup_insert_eq).
  split; intros Ht.
  - eexists. unfold checkAccountLockout, findUnique. rewrite Hrow.
    cbn [User.lockoutUntil after].
    assert ((t <? ends) = true) as -> by (apply Z.ltb_lt; lia).
    repeat split.
  - rewrite (checkAccountLockout_elapsed email t locked _ ends Hrow eq_refl Ht).
    eexists. cbn [fst snd]. rewrite lookup_insert_eq. repeat split.
Qed.

(** X20. The rows stay well formed: if in every row the count is not
    negative and a lockout date is only present with at least [maxAttempts]
    failures counted, then the same holds after any sequence of status
    checks, recorded failures and recorded successes, for any accounts and
    at any times. *)
Theorem lockout_rows_stay_well_formed (calls : list Call) db :
  (forall email u, db !! email = Some u -> wellFormed u) ->
  forall email u, applyAll calls db !! email = Some u -> wellFormed u.
Proof.
  revert db. induction calls as [|call rest IH]; intros db Hwf; [exact Hwf|].
  cbn. apply IH. intros email u Hrow.
  destruct (apply_shape call db) as [Heq | (u0 & Hu0 & [Heq | (until & Heq)])];
    rewrite Heq in Hrow; [eapply Hwf; exact Hrow| |].
  - destruct (decide (subject call = email)) as [<-|Hne].
    + rewrite lookup_insert_eq in Hrow. inversion Hrow; subst.
      split; cbn; [lia|congruence].
    + rewrite lookup_insert_ne in Hrow by exact Hne. eapply Hwf; exact Hrow.
  - destruct (decide (subject call = email)) as [<-|Hne].
    + rewrite lookup_insert_eq in Hrow. inversion Hrow; subst.
      destruct (Hwf _ _ Hu0) as [Hpos _].
      split; cbn [User.failedLoginAttempts User.lockoutUntil]; [lia|].
      destruct (Z.leb_spec (Config.maxAttempts ACCOUNT_LOCKOUT_CONFIG)
                  (User.failedLoginAttempts u0 + 1));
        [intros _; assumption|congruence].
    + rewrite lookup_insert_ne in Hrow by exact Hne. eapply Hwf; exact Hrow.
Qed.

(** X21. A call of the tracker touches the row of its own account at most:
    every other row is as before, no row appears or disappears, and the id
    of a row never changes. *)
Theorem lockout_touches_one_row (call : Call) db :
  (forall other, other ≠ subject call -> apply call db !! other = db !! other)
  ∧ (forall k, apply call db !! k = None <-> db !! k = None)
  ∧ (forall k u u',
        db !! k = Some u -> apply call db !! k = Some u' ->
        User.id u' = User.id u).
Proof.
  assert (Hshape : apply call db = db
    ∨ ∃ u row, db !! subject call = Some u ∧ User.id row = User.id u
               ∧ apply call db = <[subject call := row]> db).
  { destruct (apply_shape call db)
      as [Heq | (u0 & Hu0 & [Heq | (until & Heq)])]; [left; exact Heq| |];
      right; eexists u0, _; (split; [exact Hu0|]); (split; [|exact Heq]);
      reflexivity. }
  destruct Hshape as [-> | (u0 & row & Hu0 & Hid & ->)].
  - split; [reflexivity|]. split; [reflexivity|]. intros k u u' H1 H2. congruence.
  - split; [|split].
    + intros other Hne. apply lookup_insert_ne. congruence.
    + intros k. destruct (decide (subject call = k)) as [<-|Hne].
      * rewrite lookup_insert_eq, Hu0. split; discriminate.
      * rewrite lookup_insert_ne by exact Hne. reflexivity.
    + intros k u u' H1 H2. destruct (decide (subject call = k)) as [<-|Hne].
      * rewrite lookup_insert_eq in H2. congruence.
      * rewrite lookup_insert_ne in H2 by exact Hne. congruence.
Qed.

End LockoutUseFacts.

Lemma lock_is_observed_until_it_ends_witness :
  let db : gmap string AccountLockout.User.t :=
    {[ "test@example.com" := AccountLockout.User.mk "user-123" 4 None ]} in
  let locked :=
    (AccountLockout.recordFailedLoginAttempt "test@example.com" 1000 db).2 in
  ∃ s, AccountLockout.checkAccountLockout "test@example.com" 60000 locked
       = (Js.Fulfilled s, locked)
       ∧ AccountLockout.isLocked s = true
       ∧ AccountLockout.lockoutUntil s = Some 1801000.
Proof.
  intros db locked.
  destruct (lock_is_observed_until_it_ends "test@example.com" 1000 60000 db
              (AccountLockout.User.mk "user-123" 4 None))
    as [Hbefore _].
  - reflexivity.
  - cbn. lia.
  - destruct Hbefore as (s & H1 & H2 & H3 & _); [cbn; lia|].
    exists s. exact (conj H1 (conj H2 H3)).
Defined.

Lemma lockout_rows_stay_well_formed_witness :
  let db : gmap string AccountLockout.User.t :=
    {[ "test@example.com" := AccountLockout.User.mk "user-123" 4 None ]} in
  let calls :=
    [LockoutUse.RecordFailure "test@example.com" 0;
     LockoutUse.RecordFailure "test@example.com" 10;
     LockoutUse.CheckStatus "test@example.com" 20] in
  LockoutUse.wellFormed (AccountLockout.User.mk "user-123" 6 (Some 2100010)).
Proof.
  intros db calls.
  apply (lockout_rows_stay_well_formed calls db) with (email := "test@example.com").
  - intros email u Hrow. apply lookup_singleton_Some in Hrow.
    destruct Hrow as [_ <-]. split; cbn; [lia|congruence].
  - reflexivity.
Defined.

(** ** Credentials login *)

Section AuthFacts.
Import Js AccountLockout LockoutUse Auth.
Context {C P : Type}.
Variable parse : C -> option (string * string).
Variable compare : string -> string -> bool.
Implicit Types (db : gmap string User.t) (accounts : gmap string (Account P)).

Lemma checkAccountLockout_open email now db u :
  db !! email = Some u ->
  (User.lockoutUntil u = None
   ∨ ∃ t, User.lockoutUntil u = Some t ∧ t <= now) ->
  ∃ s db1,
    checkAccountLockout email now db = (Fulfilled s, db1)
    ∧ isLocked s = false
    ∧ (db1 = db ∨ db1 = <[email := User.mk (User.id u) 0 None]> db)
    ∧ (User.lockoutUntil u = None -> db1 = db).
Proof.
  intros Hu [Hnone | (t & Ht & Hle)].
  - unfold checkAccountLockout, findUnique. rewrite Hu, Hnone. cbn.
    eexists _, _. repeat split; auto.
  - rewrite (checkAccountLockout_elapsed _ _ _ _ _ Hu Ht Hle).
    eexists _, _. repeat split; auto. congruence.
Qed.

Lemma locked_account_is_refused_aux credentials email pw now db accounts u t :
  parse credentials = Some (email, pw) ->
  db !! email = Some u -> User.lockoutUntil u = Some t -> now < t ->
  authorize parse compare credentials now db accounts
  = (Thrown (mkError "Error"
               ("Account locked. Please try again in "
                +:+ getTimeRemaining t now +:+ ".")),
     db).
Proof.
  intros Hp Hu Ht Hlt. unfold authorize. rewrite Hp.
  unfold checkAccountLockout, findUnique. rewrite Hu, Ht. cbn [after].
  assert ((now <? t) = true) as -> by (apply Z.ltb_lt; lia).
  reflexivity.
Qed.

(** X22. A locked account cannot log in: while the stored lockout date is in
    the future, [authorize] rejects with "Account locked. Please try again in
    ..." whatever the password, right or wrong, and whatever the rest of the
    user row; nothing in the table changes (the attempt is not counted). *)
Theorem locked_account_is_refused credentials email pw now db accounts u t :
  parse credentials = Some (email, pw) ->
  db !! email = Some u -> User.lockoutUntil u = Some t -> now < t ->
  authorize parse compare credentials now db accounts
  = (Thrown (mkError "Error"
               ("Account locked. Please try again in "
                +:+ getTimeRemaining t now +:+ ".")),
     db).
Proof. apply locked_account_is_refused_aux. Qed.

(** X23. A successful login clears the record: for an account that is not
    locked (no lockout date, or one that has passed) and whose email is
    verified, the right password returns the user without its password and
    leaves the row with no failure and no lockout date; no other row
    changes. *)
Theorem successful_login_clears_failures
    credentials email pw now db accounts u account verified :
  parse credentials = Some (email, pw) ->
  db !! email = Some u ->
  (User.lockoutUntil u = None
   ∨ ∃ t, User.lockoutUntil u = Some t ∧ t <= now) ->
  accounts !! email = Some account ->
  emailVerifiedAt account = Some verified ->
  compare pw (default "" (password account)) = true ->
  authorize parse compare credentials now db accounts
  = (Fulfilled (Some (mkSessionUser (profile account) (Some verified))),
     <[email := User.mk (User.id u) 0 None]> db).
Proof.
  intros Hp Hu Hopen Ha Hv Hc. unfold authorize. rewrite Hp.
  destruct (checkAccountLockout_open email now db u Hu Hopen)
    as (s & db1 & -> & -> & Hdb1 & _).
  rewrite Ha, Hv, Hc. unfold resetFailedLoginAttempts, update.
  destruct Hdb1 as [-> | ->].
  - rewrite Hu. reflexivity.
  - rewrite lookup_insert_eq. cbn [User.id]. rewrite insert_insert_eq.
    reflexivity.
Qed.

(** With one clock value for the whole login, [authorizeAt] is
    [authorize]. *)
Lemma authorizeAt_one_clock credentials now db accounts :
  authorizeAt parse compare credentials now now now db accounts
  = authorize parse compare credentials now db accounts.
Proof. reflexivity. Qed.

Lemma authorizeAt_locked credentials email pw checked recorded answered db
    accounts u t :
  parse credentials = Some (email, pw) ->
  db !! email = Some u -> User.lockoutUntil u = Some t -> checked < t ->
  authorizeAt parse compare credentials checked recorded answered db accounts
  = (Thrown (mkError "Error"
               ("Account locked. Please try again in "
                +:+ getTimeRemaining t checked +:+ ".")),
     db).
Proof.
  intros Hp Hu Ht Hlt. unfold authorizeAt. rewrite Hp.
  unfold checkAccountLockout, findUnique. rewrite Hu, Ht. cbn [after].
  assert ((checked <? t) = true) as -> by (apply Z.ltb_lt; lia).
  reflexivity.
Qed.

(** X24. Wrong passwords against a verified account with no lockout date,
    with the clock read where the login reads it. Each one adds a failure
    to the row. Below [maxAttempts] the login just fails (null). The one
    that reaches [maxAttempts] stores a lockout date counted from the
    instant the failure is recorded, and rejects with "Account locked due to
    too many failed attempts. Please try again in ...", where the time shown
    is what is left of the lock at the instant of the answer, after the row
    has been written. From then until the lockout date every login for the
    account is refused as locked, the right password included, and the table
    stays as it is. *)
Theorem wrong_password_is_counted_and_locks
    credentials email pw checked recorded answered db accounts u account
    verified :
  parse credentials = Some (email, pw) ->
  db !! email = Some u -> User.lockoutUntil u = None ->
  accounts !! email = Some account ->
  emailVerifiedAt account = Some verified ->
  compare pw (default "" (password account)) = false ->
  let attempts := User.failedLoginAttempts u + 1 in
  let ends :=
    recorded + (Config.lockoutDuration ACCOUNT_LOCKOUT_CONFIG
                + (attempts - Config.maxAttempts ACCOUNT_LOCKOUT_CONFIG)
                  * Config.incrementDuration ACCOUNT_LOCKOUT_CONFIG) in
  let r :=
    authorizeAt parse compare credentials checked recorded answered db
      accounts in
  (attempts < Config.maxAttempts ACCOUNT_LOCKOUT_CONFIG ->
   r = (Fulfilled None, <[email := User.mk (User.id u) attempts None]> db))
  ∧ (Config.maxAttempts ACCOUNT_LOCKOUT_CONFIG <= attempts ->
     r = (Thrown (mkError "Error"
                    ("Account locked due to too many failed attempts. Please try again in "
                     +:+ getTimeRemaining ends answered +:+ ".")),
          <[email := User.mk (User.id u) attempts (Some ends)]> db)
     ∧ forall credentials' pw' checked' recorded' answered',
         parse credentials' = Some (email, pw') -> checked' < ends ->
         authorizeAt parse compare credentials' checked' recorded' answered'
           r.2 accounts
         = (Thrown (mkError "Error"
                      ("Account locked. Please try again in "
                       +:+ getTimeRemaining ends checked' +:+ ".")),
            r.2)).
Proof.
  intros Hp Hu Hnone Ha Hv Hc attempts ends r.
  assert (Hr : r
    = (let locks := Config.maxAttempts ACCOUNT_LOCKOUT_CONFIG <=? attempts in
       if locks
       then lockedMessage
              "Account locked due to too many failed attempts. Please try again in "
              (Some ends) answered
       else Fulfilled None,
       <[email := User.mk (User.id u) attempts
                    (if Config.maxAttempts ACCOUNT_LOCKOUT_CONFIG <=? attempts
                     then Some ends else None)]> db)).
  { unfold r, authorizeAt. rewrite Hp.
    destruct (checkAccountLockout_open email checked db u Hu (or_introl Hnone))
      as (s & db1 & -> & -> & _ & Hdb1).
    rewrite (Hdb1 Hnone), Ha, Hv, Hc.
    rewrite (recordFailedLoginAttempt_existing _ _ _ _ Hu). cbn zeta.
    fold attempts. cbn [isLocked lockoutUntil].
    destruct (Config.maxAttempts ACCOUNT_LOCKOUT_CONFIG <=? attempts);
      reflexivity. }
  split; intros Hcmp.
  - rewrite Hr. cbn zeta.
    assert ((Config.maxAttempts ACCOUNT_LOCKOUT_CONFIG <=? attempts) = false)
      as -> by (apply Z.leb_gt; lia).
    reflexivity.
  - assert (Hr' : r
      = (Thrown (mkError "Error"
                   ("Account locked due to too many failed attempts. Please try again in "
                    +:+ getTimeRemaining ends answered +:+ ".")),
         <[email := User.mk (User.id u) attempts (Some ends)]> db)).
    { rewrite Hr. cbn zeta.
      assert ((Config.maxAttempts ACCOUNT_LOCKOUT_CONFIG <=? attempts) = true)
        as -> by (apply Z.leb_le; lia).
      reflexivity. }
    split; [exact Hr'|].
    intros credentials' pw' checked' recorded' answered' Hp' Hlt.
    rewrite Hr'. cbn [snd].
    apply (authorizeAt_locked credentials' email pw' checked' recorded'
             answered' _ accounts
             (User.mk (User.id u) attempts (Some ends)) ends Hp');
      [apply lookup_insert_eq|reflexivity|exact Hlt].
Qed.

End AuthFacts.

Lemma locked_account_is_refused_witness :
  let parse : string * string -> option (string * string) := Some in
  let db : gmap string AccountLockout.User.t :=
    {[ "test@example.com" :=
         AccountLockout.User.mk "user-123" 5 (Some 1801000) ]} in
  let accounts : gmap string (Auth.Account string) :=
    {[ "test@example.com" := Auth.mkAccount "Test User" (Some "hash") (Some 1) ]} in
  Auth.authorize parse String.eqb ("test@example.com", "hash") 60000 db accounts
  = (Js.Thrown
       (Js.mkError "Error" "Account locked. Please try again in 29 minutes."),
     db).
Proof.
  intros parse db accounts.
  rewrite (locked_account_is_refused parse String.eqb
             ("test@example.com", "hash") "test@example.com" "hash" 60000 db
             accounts (AccountLockout.User.mk "user-123" 5 (Some 1801000))
             1801000); [reflexivity|reflexivity|reflexivity|reflexivity|lia].
Defined.

Lemma successful_login_clears_failures_witness :
  let parse : string * string -> option (string * string) := Some in
  let db : gmap string AccountLockout.User.t :=
    {[ "test@example.com" := AccountLockout.User.mk "user-123" 3 None ]} in
  let accounts : gmap string (Auth.Account string) :=
    {[ "test@example.com" := Auth.mkAccount "Test User" (Some "hash") (Some 1) ]} in
  Auth.authorize parse String.eqb ("test@example.com", "hash") 60000 db accounts
  = (Js.Fulfilled (Some (Auth.mkSessionUser "Test User" (Some 1))),
     <[ "test@example.com" := AccountLockout.User.mk "user-123" 0 None ]> db).
Proof.
  intros parse db accounts.
  apply (successful_login_clears_failures parse String.eqb
           ("test@example.com", "hash") "test@example.com" "hash" 60000 db
           accounts (AccountLockout.User.mk "user-123" 3 None)
           (Auth.mkAccount "Test User" (Some "hash") (Some 1)) 1);
    try reflexivity.
  left. reflexivity.
Defined.

(** The fifth wrong password is recorded at 1000 ms and the row is written
    40 ms later: the lock lasts 30 minutes from 1000 ms, and the message,
    formed at 1040 ms, says 29 minutes. *)
Lemma wrong_password_is_counted_and_locks_witness :
  let parse : string * string -> option (string * string) := Some in
  let db : gmap string AccountLockout.User.t :=
    {[ "test@example.com" := AccountLockout.User.mk "user-123" 4 None ]} in
  let accounts : gmap string (Auth.Account string) :=
    {[ "test@example.com" := Auth.mkAccount "Test User" (Some "hash") (Some 1) ]} in
  let r :=
    Auth.authorizeAt parse String.eqb ("test@example.com", "guess") 990 1000
      1040 db accounts in
  r = (Js.Thrown
         (Js.mkError "Error"
            "Account locked due to too many failed attempts. Please try again in 29 minutes."),
       <[ "test@example.com" :=
            AccountLockout.User.mk "user-123" 5 (Some 1801000) ]> db)
  ∧ Auth.authorizeAt parse String.eqb ("test@example.com", "hash") 61000
      61010 61020 r.2 accounts
    = (Js.Thrown
         (Js.mkError "Error" "Account locked. Please try again in 29 minutes."),
       r.2).
Proof.
  intros parse db accounts r.
  destruct (wrong_password_is_counted_and_locks parse String.eqb
              ("test@example.com", "guess") "test@example.com" "guess" 990
              1000 1040 db accounts
              (AccountLockout.User.mk "user-123" 4 None)
              (Auth.mkAccount "Test User" (Some "hash") (Some 1)) 1)
    as [_ Hlock]; try reflexivity.
  destruct Hlock as [Hr Hlater]; [cbn; lia|].
  fold r in Hr, Hlater. split.
  - rewrite Hr. reflexivity.
  - rewrite (Hlater ("test@example.com", "hash") "hash" 61000 61010 61020);
      [reflexivity|reflexivity|cbn; lia].
Defined.

(** ** Shutdown: unregistering, the summary, the exit code *)

Section ShutdownUseFacts.
Import Js ShutdownManager ShutdownUse.
Context {W : Type}.
Implicit Types (h : ShutdownHandler W) (hs : list (ShutdownHandler W)) (w : W)
  (m : ShutdownManager.t W).

Lemma fold_left_durations (rs : list Result.t) (a : Z) :
  fold_left (fun sum r => sum + Result.duration r) rs a
  = a + fold_left (fun sum r => sum + Result.duration r) rs 0.
Proof.
  revert a. induction rs as [|r rest IH]; intros a; cbn; [lia|].
  rewrite (IH (a + Result.duration r)), (IH (0 + Result.duration r)). lia.
Qed.

Lemma filter_success_split (rs : list Result.t) :
  (length (List.filter Result.success rs)
   + length (List.filter (fun r => negb (Result.success r)) rs))%nat
  = length rs.
Proof.
  induction rs as [|r rest IH]; cbn; [reflexivity|].
  destruct (Result.success r); cbn; lia.
Qed.

Lemma runHandlers_time dt signal hs :
  forall now w,
    let run := runHandlers dt signal hs [] now w in
    run.1.2 = now + fold_left (fun sum r => sum + Result.duration r) run.1.1 0.
Proof.
  induction hs as [|h rest IH]; intros now w; cbn zeta.
  - cbn. lia.
  - rewrite runHandlers_cons. cbn zeta. cbn [fst snd fold_left].
    rewrite runHandler_spec. cbn [fst snd].
    pose proof (IH (now + Result.duration
                            (expectedEntry (name h) (handler h signal w).1
                               (orNumOpt (timeout h) dt)))
                  (handler h signal w).2) as Ht.
    cbn zeta in Ht. rewrite Ht.
    rewrite (fold_left_durations _ (0 + _)). lia.
Qed.

(** An entry carries an error message exactly when it is not a success. *)
Lemma runHandlers_errors dt signal hs :
  forall now w,
    Forall (fun r => Result.success r = true <-> Result.error r = None)
      (runHandlers dt signal hs [] now w).1.1.
Proof.
  induction hs as [|h rest IH]; intros now w; [constructor|].
  rewrite runHandlers_cons. cbn zeta. cbn [fst snd].
  constructor; [|apply IH].
  rewrite runHandler_spec. cbn [fst]. unfold expectedEntry.
  destruct (handler h signal w).1 as [d [[]|e]|]; [destruct (d <=? _)..|];
    cbn; split; congruence.
Qed.

(** X25. After [unregister(name)], a shutdown runs exactly the handlers with
    another name, in their order: the results carry their names and none
    carries [name], and no handler with that name is called (all of them are
    removed when several were registered under it). *)
Theorem unregistered_handlers_do_not_run (n signal : string) (now : Z) w m :
  let run := executeHandlers signal now w (unregister n m) in
  let kept := List.filter (fun h => negb (String.eqb (name h) n)) (handlers m) in
  List.map Result.name (details run.1.1) = List.map name kept
  ∧ (n ∉ List.map Result.name (details run.1.1))
  ∧ run.2 = worldAfter signal kept w.
Proof.
  intros run kept.
  assert (Hrun : run
    = (summary (runHandlers (defaultTimeout m) signal kept [] now w).1.1,
       (runHandlers (defaultTimeout m) signal kept [] now w).1.2,
       (runHandlers (defaultTimeout m) signal kept [] now w).2)).
  { unfold run, executeHandlers, unregister. cbn [handlers defaultTimeout].
    fold kept.
    destruct (runHandlers (defaultTimeout m) signal kept [] now w) as [[rs t] w'].
    reflexivity. }
  rewrite Hrun. cbn [fst snd details summary].
  rewrite runHandlers_names, runHandlers_world.
  split; [reflexivity|]. split; [|reflexivity].
  intros Hin. apply list_elem_of_fmap in Hin. destruct Hin as (h & Hn & Hh).
  apply list_elem_of_In, filter_In in Hh. destruct Hh as [_ Hh].
  subst n. rewrite String.eqb_refl in Hh. discriminate.
Qed.

(** X26. The summary of a shutdown adds up: there is one entry per handler,
    each counted once, as successful or as failed, and the failed ones are
    exactly those that carry an error message; the handlers run one after
    the other, so the clock when the last one is done is the start plus the
    total of the recorded durations. *)
Theorem shutdown_summary_adds_up (signal : string) (now : Z) w m :
  let run := executeHandlers signal now w m in
  let s := run.1.1 in
  successful s + failed s = total s
  ∧ total s = Z.of_nat (length (handlers m))
  ∧ Forall (fun r => Result.success r = true <-> Result.error r = None)
      (details s)
  ∧ run.1.2 = now + totalDuration s.
Proof.
  intros run s.
  assert (Hrun : run
    = (summary (runHandlers (defaultTimeout m) signal (handlers m) [] now w).1.1,
       (runHandlers (defaultTimeout m) signal (handlers m) [] now w).1.2,
       (runHandlers (defaultTimeout m) signal (handlers m) [] now w).2)).
  { unfold run, executeHandlers.
    destruct (runHandlers (defaultTimeout m) signal (handlers m) [] now w)
      as [[rs t] w'].
    reflexivity. }
  unfold s. rewrite Hrun.
  cbn [fst snd summary successful failed total totalDuration details].
  pose proof (runHandlers_time (defaultTimeout m) signal (handlers m) now w)
    as Ht. cbn zeta in Ht.
  pose proof (runHandlers_names (defaultTimeout m) signal (handlers m) now w)
    as Hn.
  apply (f_equal (@length string)) in Hn. rewrite !length_map in Hn.
  pose proof (filter_success_split
                (runHandlers (defaultTimeout m) signal (handlers m) [] now w).1.1).
  split; [lia|]. split; [lia|]. split; [apply runHandlers_errors|exact Ht].
Qed.

(** X27. The first shutdown signal marks the manager as shutting down, calls
    every handler once and then flushes the logs; the process exits with
    code 0 when the flush succeeds and with code 1 when it fails, whatever
    the handlers did. A signal that arrives at a manager that is shutting
    down calls nothing and changes nothing. *)
Theorem shutdown_exit_code (flushLogs : Op W unit) (signal signal' : string)
    (now now' : Z) w m :
  isShuttingDown m = false ->
  let r := handleShutdown flushLogs signal now w m in
  let flushed := flushLogs (worldAfter signal (handlers m) w) in
  isShuttingDown r.1.2 = true
  ∧ handlers r.1.2 = handlers m
  ∧ r.2 = flushed.2
  ∧ r.1.1 = match flushed.1 with
            | SettlesAfter _ (Fulfilled _) => Exits 0
            | SettlesAfter _ (Thrown _) => Exits 1
            | NeverSettles => Hangs
            end
  ∧ forall w', handleShutdown flushLogs signal' now' w' r.1.2
               = (Returns, r.1.2, w').
Proof.
  intros Hidle r flushed.
  set (m1 := ShutdownManager.mk (handlers m) true (defaultTimeout m)).
  assert (Hw : (executeHandlers signal now w m1).2
               = worldAfter signal (handlers m) w).
  { unfold executeHandlers. cbn [handlers defaultTimeout m1].
    pose proof (runHandlers_world (defaultTimeout m) signal (handlers m) now w).
    destruct (runHandlers (defaultTimeout m) signal (handlers m) [] now w)
      as [[rs t] w1].
    assumption. }
  assert (Hr : r
    = (match flushed.1 with
       | SettlesAfter _ (Fulfilled _) => Exits 0
       | SettlesAfter _ (Thrown _) => Exits 1
       | NeverSettles => Hangs
       end, m1, flushed.2)).
  { unfold r, handleShutdown. rewrite Hidle. fold m1.
    destruct (executeHandlers signal now w m1) as [[s t] w1]. cbn [snd] in Hw.
    subst w1. fold flushed. destruct flushed as [p w2]. cbn [fst snd].
    destruct p as [d [[]|e]|]; reflexivity. }
  rewrite Hr. cbn [fst snd]. repeat split.
Qed.

End ShutdownUseFacts.

Lemma shutdown_exit_code_witness :
  let failing : ShutdownManager.ShutdownHandler (list string) :=
    ShutdownManager.mkHandler "database"
      (fun _ log =>
         (Js.SettlesAfter 5 (Js.Thrown (Js.mkError "Error" "no connection")),
          log ++ ["database"]))
      (Some 10000) in
  let flushLogs : Js.Op (list string) unit :=
    fun log => (Js.SettlesAfter 1 (Js.Fulfilled tt), log ++ ["flush"]) in
  let m := ShutdownManager.register failing ShutdownManager.new in
  let r := ShutdownUse.handleShutdown flushLogs "SIGTERM" 0 [] m in
  r.1.1 = ShutdownUse.Exits 0 ∧ r.2 = ["database"; "flush"].
Proof.
  intros failing flushLogs m r.
  destruct (shutdown_exit_code flushLogs "SIGTERM" "SIGINT" 0 1 [] m)
    as (_ & _ & Hw & He & _).
  - reflexivity.
  - fold r in Hw, He. split; [rewrite He|rewrite Hw]; reflexivity.
Defined.

Section AuthUnverified.
Import Js AccountLockout LockoutUse Auth.
Context {C P : Type}.
Variable parse : C -> option (string * string).
Variable compare : string -> string -> bool.
Implicit Types (db : gmap string User.t) (accounts : gmap string (Account P)).

(** X30. An account whose email is not verified cannot log in: with no
    lockout date stored, [authorize] rejects with "Please verify your email
    before logging in." whatever the password; the password is not looked
    at, so a wrong one is not counted, and the table stays as it is. *)
Theorem unverified_account_cannot_log_in
    credentials email pw now db accounts u account :
  parse credentials = Some (email, pw) ->
  db !! email = Some u -> User.lockoutUntil u = None ->
  accounts !! email = Some account ->
  emailVerifiedAt account = None ->
  authorize parse compare credentials now db accounts
  = (Thrown (mkError "Error" "Please verify your email before logging in."),
     db).
Proof.
  intros Hp Hu Hnone Ha Hv. unfold authorize. rewrite Hp.
  unfold checkAccountLockout, findUnique. rewrite Hu, Hnone. cbn.
  rewrite Ha, Hv. reflexivity.
Qed.

End AuthUnverified.

Lemma unverified_account_cannot_log_in_witness :
  let parse : string * string -> option (string * string) := Some in
  let db : gmap string AccountLockout.User.t :=
    {[ "new@example.com" := AccountLockout.User.mk "user-9" 0 None ]} in
  let accounts : gmap string (Auth.Account string) :=
    {[ "new@example.com" := Auth.mkAccount "New User" (Some "hash") None ]} in
  Auth.authorize parse String.eqb ("new@example.com", "hash") 60000 db accounts
  = (Js.Thrown
       (Js.mkError "Error" "Please verify your email before logging in."),
     db).
Proof.
  intros parse db accounts.
  apply (unverified_account_cannot_log_in parse String.eqb
           ("new@example.com", "hash") "new@example.com" "hash" 60000 db
           accounts (AccountLockout.User.mk "user-9" 0 None)
           (Auth.mkAccount "New User" (Some "hash") None));
    reflexivity.
Defined.
